(** * Settlement calculator of the expense tracker (utils/balanceCalculator.ts)

    A shallow embedding of [getPayers], [calculateBalances],
    [calculateTripSummary], [calculateParticipantSummary],
    [markBalanceAsSettled] and the settled/unsettled queries, with the
    properties of the specification stated and proved (or refuted) on it.

    The source computes with JavaScript numbers.  The embedding is written
    once, over an interface [JSNumber] of the arithmetic the source uses, and
    is read at two instances:

    - [Float64.number]: IEEE-754 binary64, through Rocq's primitive floats.
      This is what the program runs on; concrete runs of the source are
      evaluated here, and every property is stated here.
    - [Exact.number]: the rationals [Qc] in place of the doubles.  No
      program runs on it.  Sums are exact there, and a statement at this
      instance says what the algorithm does apart from the rounding of
      doubles; it comes second, after what holds on doubles.

    On doubles the matching loop need not return (C3), so a statement
    about the balances is about the runs that return.

    The file has three parts: the embedding of the source, the vocabulary
    of the statements, and the properties.  The properties that the
    specification states carry its tags, C1 to C10; those tagged with an X
    are further properties of the code. *)

From Stdlib Require Import ZArith QArith Qcanon Qround Qabs Qpower Lqa Lia Uint63.
From Stdlib Require PrimFloat FloatOps SpecFloat FloatAxioms.
From stdpp Require Import list strings.

Set Default Proof Using "Type".

(** ** The arithmetic of the source *)

Class JSNumber (N : Type) := {
  nzero : N;                    (* the literal 0 *)
  nadd : N -> N -> N;           (* a + b *)
  nsub : N -> N -> N;           (* a - b *)
  ndiv : N -> N -> N;           (* a / b *)
  nabs : N -> N;                (* Math.abs(a) *)
  nmin : N -> N -> N;           (* Math.min(a, b) *)
  nlt : N -> N -> bool;         (* a < b *)
  neq : N -> N -> bool;         (* a === b *)
  ntruthy : N -> bool;          (* ToBoolean(a), as in [a || 0] *)
  nof_nat : nat -> N;           (* an array length, as a number *)
  round2 : N -> N;              (* parseFloat(a.toFixed(2)) *)
}.

(** The same arithmetic with the rounding at emission left out: line 71
    with [amount: amount].  A run on it yields the transfers that the loop
    computes before it rounds them. *)
Definition withoutRounding {N : Type} (number : JSNumber N) : JSNumber N := {|
  nzero := nzero;
  nadd := nadd;
  nsub := nsub;
  ndiv := ndiv;
  nabs := nabs;
  nmin := nmin;
  nlt := nlt;
  neq := neq;
  ntruthy := ntruthy;
  nof_nat := nof_nat;
  round2 := fun amount => amount;
|}.

(** *** binary64 *)

Module Float64.

Abbreviation float := PrimFloat.float.

Definition is_nan (x : float) : bool := negb (PrimFloat.eqb x x).

(** Neither NaN nor an infinity. *)
Definition is_finite (x : float) : bool :=
  match FloatOps.Prim2SF x with
  | SpecFloat.S754_zero _ | SpecFloat.S754_finite _ _ _ => true
  | _ => false
  end.

Definition is_neg_zero (x : float) : bool :=
  match PrimFloat.classify x with
  | FloatClass.NZero => true
  | _ => false
  end.

(** [Math.min]: NaN if either argument is NaN, and -0 below +0. *)
Definition min (x y : float) : float :=
  if is_nan x || is_nan y then PrimFloat.nan
  else if PrimFloat.ltb x y then x
  else if PrimFloat.ltb y x then y
  else if is_neg_zero x then x else y.

Definition truthy (x : float) : bool :=
  negb (is_nan x) && negb (PrimFloat.eqb x PrimFloat.zero).

(** The double of a whole number [0 <= z < 2^53]. *)
Definition of_Z (z : Z) : float := PrimFloat.of_uint63 (Uint63.of_Z z).

Definition of_nat (n : nat) : float := of_Z (Z.of_nat n).

(** [parseFloat(x.toFixed(2))].  [toFixed(2)] prints the integer [n] for
    which [n / 100] is nearest to the exact value of [|x|], the larger one on
    a tie, with the sign of [x] in front; [parseFloat] reads the decimal back
    as the nearest double.  The exact value of a finite double is
    [m * 2^e] ([Prim2SF]).

    For [e >= -6] the doubles around [x] are at least [1/64] apart, so the
    double nearest to [n / 100] (which is within [0.005] of [x]) is [x]
    itself; this also covers [|x| >= 1e21], where [toFixed] prints [x] in
    full.  Below that, [n < 2^53] is itself a double and the division
    [n / 100] rounds to the double nearest to the decimal.  NaN and the
    infinities print as "NaN" and "Infinity" and parse back to themselves;
    both zeros print as "0.00". *)
Definition toFixed2 (x : float) : float :=
  match FloatOps.Prim2SF x with
  | SpecFloat.S754_finite s m e =>
      if (-6 <=? e)%Z then x
      else
        let k := (- e)%Z in
        let n := ((200 * Z.pos m + 2 ^ k) / 2 ^ (k + 1))%Z in
        let r := PrimFloat.div (of_Z n) (of_Z 100) in
        if s then PrimFloat.opp r else r
  | SpecFloat.S754_zero _ => PrimFloat.zero
  | _ => x
  end.

(** The sign bit is clear: [+0], a positive number or [+Infinity].  NaN,
    which has no sign here, counts as clear. *)
Definition sf_sign_clear (x : SpecFloat.spec_float) : bool :=
  match x with
  | SpecFloat.S754_zero s | SpecFloat.S754_infinity s
  | SpecFloat.S754_finite s _ _ => negb s
  | SpecFloat.S754_nan => true
  end.

Definition sign_clear (x : float) : bool := sf_sign_clear (FloatOps.Prim2SF x).

(** An amount that is still to be matched: the sign bit is clear and the
    amount is not [=== 0].  It is positive, or NaN. *)
Definition owing (x : float) : bool :=
  sign_clear x && negb (PrimFloat.eqb x PrimFloat.zero).


(** The rational that a finite double stands for. *)
Definition exact (x : float) : option Q :=
  match FloatOps.Prim2SF x with
  | SpecFloat.S754_zero _ => Some 0%Q
  | SpecFloat.S754_finite s m e =>
      Some ((if s then -1 else 1) * inject_Z (Z.pos m) * Qpower 2 e)%Q
  | _ => None
  end.

#[global] Instance number : JSNumber PrimFloat.float := {|
  nzero := PrimFloat.zero;
  nadd := PrimFloat.add;
  nsub := PrimFloat.sub;
  ndiv := PrimFloat.div;
  nabs := PrimFloat.abs;
  nmin := min;
  nlt := PrimFloat.ltb;
  neq := PrimFloat.eqb;
  ntruthy := truthy;
  nof_nat := of_nat;
  round2 := toFixed2;
|}.

End Float64.

(** *** Exact rationals *)

Module Exact.

Definition lt (x y : Qc) : bool := bool_decide (x < y)%Qc.

Definition min (x y : Qc) : Qc := if lt y x then y else x.

Definition abs (x : Qc) : Qc := if lt x 0 then (- x)%Qc else x.

Definition of_nat (n : nat) : Qc := Q2Qc (inject_Z (Z.of_nat n)).

(** Round half up to a whole number of hundredths, on the magnitude. *)
Definition hundredths (x : Qc) : Z := Qfloor (100 * x + (1 # 2))%Q.

Definition toFixed2 (x : Qc) : Qc :=
  if lt x 0 then (- Q2Qc (Qmake (hundredths (- x)) 100))%Qc
  else Q2Qc (Qmake (hundredths x) 100).

#[global] Instance number : JSNumber Qc := {|
  nzero := 0%Qc;
  nadd := Qcplus;
  nsub := Qcminus;
  ndiv := Qcdiv;
  nabs := abs;
  nmin := min;
  nlt := lt;
  neq := Qc_eq_bool;
  ntruthy := fun x => negb (Qc_eq_bool x 0);
  nof_nat := of_nat;
  round2 := toFixed2;
|}.

End Exact.

(** ** Data model (utils/storage.ts) *)

Module Payer.
Record t (N : Type) := mk { name : string; amount : N }.
Arguments mk {N} _ _.
Arguments name {N} _.
Arguments amount {N} _.
End Payer.

(** [paidBy] is typed as an array of payers; [getPayers] also accepts the
    single-name form, and anything else counts as no payer. *)
Inductive PaidBy (N : Type) :=
| PaidByArray (payers : list (Payer.t N))
| PaidByString (payer : string)
| PaidByOther.
Arguments PaidByArray {N} _.
Arguments PaidByString {N} _.
Arguments PaidByOther {N}.

(** Of an expense the calculator reads [amount], [paidBy] and
    [splitBetween]; the identity and the dates are never looked at. *)
Module Expense.
Record t (N : Type) := mk {
  amount : N;
  paidBy : PaidBy N;
  splitBetween : list string;
}.
Arguments mk {N} _ _ _.
Arguments amount {N} _.
Arguments paidBy {N} _.
Arguments splitBetween {N} _.
End Expense.

Module Balance.
Record t (N : Type) := mk {
  from : string;
  to : string;
  amount : N;
  isSettled : bool;
  settledAt : option string;
}.
Arguments mk {N} _ _ _ _ _.
Arguments from {N} _.
Arguments to {N} _.
Arguments amount {N} _.
Arguments isSettled {N} _.
Arguments settledAt {N} _.
End Balance.

(** ** The containers of the source

    A JavaScript [Set] and [Map] iterate in the order in which their keys
    were first inserted, and the order reaches the output (the debtors and
    creditors are pushed in that order), so both are kept as lists. *)

(** [s.add(x)] *)
Fixpoint set_add (s : list string) (x : string) : list string :=
  match s with
  | [] => [x]
  | y :: s' => if String.eqb y x then s else y :: set_add s' x
  end.

(** [m.get(k)] *)
Fixpoint map_get {V : Type} (m : list (string * V)) (k : string) : option V :=
  match m with
  | [] => None
  | (k', v) :: m' => if String.eqb k' k then Some v else map_get m' k
  end.

(** [m.set(k, v)]: an existing key keeps its place. *)
Fixpoint map_set {V : Type} (m : list (string * V)) (k : string) (v : V)
  : list (string * V) :=
  match m with
  | [] => [(k, v)]
  | (k', v') :: m' =>
      if String.eqb k' k then (k', v) :: m' else (k', v') :: map_set m' k v
  end.

Section Calculator.

Context {N : Type} `{JSNumber N}.

(** ** calculateBalances *)

Definition getPayers (expense : Expense.t N) : list (Payer.t N) :=
  match Expense.paidBy expense with
  | PaidByArray payers => payers
  | PaidByString payer => [Payer.mk payer (Expense.amount expense)]
  | PaidByOther => []
  end.

(** Lines 13-19 (and 90-96): every payer name, then every split member, of
    every expense. *)
Definition addParticipants (all : list string) (expense : Expense.t N)
  : list string :=
  fold_left set_add (Expense.splitBetween expense)
    (fold_left (fun s payer => set_add s (Payer.name payer))
       (getPayers expense) all).

Definition allParticipants (expenses : list (Expense.t N)) : list string :=
  fold_left addParticipants expenses [].

(** [netAmounts.get(k) || 0] *)
Definition get_or_zero (m : list (string * N)) (k : string) : N :=
  match map_get m k with
  | Some v => if ntruthy v then v else nzero
  | None => nzero
  end.

(** Lines 28-33: a payer is credited with what they paid. *)
Definition creditPayer (netAmounts : list (string * N)) (payer : Payer.t N)
  : list (string * N) :=
  map_set netAmounts (Payer.name payer)
    (nadd (get_or_zero netAmounts (Payer.name payer)) (Payer.amount payer)).

(** Lines 34-39: a split member is charged an equal share. *)
Definition debitMember (splitAmount : N) (netAmounts : list (string * N))
  (participant : string) : list (string * N) :=
  map_set netAmounts participant
    (nsub (get_or_zero netAmounts participant) splitAmount).

(** Lines 25-40, one expense. *)
Definition applyExpense (netAmounts : list (string * N)) (expense : Expense.t N)
  : list (string * N) :=
  let paidAmount := Expense.amount expense in
  let splitAmount :=
    ndiv paidAmount (nof_nat (length (Expense.splitBetween expense))) in
  fold_left (debitMember splitAmount) (Expense.splitBetween expense)
    (fold_left creditPayer (getPayers expense) netAmounts).

Definition netAmounts (expenses : list (Expense.t N)) : list (string * N) :=
  let participants := allParticipants expenses in
  let init := fold_left (fun m p => map_set m p nzero) participants [] in
  fold_left applyExpense expenses init.

(** Lines 44-50. *)
Definition debtorsOf (net : list (string * N)) : list (Payer.t N) :=
  flat_map
    (fun '(participant, amount) =>
       if nlt amount nzero then [Payer.mk participant (nabs amount)] else [])
    net.

Definition creditorsOf (net : list (string * N)) : list (Payer.t N) :=
  flat_map
    (fun '(participant, amount) =>
       if nlt amount nzero then []
       else if nlt nzero amount then [Payer.mk participant amount] else [])
    net.

(** [arr.sort((a, b) => b.amount - a.amount)].  The sort is stable: [a]
    moves behind [b] only when the comparator is positive on [(a, b)]. *)
Definition comesAfter (a b : Payer.t N) : bool :=
  nlt nzero (nsub (Payer.amount b) (Payer.amount a)).

Fixpoint sort_insert (a : Payer.t N) (l : list (Payer.t N)) : list (Payer.t N) :=
  match l with
  | [] => [a]
  | b :: l' => if comesAfter a b then b :: sort_insert a l' else a :: l
  end.

Definition sortDescending (l : list (Payer.t N)) : list (Payer.t N) :=
  foldr sort_insert [] l.

(** The state of the matching loop (lines 53-80).  [debtor.amount -= amount]
    writes into the array element, so the arrays are part of the state. *)
Record Matching := mkMatching {
  debtors : list (Payer.t N);
  creditors : list (Payer.t N);
  debtorIndex : nat;
  creditorIndex : nat;
  balances : list (Balance.t N);
}.

(** The loop.  Its condition, both indices in range, is that both reads
    succeed.  The source loops for as long as the condition holds; [fuel]
    bounds the number of iterations, and [None] means that it ran out. *)
Fixpoint matchLoop (fuel : nat) (st : Matching) : option (list (Balance.t N)) :=
  match fuel with
  | O => None
  | S fuel' =>
      match debtors st !! debtorIndex st, creditors st !! creditorIndex st with
      | Some debtor, Some creditor =>
          if String.eqb (Payer.name debtor) (Payer.name creditor) then
            matchLoop fuel'
              (mkMatching (debtors st) (creditors st)
                 (S (debtorIndex st)) (creditorIndex st) (balances st))
          else
            let amount := nmin (Payer.amount debtor) (Payer.amount creditor) in
            let balances' :=
              balances st ++
              [Balance.mk (Payer.name debtor) (Payer.name creditor)
                 (round2 amount) false None] in
            let debtor' :=
              Payer.mk (Payer.name debtor) (nsub (Payer.amount debtor) amount) in
            let creditor' :=
              Payer.mk (Payer.name creditor) (nsub (Payer.amount creditor) amount) in
            let debtorIndex' :=
              if neq (Payer.amount debtor') nzero
              then S (debtorIndex st) else debtorIndex st in
            let creditorIndex' :=
              if neq (Payer.amount creditor') nzero
              then S (creditorIndex st) else creditorIndex st in
            matchLoop fuel'
              (mkMatching
                 (<[debtorIndex st := debtor']> (debtors st))
                 (<[creditorIndex st := creditor']> (creditors st))
                 debtorIndex' creditorIndex' balances')
      | _, _ => Some (balances st)
      end
  end.

Definition calculateBalances (fuel : nat) (expenses : list (Expense.t N))
  : option (list (Balance.t N)) :=
  match expenses with
  | [] => Some []
  | _ =>
      let net := netAmounts expenses in
      matchLoop fuel
        (mkMatching (sortDescending (debtorsOf net))
           (sortDescending (creditorsOf net)) 0 0 [])
  end.

End Calculator.

(** ** calculateParticipantSummary *)

Module Summary.
Record t (N : Type) := mk {
  totalPaid : N;
  totalOwed : N;
  netAmount : N;
  expenseCount : nat;
  isCreditor : bool;
  isDebtor : bool;
  isSettled : bool;
}.
Arguments mk {N} _ _ _ _ _ _ _.
Arguments totalPaid {N} _.
Arguments totalOwed {N} _.
Arguments netAmount {N} _.
Arguments expenseCount {N} _.
Arguments isCreditor {N} _.
Arguments isDebtor {N} _.
Arguments isSettled {N} _.
End Summary.

Section ParticipantSummary.

Context {N : Type} `{JSNumber N}.

(** [arr.includes(x)] on an array of strings. *)
Definition includes (x : string) (arr : list string) : bool :=
  existsb (String.eqb x) arr.

(** The three accumulators [totalPaid], [totalOwed], [expenseCount] of
    lines 110-112. *)
Definition Totals : Type := N * N * nat.

(** Lines 114-119: the inner [forEach] over the payers of one expense. *)
Definition countPayer (participantName : string) (acc : N * nat)
  (payer : Payer.t N) : N * nat :=
  if String.eqb (Payer.name payer) participantName
  then (nadd (fst acc) (Payer.amount payer), S (snd acc))
  else acc.

(** Lines 113-123: the body of the outer [forEach]. *)
Definition summaryStep (participantName : string) (acc : Totals)
  (expense : Expense.t N) : Totals :=
  let '(totalPaid, totalOwed, expenseCount) := acc in
  let '(totalPaid', expenseCount') :=
    fold_left (countPayer participantName) (getPayers expense)
      (totalPaid, expenseCount) in
  let totalOwed' :=
    if includes participantName (Expense.splitBetween expense)
    then nadd totalOwed
           (ndiv (Expense.amount expense)
              (nof_nat (length (Expense.splitBetween expense))))
    else totalOwed in
  (totalPaid', totalOwed', expenseCount').

Definition calculateParticipantSummary (expenses : list (Expense.t N))
  (participantName : string) : Summary.t N :=
  let '(totalPaid, totalOwed, expenseCount) :=
    fold_left (summaryStep participantName) expenses (nzero, nzero, 0) in
  let netAmount := nsub totalPaid totalOwed in
  Summary.mk totalPaid totalOwed netAmount expenseCount
    (nlt nzero netAmount) (nlt netAmount nzero) (neq netAmount nzero).

End ParticipantSummary.

(** ** calculateTripSummary *)

Module TripSummary.
Record t (N : Type) := mk {
  totalExpenses : N;
  expenseCount : nat;
  participantCount : nat;
  averagePerExpense : N;
}.
Arguments mk {N} _ _ _ _.
Arguments totalExpenses {N} _.
Arguments expenseCount {N} _.
Arguments participantCount {N} _.
Arguments averagePerExpense {N} _.
End TripSummary.

Section TripSummary.

Context {N : Type} `{JSNumber N}.

(** Lines 85-104.  The loop that fills [uniqueParticipants] (lines 90-96)
    is the loop of lines 13-19, [allParticipants]; [expenses.length] and
    the size of the set are counts, kept as [nat]. *)
Definition calculateTripSummary (expenses : list (Expense.t N))
  : TripSummary.t N :=
  let totalExpenses :=
    fold_left (fun sum expense => nadd sum (nabs (Expense.amount expense)))
      expenses nzero in
  let uniqueParticipants := allParticipants expenses in
  TripSummary.mk totalExpenses (length expenses) (length uniqueParticipants)
    (if 0 <? length expenses
     then ndiv totalExpenses (nof_nat (length expenses))
     else nzero).

End TripSummary.

(** ** The settlement ledger *)

(** A store of balance objects, by address. *)
Abbreviation Heap N := (list (Balance.t N)).

Section Ledger.

Context {N : Type}.

(** [new Date().toISOString()]: [clock k] is what the [k]-th reading of the
    clock returns.  The number of readings taken so far is threaded through
    [markBalanceAsSettled], which reads the clock once for every entry it
    settles. *)
Variable clock : nat -> string.

Definition matchesUnsettled (from to : string) (balance : Balance.t N) : bool :=
  String.eqb (Balance.from balance) from
  && String.eqb (Balance.to balance) to
  && negb (Balance.isSettled balance).

(** [{ ...balance, isSettled: true, settledAt: ... }] *)
Definition settledCopy (balance : Balance.t N) (settledAt : string)
  : Balance.t N :=
  Balance.mk (Balance.from balance) (Balance.to balance)
    (Balance.amount balance) true (Some settledAt).

(** Lines 136-151, on the values of the entries. *)
Fixpoint markBalanceAsSettled (now : nat) (balances : list (Balance.t N))
  (from to : string) : list (Balance.t N) * nat :=
  match balances with
  | [] => ([], now)
  | balance :: rest =>
      if matchesUnsettled from to balance then
        let '(rest', now') := markBalanceAsSettled (S now) rest from to in
        (settledCopy balance (clock now) :: rest', now')
      else
        let '(rest', now') := markBalanceAsSettled now rest from to in
        (balance :: rest', now')
  end.

(** The same function on a store of objects.  An array is the list of the
    addresses of its elements; [return balance] puts the element itself in
    the new array, and the object literal allocates a new one.  [None] only
    on an address that is not allocated. *)
Definition alloc (h : Heap N) (balance : Balance.t N) : Heap N * nat :=
  (h ++ [balance], length h).

Fixpoint markBalanceAsSettledIn (h : Heap N) (now : nat) (balances : list nat)
  (from to : string) : option (Heap N * nat * list nat) :=
  match balances with
  | [] => Some (h, now, [])
  | address :: rest =>
      match h !! address with
      | None => None
      | Some balance =>
          if matchesUnsettled from to balance then
            let '(h1, fresh) := alloc h (settledCopy balance (clock now)) in
            match markBalanceAsSettledIn h1 (S now) rest from to with
            | Some (h2, now', rest') => Some (h2, now', fresh :: rest')
            | None => None
            end
          else
            match markBalanceAsSettledIn h now rest from to with
            | Some (h2, now', rest') => Some (h2, now', address :: rest')
            | None => None
            end
      end
  end.

(** The values an array of addresses holds. *)
Definition readAll (h : Heap N) (balances : list nat)
  : option (list (Balance.t N)) :=
  mapM (fun address => h !! address) balances.

Definition getSettledBalances (balances : list (Balance.t N))
  : list (Balance.t N) :=
  List.filter (fun balance => Balance.isSettled balance) balances.

Definition getUnsettledBalances (balances : list (Balance.t N))
  : list (Balance.t N) :=
  List.filter (fun balance => negb (Balance.isSettled balance)) balances.

End Ledger.

Section LedgerTotals.

Context {N : Type} `{JSNumber N}.

(** [balances.reduce((sum, balance) => sum + balance.amount, 0)] *)
Definition sumAmounts (balances : list (Balance.t N)) : N :=
  fold_left (fun sum balance => nadd sum (Balance.amount balance))
    balances nzero.

Definition getTotalSettledAmount (balances : list (Balance.t N)) : N :=
  sumAmounts (getSettledBalances balances).


End LedgerTotals.

(** * The vocabulary of the statements *)

Section Vocabulary.

Context {N : Type} `{JSNumber N}.

(** A sum as the source computes one: from [0], left to right. *)
Definition nsum (l : list N) : N := fold_left nadd l nzero.

(** In the words of the specification: the payer entries of [name], over
    all expenses, and the equal shares of the expenses whose [splitBetween]
    has [name]. *)
Definition paymentsBy (name : string) (expenses : list (Expense.t N))
  : list (Payer.t N) :=
  List.filter (fun payer => String.eqb (Payer.name payer) name)
    (flat_map getPayers expenses).

Definition equalShare (expense : Expense.t N) : N :=
  ndiv (Expense.amount expense)
    (nof_nat (length (Expense.splitBetween expense))).

Definition sharesOf (name : string) (expenses : list (Expense.t N)) : list N :=
  map equalShare
    (List.filter (fun expense => includes name (Expense.splitBetween expense))
       expenses).

(** [name] is a payer or a split member of some expense. *)
Definition appearsIn (name : string) (expenses : list (Expense.t N)) : Prop :=
  exists expense, In expense expenses
    /\ (In name (map Payer.name (getPayers expense))
        \/ In name (Expense.splitBetween expense)).

(** A validly shaped expense (data model of the specification):
    [splitBetween] is a non-empty set of names, and the amounts of the
    payers add up to the amount of the expense. *)
Definition validExpense (expense : Expense.t N) : Prop :=
  Expense.splitBetween expense <> []
  /\ NoDup (Expense.splitBetween expense)
  /\ nsum (map Payer.amount (getPayers expense)) = Expense.amount expense.




(** The matching loop on what is left of the two arrays.  The loop never
    goes back: it reads the arrays at the two indices only, and an index
    only moves forward.  So a state is as good as the two suffixes that
    start at its indices, the first element of each carrying what remains
    of its amount.  [settleWith] is the loop on these suffixes; it returns
    the balances pushed from the state on ([matchLoop_settle] below).  The
    amount of an emitted balance goes through [emit], which is [round2] in
    the source. *)
Fixpoint settleWith (emit : N -> N) (fuel : nat) (ds cs : list (Payer.t N))
  : option (list (Balance.t N)) :=
  match fuel with
  | O => None
  | S fuel' =>
      match ds, cs with
      | debtor :: ds', creditor :: cs' =>
          if String.eqb (Payer.name debtor) (Payer.name creditor) then
            settleWith emit fuel' ds' cs
          else
            let amount := nmin (Payer.amount debtor) (Payer.amount creditor) in
            let debtor' :=
              Payer.mk (Payer.name debtor) (nsub (Payer.amount debtor) amount) in
            let creditor' :=
              Payer.mk (Payer.name creditor) (nsub (Payer.amount creditor) amount) in
            let ds2 :=
              if neq (Payer.amount debtor') nzero then ds' else debtor' :: ds' in
            let cs2 :=
              if neq (Payer.amount creditor') nzero then cs' else creditor' :: cs' in
            cons (Balance.mk (Payer.name debtor) (Payer.name creditor)
                    (emit amount) false None)
              <$> settleWith emit fuel' ds2 cs2
      | _, _ => Some []
      end
  end.

(** A balance with [f] applied to its amount. *)
Definition withAmount (f : N -> N) (balance : Balance.t N) : Balance.t N :=
  Balance.mk (Balance.from balance) (Balance.to balance)
    (f (Balance.amount balance))
    (Balance.isSettled balance) (Balance.settledAt balance).

(** The single-name form of [paidBy] written as an array (the
    normalisation at ingestion of the design notes): one payer of the whole
    amount.  A [paidBy] that is neither becomes the empty array. *)
Definition normalizePaidBy (expense : Expense.t N) : Expense.t N :=
  Expense.mk (Expense.amount expense)
    (match Expense.paidBy expense with
     | PaidByArray payers => PaidByArray payers
     | PaidByString payer =>
         PaidByArray [Payer.mk payer (Expense.amount expense)]
     | PaidByOther => PaidByArray []
     end)
    (Expense.splitBetween expense).


(** The key under which the ledger finds a balance again. *)
Definition pairOf (balance : Balance.t N) : string * string :=
  (Balance.from balance, Balance.to balance).

(** [from] and [to] match, settled or not. *)
Definition samePair (from to : string) (balance : Balance.t N) : bool :=
  String.eqb (Balance.from balance) from && String.eqb (Balance.to balance) to.

(** The three flags of a participant summary, in the order creditor,
    debtor, settled. *)
Definition roles (summary : Summary.t N) : bool * bool * bool :=
  (Summary.isCreditor summary, Summary.isDebtor summary,
   Summary.isSettled summary).

End Vocabulary.

(** ** Exact sums *)






Definition positive (d : Payer.t Qc) : Prop := (0 < Payer.amount d)%Qc.

(** No debtor is also a creditor. *)
Definition disjointNames (ds cs : list (Payer.t Qc)) : Prop :=
  forall d c, In d ds -> In c cs -> Payer.name d <> Payer.name c.

(** Half a hundredth: how far [toFixed(2)] moves an amount, at most. *)
Definition halfCent : Qc := Q2Qc (1 # 200).

(** ** Amounts and expenses for concrete runs *)

(** The double nearest to [n / d], for whole numbers below [2^53]: what
    the decimal literal of [n / d] denotes. *)
Definition float_decimal (n d : Z) : PrimFloat.float :=
  PrimFloat.div (Float64.of_Z n) (Float64.of_Z d).

(** An amount of [n] hundredths: the double nearest to [n / 100], and the
    rational [n / 100]. *)
Definition float_cents (n : Z) : PrimFloat.float := float_decimal n 100.

Definition exact_cents (n : Z) : Qc := Q2Qc (Qmake n 100).


(** 2^1023, about 8.99e307: a finite double. *)
Definition huge : PrimFloat.float := FloatOps.Z.ldexp PrimFloat.one 1023.

(** The first scenario of the specification: A pays 300 for A, B and C. *)
Definition scenario_trip {N : Type} (cents : Z -> N) : list (Expense.t N) :=
  [Expense.mk (cents 30000%Z) (PaidByArray [Payer.mk "A" (cents 30000%Z)])
     ["A"; "B"; "C"]].

(** The second scenario of the specification: two expenses of 100 between A
    and B, one paid by each. *)
Definition scenario_even {N : Type} (cents : Z -> N) : list (Expense.t N) :=
  [Expense.mk (cents 10000%Z) (PaidByArray [Payer.mk "A" (cents 10000%Z)])
     ["A"; "B"];
   Expense.mk (cents 10000%Z) (PaidByArray [Payer.mk "B" (cents 10000%Z)])
     ["A"; "B"]].


(** A pays one hundredth for A, B and C: B and C owe a third of it each. *)
Definition scenario_cent {N : Type} (cents : Z -> N) : list (Expense.t N) :=
  [Expense.mk (cents 1%Z) (PaidByArray [Payer.mk "A" (cents 1%Z)])
     ["A"; "B"; "C"]].


(** Two expenses of [huge], both paid by A for B. *)
Definition scenario_overflow : list (Expense.t PrimFloat.float) :=
  [Expense.mk huge (PaidByArray [Payer.mk "A" huge]) ["B"];
   Expense.mk huge (PaidByArray [Payer.mk "A" huge]) ["B"]].

(** Two expenses of [huge] that A pays and owes alone. *)
Definition scenario_alone : list (Expense.t PrimFloat.float) :=
  [Expense.mk huge (PaidByArray [Payer.mk "A" huge]) ["A"];
   Expense.mk huge (PaidByArray [Payer.mk "A" huge]) ["A"]].

(** A store of two balances, and a clock that always reads the same. *)
Definition store_two : Heap PrimFloat.float :=
  [Balance.mk "B" "A" (float_cents 10000) false None;
   Balance.mk "C" "A" (float_cents 10000) false None].

Definition noon : nat -> string := fun _ => "2024-05-01T12:00:00.000Z".

(** * Properties *)

(** ** The ledger *)

Section LedgerFacts.

Context {N : Type}.
Variable clock : nat -> string.

Implicit Types (balances : list (Balance.t N)) (balance : Balance.t N).
Implicit Types (from to : string) (now : nat) (h : Heap N).

Lemma settledCopy_not_matching from to balance stamp :
  matchesUnsettled from to (settledCopy balance stamp) = false.
Proof.
  unfold matchesUnsettled, settledCopy; simpl.
  by rewrite andb_false_r.
Qed.

Lemma markBalanceAsSettled_length now balances from to :
  length (markBalanceAsSettled clock now balances from to).1 = length balances.
Proof.
  revert now; induction balances as [|balance rest IH]; intros now; simpl; [done|].
  destruct (matchesUnsettled from to balance).
  - specialize (IH (S now)).
    destruct (markBalanceAsSettled clock (S now) rest from to); simpl in *; lia.
  - specialize (IH now).
    destruct (markBalanceAsSettled clock now rest from to); simpl in *; lia.
Qed.

(** What the call does to the entry at each position. *)
Lemma markBalanceAsSettled_lookup now balances from to i balance :
  balances !! i = Some balance ->
  (matchesUnsettled from to balance = true /\
   exists k, now <= k /\
     (markBalanceAsSettled clock now balances from to).1 !! i
     = Some (settledCopy balance (clock k)))
  \/ (matchesUnsettled from to balance = false /\
      (markBalanceAsSettled clock now balances from to).1 !! i = Some balance).
Proof.
  revert now i; induction balances as [|b rest IH]; intros now i Hi; [done|].
  simpl. destruct (matchesUnsettled from to b) eqn:Hb.
  - specialize (IH (S now)).
    destruct (markBalanceAsSettled clock (S now) rest from to) as [rest' now'].
    destruct i as [|i]; simpl in *.
    + injection Hi as <-. left. split; [done|]. exists now. split; [lia|done].
    + destruct (IH i Hi) as [(Hm & k & Hk & Hl)|(Hm & Hl)].
      * left. split; [done|]. exists k. split; [lia|done].
      * right. done.
  - specialize (IH now).
    destruct (markBalanceAsSettled clock now rest from to) as [rest' now'].
    destruct i as [|i]; simpl in *.
    + injection Hi as <-. right. done.
    + apply IH, Hi.
Qed.

(** A list with nothing left to settle comes back as it is, and the clock
    is not read. *)
Lemma markBalanceAsSettled_nothing now balances from to :
  Forall (fun balance => matchesUnsettled from to balance = false) balances ->
  markBalanceAsSettled clock now balances from to = (balances, now).
Proof.
  induction 1 as [|balance rest Hb _ IH]; simpl; [done|].
  by rewrite Hb, IH.
Qed.

Lemma markBalanceAsSettled_settles now balances from to :
  Forall (fun balance => matchesUnsettled from to balance = false)
    (markBalanceAsSettled clock now balances from to).1.
Proof.
  revert now; induction balances as [|balance rest IH]; intros now; simpl.
  - constructor.
  - destruct (matchesUnsettled from to balance) eqn:Hb.
    + specialize (IH (S now)).
      destruct (markBalanceAsSettled clock (S now) rest from to); simpl in *.
      constructor; [apply settledCopy_not_matching | done].
    + specialize (IH now).
      destruct (markBalanceAsSettled clock now rest from to); simpl in *.
      by constructor.
Qed.

(** The store only grows: no object that exists before the call is written. *)
Lemma markBalanceAsSettledIn_frame h now addresses from to h' now' addresses' :
  markBalanceAsSettledIn clock h now addresses from to
  = Some (h', now', addresses') ->
  exists fresh, h' = h ++ fresh.
Proof.
  revert h now h' now' addresses'.
  induction addresses as [|address rest IH]; intros h now h' now' addresses'; simpl.
  - intros [= <- <- <-]. exists []. by rewrite app_nil_r.
  - destruct (h !! address) as [balance|]; [|done].
    destruct (matchesUnsettled from to balance).
    + destruct (markBalanceAsSettledIn clock _ (S now) rest from to)
        as [[[h2 n2] r2]|] eqn:Hrec; [|done].
      intros [= <- <- <-].
      destruct (IH _ _ _ _ _ Hrec) as [fresh ->].
      eexists. by rewrite <- app_assoc.
    + destruct (markBalanceAsSettledIn clock h now rest from to)
        as [[[h2 n2] r2]|] eqn:Hrec; [|done].
      intros [= <- <- <-]. eauto.
Qed.

Lemma readAll_grow h fresh addresses values :
  readAll h addresses = Some values ->
  readAll (h ++ fresh) addresses = Some values.
Proof.
  unfold readAll. rewrite !mapM_Some. intros HF.
  eapply Forall2_impl; [apply HF|].
  intros address balance Hl. simpl in *. by apply lookup_app_l_Some.
Qed.

(** The store-level function computes the value-level one, on the same
    clock, and leaves in place the elements it does not settle. *)
Lemma markBalanceAsSettledIn_refines h now addresses from to values :
  readAll h addresses = Some values ->
  exists h' addresses',
    markBalanceAsSettledIn clock h now addresses from to
    = Some (h', (markBalanceAsSettled clock now values from to).2, addresses')
    /\ readAll h' addresses'
       = Some (markBalanceAsSettled clock now values from to).1
    /\ (forall i address balance,
          addresses !! i = Some address -> h !! address = Some balance ->
          if matchesUnsettled from to balance
          then exists fresh, addresses' !! i = Some fresh /\ length h <= fresh
          else addresses' !! i = Some address).
Proof.
  revert h now values.
  induction addresses as [|address rest IH]; intros h now values Hread.
  - unfold readAll in Hread. apply mapM_Some in Hread.
    apply Forall2_nil_inv_l in Hread as ->.
    exists h, []. simpl. split; [done|]. split; [done|]. intros i ? ? Hi. done.
  - unfold readAll in Hread. apply mapM_Some in Hread.
    apply Forall2_cons_inv_l in Hread as (balance & values' & Hb & Hrest & ->).
    simpl in Hb. apply mapM_Some in Hrest. fold (readAll h rest) in Hrest.
    simpl. rewrite Hb.
    destruct (matchesUnsettled from to balance) eqn:Hm.
    + pose proof (readAll_grow h [settledCopy balance (clock now)] _ _ Hrest) as Hrest'.
      destruct (IH _ (S now) _ Hrest') as (h' & rest' & Hrun & Hout & Hpos).
      rewrite Hrun.
      destruct (markBalanceAsSettled clock (S now) values' from to) as [vs n] eqn:Hval.
      simpl in *.
      exists h', (length h :: rest'). split; [done|]. split.
      * destruct (markBalanceAsSettledIn_frame _ _ _ _ _ _ _ _ Hrun) as [fresh ->].
        unfold readAll in *. apply mapM_Some. constructor.
        -- cbv beta. rewrite <- app_assoc. rewrite lookup_app_r by lia.
           by rewrite Nat.sub_diag.
        -- by apply mapM_Some.
      * intros [|i] a b Ha Hab; simpl in *.
        -- injection Ha as <-. rewrite Hb in Hab. injection Hab as <-.
           rewrite Hm. eauto.
        -- specialize (Hpos i a b Ha (lookup_app_l_Some _ _ _ _ Hab)).
           destruct (matchesUnsettled from to b); [|done].
           destruct Hpos as (fresh & Hf & Hge). exists fresh. split; [done|].
           rewrite length_app in Hge. lia.
    + destruct (IH _ now _ Hrest) as (h' & rest' & Hrun & Hout & Hpos).
      rewrite Hrun.
      destruct (markBalanceAsSettled clock now values' from to) as [vs n] eqn:Hval.
      simpl in *.
      exists h', (address :: rest'). split; [done|]. split.
      * destruct (markBalanceAsSettledIn_frame _ _ _ _ _ _ _ _ Hrun) as [fresh ->].
        unfold readAll in *. apply mapM_Some. constructor.
        -- cbv beta. by apply lookup_app_l_Some.
        -- by apply mapM_Some.
      * intros [|i] a b Ha Hab; simpl in *.
        -- injection Ha as <-. rewrite Hb in Hab. injection Hab as <-.
           by rewrite Hm.
        -- apply (Hpos i a b Ha Hab).
Qed.

End LedgerFacts.

Section LedgerClaims.

Context {N : Type}.
Variable clock : nat -> string.

(** C6.  [markBalanceAsSettled] returns a new array of the same length and
    order.  At each position, an entry that matches [from] and [to] and is
    not yet settled is replaced by a copy with [isSettled = true] and
    [settledAt] a reading of the clock; any other entry is returned as it is
    (the very same object).  [from], [to] and [amount] are the same at every
    position.  No object of the store is written, so the input array still
    holds the values it held. *)
Theorem markBalanceAsSettled_frame (h : Heap N) now addresses from to values :
  readAll h addresses = Some values ->
  exists h' now' addresses' values',
    markBalanceAsSettledIn clock h now addresses from to
    = Some (h', now', addresses')
    /\ readAll h' addresses' = Some values'
    /\ markBalanceAsSettled clock now values from to = (values', now')
    /\ length values' = length values
    /\ (forall i balance, values !! i = Some balance ->
        exists balance',
          values' !! i = Some balance'
          /\ Balance.from balance' = Balance.from balance
          /\ Balance.to balance' = Balance.to balance
          /\ Balance.amount balance' = Balance.amount balance
          /\ if String.eqb (Balance.from balance) from
                && String.eqb (Balance.to balance) to
                && negb (Balance.isSettled balance)
             then Balance.isSettled balance' = true
                  /\ (exists k, Balance.settledAt balance' = Some (clock k))
                  /\ (exists fresh, addresses' !! i = Some fresh
                                    /\ h !! fresh = None)
             else balance' = balance /\ addresses' !! i = addresses !! i)
    /\ (forall address balance,
          h !! address = Some balance -> h' !! address = Some balance)
    /\ readAll h' addresses = Some values.
Proof.
  intros Hread.
  destruct (markBalanceAsSettledIn_refines clock h now addresses from to values Hread)
    as (h' & addresses' & Hrun & Hout & Hpos).
  destruct (markBalanceAsSettledIn_frame clock _ _ _ _ _ _ _ _ Hrun) as [fresh Hh'].
  pose proof (markBalanceAsSettled_length clock now values from to) as Hlen.
  pose proof (markBalanceAsSettled_lookup clock now values from to) as Hlook.
  destruct (markBalanceAsSettled clock now values from to) as [values' now'] eqn:Hval.
  simpl in *.
  exists h', now', addresses', values'.
  split; [done|]. split; [done|]. split; [done|]. split; [done|].
  split; [|split].
  - intros i balance Hi.
    assert (exists address, addresses !! i = Some address /\ h !! address = Some balance)
      as (address & Ha & Hab).
    { unfold readAll in Hread. apply mapM_Some in Hread.
      destruct (Forall2_lookup_r _ _ _ _ _ Hread Hi) as (a & Ha & Hab). eauto. }
    specialize (Hpos i address balance Ha Hab).
    fold (matchesUnsettled from to balance).
    destruct (Hlook i balance Hi) as [(Hm & k & _ & Hl)|(Hm & Hl)]; rewrite Hm in *.
    + exists (settledCopy balance (clock k)).
      split_and!; [done..|by exists k|].
      destruct Hpos as (fr & Hfr & Hge). exists fr. split; [done|].
      by apply lookup_ge_None.
    + exists balance. split_and!; [done..|]. by rewrite Ha.
  - intros address balance Hab. subst h'. by apply lookup_app_l_Some.
  - subst h'. by apply readAll_grow.
Qed.

(** C7.  A second call with the same [from] and [to] changes nothing: it
    returns the list the first call returned, every [settledAt] included,
    and does not read the clock. *)
Theorem markBalanceAsSettled_idempotent now later (balances : list (Balance.t N))
    from to :
  markBalanceAsSettled clock later
    (markBalanceAsSettled clock now balances from to).1 from to
  = ((markBalanceAsSettled clock now balances from to).1, later).
Proof.
  apply markBalanceAsSettled_nothing, markBalanceAsSettled_settles.
Qed.

(** C8.  No entry is both in [getSettledBalances] and in
    [getUnsettledBalances]; an entry is in the list exactly when it is in
    one of the two; and the two together are a rearrangement of the list. *)
Theorem settled_unsettled_partition (balances : list (Balance.t N)) :
  (forall balance,
      In balance (getSettledBalances balances) ->
      ~ In balance (getUnsettledBalances balances))
  /\ (forall balance,
      In balance balances <->
      In balance (getSettledBalances balances)
      \/ In balance (getUnsettledBalances balances))
  /\ Permutation balances
       (getSettledBalances balances ++ getUnsettledBalances balances).
Proof.
  unfold getSettledBalances, getUnsettledBalances.
  split; [|split].
  - intros balance [_ Hs]%filter_In [_ Hu]%filter_In.
    rewrite Hs in Hu. done.
  - intros balance. rewrite !filter_In.
    destruct (Balance.isSettled balance); simpl; intuition congruence.
  - induction balances as [|balance rest IH]; simpl; [done|].
    destruct (Balance.isSettled balance); simpl.
    + by constructor.
    + by apply Permutation_cons_app.
Qed.

End LedgerClaims.

(** ** calculateParticipantSummary against the sums of the specification *)

Section SummarySpec.

Context {N : Type} `{JSNumber N}.

Implicit Types (expenses : list (Expense.t N)) (payers : list (Payer.t N)).
Implicit Types (totalPaid totalOwed : N).

Lemma countPayer_fold name payers totalPaid expenseCount :
  fold_left (countPayer name) payers (totalPaid, expenseCount)
  = (fold_left nadd
       (map Payer.amount
          (List.filter (fun payer => String.eqb (Payer.name payer) name) payers))
       totalPaid,
     expenseCount
     + length (List.filter (fun payer => String.eqb (Payer.name payer) name) payers)).
Proof.
  revert totalPaid expenseCount.
  induction payers as [|payer rest IH]; intros totalPaid expenseCount; simpl.
  - f_equal. lia.
  - unfold countPayer at 2. simpl.
    destruct (String.eqb (Payer.name payer) name); simpl; rewrite IH; f_equal; lia.
Qed.

Lemma summaryStep_fold name expenses totalPaid totalOwed expenseCount :
  fold_left (summaryStep name) expenses (totalPaid, totalOwed, expenseCount)
  = (fold_left nadd (map Payer.amount (paymentsBy name expenses)) totalPaid,
     fold_left nadd (sharesOf name expenses) totalOwed,
     expenseCount + length (paymentsBy name expenses)).
Proof.
  revert totalPaid totalOwed expenseCount.
  induction expenses as [|expense rest IH]; intros totalPaid totalOwed expenseCount.
  - simpl. f_equal. lia.
  - simpl. rewrite countPayer_fold. rewrite IH.
    unfold paymentsBy, sharesOf. simpl.
    rewrite List.filter_app, map_app, fold_left_app, length_app.
    f_equal; [f_equal|lia].
    destruct (includes name (Expense.splitBetween expense)); reflexivity.
Qed.

Lemma paymentsBy_absent name expenses :
  ~ appearsIn name expenses -> paymentsBy name expenses = [].
Proof.
  intros Hno. unfold paymentsBy.
  induction expenses as [|expense rest IH]; simpl; [done|].
  rewrite List.filter_app, IH.
  - rewrite app_nil_r.
    assert (Hpay : ~ In name (map Payer.name (getPayers expense))).
    { intros Hin. apply Hno. exists expense. split; [by left|by left]. }
    induction (getPayers expense) as [|payer payers IHp]; simpl; [done|].
    destruct (String.eqb_spec (Payer.name payer) name) as [Heq|Hne].
    + exfalso. apply Hpay. by left.
    + apply IHp. intros Hin. apply Hpay. by right.
  - intros (e & He & Hor). apply Hno. exists e. split; [by right|done].
Qed.

Lemma includes_In name arr : includes name arr = true <-> In name arr.
Proof.
  unfold includes. rewrite existsb_exists. split.
  - intros (x & Hx & ->%String.eqb_eq). done.
  - intros Hin. exists name. split; [done|apply String.eqb_refl].
Qed.

Lemma sharesOf_absent name expenses :
  ~ appearsIn name expenses -> sharesOf name expenses = [].
Proof.
  intros Hno. unfold sharesOf.
  induction expenses as [|expense rest IH]; simpl; [done|].
  destruct (includes name (Expense.splitBetween expense)) eqn:Hinc.
  - exfalso. apply Hno. exists expense. split; [by left|].
    right. by apply includes_In.
  - apply IH. intros (e & He & Hor). apply Hno. exists e. split; [by right|done].
Qed.

(** The single pass of the source computes the sums of the specification,
    in any arithmetic. *)
Lemma calculateParticipantSummary_sums expenses name :
  let summary := calculateParticipantSummary expenses name in
  Summary.totalPaid summary = nsum (map Payer.amount (paymentsBy name expenses))
  /\ Summary.expenseCount summary = length (paymentsBy name expenses)
  /\ Summary.totalOwed summary = nsum (sharesOf name expenses)
  /\ Summary.netAmount summary
     = nsub (Summary.totalPaid summary) (Summary.totalOwed summary)
  /\ Summary.isCreditor summary = nlt nzero (Summary.netAmount summary)
  /\ Summary.isDebtor summary = nlt (Summary.netAmount summary) nzero
  /\ Summary.isSettled summary = neq (Summary.netAmount summary) nzero.
Proof.
  unfold calculateParticipantSummary. rewrite summaryStep_fold. simpl.
  split_and!; reflexivity.
Qed.

End SummarySpec.

(** C9.  In any arithmetic, and so on the doubles of the program:
    [totalPaid] is the sum of the amounts of the payer entries of [name]
    and [expenseCount] their number; [totalOwed] is the sum of
    [amount / splitBetween.length] over the expenses whose [splitBetween]
    has [name]; [netAmount] is their difference, and the three flags are
    [netAmount > 0], [netAmount < 0] and [netAmount === 0].  For a name that
    appears in no expense the summary is all zeros, and settled, on doubles
    and in exact arithmetic. *)
Theorem calculateParticipantSummary_spec :
  (forall (N : Type) (number : JSNumber N) (expenses : list (Expense.t N))
          (name : string),
      let summary := calculateParticipantSummary expenses name in
      Summary.totalPaid summary
      = nsum (map Payer.amount (paymentsBy name expenses))
      /\ Summary.expenseCount summary = length (paymentsBy name expenses)
      /\ Summary.totalOwed summary = nsum (sharesOf name expenses)
      /\ Summary.netAmount summary
         = nsub (Summary.totalPaid summary) (Summary.totalOwed summary)
      /\ Summary.isCreditor summary = nlt nzero (Summary.netAmount summary)
      /\ Summary.isDebtor summary = nlt (Summary.netAmount summary) nzero
      /\ Summary.isSettled summary = neq (Summary.netAmount summary) nzero)
  /\ (forall (expenses : list (Expense.t PrimFloat.float)) (name : string),
      ~ appearsIn name expenses ->
      calculateParticipantSummary expenses name
      = Summary.mk PrimFloat.zero PrimFloat.zero PrimFloat.zero 0
          false false true)
  /\ (forall (expenses : list (Expense.t Qc)) (name : string),
      ~ appearsIn name expenses ->
      calculateParticipantSummary expenses name
      = Summary.mk 0%Qc 0%Qc 0%Qc 0 false false true).
Proof.
  split; [intros N number expenses name; apply calculateParticipantSummary_sums|].
  split; intros expenses name Hno;
    destruct (calculateParticipantSummary_sums expenses name)
      as (Hpaid & Hcount & Howed & Hnet & Hcred & Hdeb & Hset);
    rewrite (paymentsBy_absent _ _ Hno) in Hpaid, Hcount;
    rewrite (sharesOf_absent _ _ Hno) in Howed;
    destruct (calculateParticipantSummary expenses name)
      as [tp to na ec ic id ist]; simpl in *; subst.
  - reflexivity.
  - reflexivity.
Qed.

(** ** The totals of the ledger *)

Section ExactTotals.

Implicit Types (balances : list (Balance.t Qc)).



End ExactTotals.



(** ** calculateBalances on the empty list *)

(** C5.  On the empty list [calculateBalances] returns the empty list, at
    once: no iteration of the loop is needed, in any arithmetic. *)
Theorem calculateBalances_empty {N : Type} `{JSNumber N} (fuel : nat) :
  calculateBalances fuel ([] : list (Expense.t N)) = Some [].
Proof. reflexivity. Qed.

(** ** The matching loop on what is left of the two arrays *)

Section SettleLoop.

Context {N : Type} `{JSNumber N}.

Lemma drop_lookup_None {A} (l : list A) i : l !! i = None -> drop i l = [].
Proof. intros Hi. apply drop_ge. by apply lookup_ge_None. Qed.

Lemma drop_insert_here {A} (l : list A) i x y :
  l !! i = Some x -> drop i (<[i := y]> l) = y :: drop (S i) l.
Proof.
  intros Hi. pose proof (lookup_lt_Some _ _ _ Hi) as Hlt.
  rewrite (drop_S (<[i := y]> l) y i) by (by apply list_lookup_insert_eq).
  by rewrite drop_insert_lt by lia.
Qed.

(** The loop of the source is [settleWith round2] on the suffixes at its
    indices. *)
Lemma matchLoop_settle fuel (D C : list (Payer.t N)) i j out :
  matchLoop fuel (mkMatching D C i j out)
  = app out <$> settleWith round2 fuel (drop i D) (drop j C).
Proof.
  revert D C i j out. induction fuel as [|fuel IH]; intros D C i j out; [done|].
  simpl.
  destruct (D !! i) as [debtor|] eqn:HD.
  2:{ rewrite (drop_lookup_None _ _ HD). simpl. by rewrite app_nil_r. }
  rewrite (drop_S _ _ _ HD).
  destruct (C !! j) as [creditor|] eqn:HC.
  2:{ rewrite (drop_lookup_None _ _ HC). simpl. by rewrite app_nil_r. }
  rewrite (drop_S _ _ _ HC).
  destruct (String.eqb (Payer.name debtor) (Payer.name creditor)).
  - rewrite IH. by rewrite (drop_S _ _ _ HC).
  - rewrite IH. simpl.
    set (amount := nmin (Payer.amount debtor) (Payer.amount creditor)).
    assert (HDs :
      drop (if neq (nsub (Payer.amount debtor) amount) nzero then S i else i)
        (<[i := Payer.mk (Payer.name debtor) (nsub (Payer.amount debtor) amount)]> D)
      = if neq (nsub (Payer.amount debtor) amount) nzero then drop (S i) D
        else Payer.mk (Payer.name debtor) (nsub (Payer.amount debtor) amount)
             :: drop (S i) D).
    { destruct (neq (nsub (Payer.amount debtor) amount) nzero).
      - by rewrite drop_insert_lt by lia.
      - by apply drop_insert_here with debtor. }
    assert (HCs :
      drop (if neq (nsub (Payer.amount creditor) amount) nzero then S j else j)
        (<[j := Payer.mk (Payer.name creditor) (nsub (Payer.amount creditor) amount)]> C)
      = if neq (nsub (Payer.amount creditor) amount) nzero then drop (S j) C
        else Payer.mk (Payer.name creditor) (nsub (Payer.amount creditor) amount)
             :: drop (S j) C).
    { destruct (neq (nsub (Payer.amount creditor) amount) nzero).
      - by rewrite drop_insert_lt by lia.
      - by apply drop_insert_here with creditor. }
    rewrite HDs, HCs.
    destruct (settleWith round2 fuel _ _) as [rest|]; simpl; [|done].
    by rewrite <- app_assoc.
Qed.

Lemma length_sort_insert (a : Payer.t N) l :
  length (sort_insert a l) = S (length l).
Proof.
  induction l as [|b l IH]; simpl; [done|].
  destruct (comesAfter a b); simpl; by rewrite ?IH.
Qed.

Lemma sort_insert_perm (a : Payer.t N) l : Permutation (sort_insert a l) (a :: l).
Proof.
  induction l as [|b l IH]; simpl; [done|].
  destruct (comesAfter a b); [|done].
  rewrite IH. apply perm_swap.
Qed.

Lemma sortDescending_perm (l : list (Payer.t N)) : Permutation (sortDescending l) l.
Proof.
  induction l as [|a l IH]; simpl; [done|].
  rewrite sort_insert_perm. by constructor.
Qed.

Lemma calculateBalances_settle fuel (expenses : list (Expense.t N)) :
  expenses <> [] ->
  calculateBalances fuel expenses
  = settleWith round2 fuel
      (sortDescending (debtorsOf (netAmounts expenses)))
      (sortDescending (creditorsOf (netAmounts expenses))).
Proof.
  intros Hne. unfold calculateBalances.
  destruct expenses as [|e es]; [done|].
  rewrite matchLoop_settle. simpl drop.
  by destruct (settleWith round2 fuel _ _).
Qed.

End SettleLoop.

(** More fuel does not change a result. *)
Lemma settleWith_fuel_mono {N : Type} `{JSNumber N} (emit : N -> N)
    fuel fuel' ds cs out :
  settleWith emit fuel ds cs = Some out -> fuel <= fuel' ->
  settleWith emit fuel' ds cs = Some out.
Proof.
  revert fuel' ds cs out.
  induction fuel as [|fuel IH]; intros fuel' ds cs out Hrun Hle; [done|].
  destruct fuel' as [|fuel']; [lia|].
  simpl in *.
  destruct ds as [|debtor ds']; [done|]. destruct cs as [|creditor cs']; [done|].
  destruct (String.eqb (Payer.name debtor) (Payer.name creditor)).
  - apply IH; [done|lia].
  - destruct (settleWith emit fuel _ _) as [rest|] eqn:Hrest; [|done].
    erewrite IH; [done|exact Hrest|lia].
Qed.

(** ** Exact arithmetic *)

Lemma Qc_eq_Qeq (x y : Qc) : x = y -> (x == y)%Q.
Proof. by intros ->. Qed.

Lemma Qc_neq_Qeq (x y : Qc) : x <> y -> ~ (x == y)%Q.
Proof. intros Hne Heq. by apply Hne, Qc_is_canon. Qed.

(** Linear goals over [Qc], through [Q]. *)
Ltac qc_unfold :=
  unfold Qclt, Qcle, Qcminus, Qcdiv, Qcplus, Qcopp, Qcmult, Qcinv in *;
  cbn [this Q2Qc] in *;
  rewrite ?Qred_correct in *.

Ltac qc_prep :=
  repeat match goal with
  | H : @eq Qc _ _ |- _ => apply Qc_eq_Qeq in H
  | H : ~ @eq Qc _ _ |- _ => apply Qc_neq_Qeq in H
  | |- @eq Qc _ _ => apply Qc_is_canon
  | |- ~ @eq Qc _ _ => let H := fresh in intros H; apply Qc_eq_Qeq in H; revert H
  end; qc_unfold.

Ltac qc_lra := qc_prep; lra.

Lemma exact_lt_true (x y : Qc) : Exact.lt x y = true <-> (x < y)%Qc.
Proof. unfold Exact.lt. apply bool_decide_eq_true. Qed.

Lemma exact_lt_false (x y : Qc) : Exact.lt x y = false <-> (y <= x)%Qc.
Proof.
  unfold Exact.lt. rewrite bool_decide_eq_false. split; intros; qc_lra.
Qed.

Lemma exact_eq_true (x y : Qc) : Qc_eq_bool x y = true <-> x = y.
Proof.
  unfold Qc_eq_bool. destruct (Qcanon.Qc_eq_dec x y); split; congruence.
Qed.

Lemma exact_eq_false (x y : Qc) : Qc_eq_bool x y = false <-> x <> y.
Proof.
  unfold Qc_eq_bool. destruct (Qcanon.Qc_eq_dec x y); split; congruence.
Qed.

Lemma exact_min_cases (x y : Qc) :
  (y < x /\ Exact.min x y = y)%Qc \/ (x <= y /\ Exact.min x y = x)%Qc.
Proof.
  unfold Exact.min. destruct (Exact.lt y x) eqn:Hlt.
  - left. by apply exact_lt_true in Hlt.
  - right. by apply exact_lt_false in Hlt.
Qed.

Section ExactSettle.

Variable emit : Qc -> Qc.

Implicit Types (ds cs : list (Payer.t Qc)) (d c : Payer.t Qc).

(** One iteration, by which side is the smaller: the smaller side is used
    up and leaves; the larger stays with the difference; equal sides both
    leave. *)
Lemma settle_exact_step fuel d ds c cs :
  String.eqb (Payer.name d) (Payer.name c) = false ->
  settleWith emit (S fuel) (d :: ds) (c :: cs)
  = cons (Balance.mk (Payer.name d) (Payer.name c)
            (emit (Exact.min (Payer.amount d) (Payer.amount c))) false None)
    <$> settleWith emit fuel
          (if bool_decide (Payer.amount d <= Payer.amount c)%Qc then ds
           else Payer.mk (Payer.name d) (Payer.amount d - Payer.amount c)%Qc :: ds)
          (if bool_decide (Payer.amount c <= Payer.amount d)%Qc then cs
           else Payer.mk (Payer.name c) (Payer.amount c - Payer.amount d)%Qc :: cs).
Proof.
  intros Hname. simpl. rewrite Hname.
  destruct (exact_min_cases (Payer.amount d) (Payer.amount c)) as [[Hlt ->]|[Hle ->]].
  - rewrite (bool_decide_eq_false_2 (Payer.amount d <= Payer.amount c)%Qc)
      by (intros ?; qc_lra).
    rewrite (bool_decide_eq_true_2 (Payer.amount c <= Payer.amount d)%Qc)
      by qc_lra.
    replace (Qc_eq_bool (Payer.amount d - Payer.amount c)%Qc 0%Qc) with false
      by (symmetry; apply exact_eq_false; qc_lra).
    replace (Qc_eq_bool (Payer.amount c - Payer.amount c)%Qc 0%Qc) with true
      by (symmetry; apply exact_eq_true; ring).
    done.
  - rewrite (bool_decide_eq_true_2 (Payer.amount d <= Payer.amount c)%Qc) by done.
    replace (Qc_eq_bool (Payer.amount d - Payer.amount d)%Qc 0%Qc) with true
      by (symmetry; apply exact_eq_true; ring).
    destruct (bool_decide (Payer.amount c <= Payer.amount d)%Qc) eqn:Hcd.
    + apply bool_decide_eq_true in Hcd.
      replace (Qc_eq_bool (Payer.amount c - Payer.amount d)%Qc 0%Qc) with true
        by (symmetry; apply exact_eq_true; qc_lra).
      done.
    + apply bool_decide_eq_false in Hcd.
      replace (Qc_eq_bool (Payer.amount c - Payer.amount d)%Qc 0%Qc) with false
        by (symmetry; apply exact_eq_false; qc_lra).
      done.
Qed.

(** The loop returns, and emits fewer balances than there are debtors and
    creditors left. *)
Lemma settle_exact_total fuel ds cs :
  length ds + length cs < fuel ->
  exists out,
    settleWith emit fuel ds cs = Some out
    /\ (out = []
        \/ (ds <> [] /\ cs <> [] /\ length out + 1 <= length ds + length cs)).
Proof.
  revert ds cs. induction fuel as [|fuel IH]; intros ds cs Hfuel; [lia|].
  destruct ds as [|d ds]; [exists []; simpl; auto|].
  destruct cs as [|c cs]; [exists []; simpl; auto|].
  destruct (String.eqb (Payer.name d) (Payer.name c)) eqn:Hname.
  - simpl. rewrite Hname.
    destruct (IH ds (c :: cs)) as (out & Hrun & Hout); [simpl in *; lia|].
    exists out. split; [done|].
    destruct Hout as [->|(_ & _ & Hlen)]; [by left|right].
    split_and!; [done..|simpl in *; lia].
  - rewrite settle_exact_step by done.
    set (ds2 := if bool_decide _ then ds else _ :: ds).
    set (cs2 := if bool_decide _ then cs else _ :: cs).
    assert (length ds2 + length cs2 <= length ds + length cs + 1) as Hshrink.
    { subst ds2 cs2.
      destruct (bool_decide (Payer.amount d <= Payer.amount c)%Qc) eqn:H1;
        destruct (bool_decide (Payer.amount c <= Payer.amount d)%Qc) eqn:H2;
        simpl; try lia.
      apply bool_decide_eq_false in H1, H2. exfalso. qc_lra. }
    destruct (IH ds2 cs2) as (out & Hrun & Hout); [simpl in *; lia|].
    rewrite Hrun. simpl. eexists. split; [done|]. right.
    split_and!; [done..|].
    destruct Hout as [->|(_ & _ & Hlen)]; simpl in *; lia.
Qed.

End ExactSettle.

Lemma length_sortDescending {N : Type} `{JSNumber N} (l : list (Payer.t N)) :
  length (sortDescending l) = length l.
Proof. apply Permutation_length, sortDescending_perm. Qed.

(** In exact arithmetic [calculateBalances] returns, within one iteration
    for every debtor and creditor and one more. *)
Lemma calculateBalances_exact_total (expenses : list (Expense.t Qc)) :
  exists debts,
    (forall fuel,
        length (debtorsOf (netAmounts expenses))
        + length (creditorsOf (netAmounts expenses)) < fuel ->
        calculateBalances fuel expenses = Some debts)
    /\ (debts = []
        \/ (debtorsOf (netAmounts expenses) <> []
            /\ creditorsOf (netAmounts expenses) <> []
            /\ length debts + 1
               <= length (debtorsOf (netAmounts expenses))
                  + length (creditorsOf (netAmounts expenses))))
    /\ (expenses <> [] ->
        forall fuel,
          length (debtorsOf (netAmounts expenses))
          + length (creditorsOf (netAmounts expenses)) < fuel ->
          settleWith round2 fuel
            (sortDescending (debtorsOf (netAmounts expenses)))
            (sortDescending (creditorsOf (netAmounts expenses)))
          = Some debts).
Proof.
  destruct expenses as [|e es].
  { exists []. split; [done|]. split; [by left|done]. }
  set (expenses := e :: es).
  destruct (settle_exact_total round2
              (S (length (debtorsOf (netAmounts expenses))
                  + length (creditorsOf (netAmounts expenses))))
              (sortDescending (debtorsOf (netAmounts expenses)))
              (sortDescending (creditorsOf (netAmounts expenses))))
    as (debts & Hrun & Hcount).
  { rewrite !length_sortDescending. lia. }
  assert (forall fuel,
             length (debtorsOf (netAmounts expenses))
             + length (creditorsOf (netAmounts expenses)) < fuel ->
             settleWith round2 fuel
               (sortDescending (debtorsOf (netAmounts expenses)))
               (sortDescending (creditorsOf (netAmounts expenses)))
             = Some debts) as Hall.
  { intros fuel Hfuel. eapply settleWith_fuel_mono; [exact Hrun|lia]. }
  exists debts. split_and!.
  - intros fuel Hfuel. rewrite calculateBalances_settle by done. by apply Hall.
  - destruct Hcount as [->|(Hd & Hc & Hlen)]; [by left|right].
    rewrite !length_sortDescending in Hlen.
    split_and!; [| |done].
    + intros Heq. apply Hd. by rewrite Heq.
    + intros Heq. apply Hc. by rewrite Heq.
  - intros _. exact Hall.
Qed.

(** In exact arithmetic: with at least one debtor and one creditor the
    loop emits at most [debtors + creditors - 1] balances, and with no
    debtor or no creditor it emits none. *)
Lemma calculateBalances_exact_count (expenses : list (Expense.t Qc)) :
  let D := length (debtorsOf (netAmounts expenses)) in
  let C := length (creditorsOf (netAmounts expenses)) in
  exists debts,
    (forall fuel, D + C < fuel -> calculateBalances fuel expenses = Some debts)
    /\ (1 <= D -> 1 <= C ->
        (Z.of_nat (length debts) <= Z.of_nat D + Z.of_nat C - 1)%Z)
    /\ (D = 0 \/ C = 0 -> debts = []).
Proof.
  intros D C.
  destruct (calculateBalances_exact_total expenses) as (debts & Hrun & Hcount & _).
  exists debts. split; [exact Hrun|]. subst D C. split.
  - intros HD HC. destruct Hcount as [->|(_ & _ & Hlen)]; simpl; lia.
  - intros Hnone. destruct Hcount as [->|(Hd & Hc & _)]; [done|].
    destruct Hnone as [H0|H0]; apply length_zero_iff_nil in H0; congruence.
Qed.

(** C4, as stated, on doubles: when every net position is zero there are
    no debtors, no creditors and no balances, and [0 <= 0 + 0 - 1] fails. *)
Lemma debts_count_counterexample :
  let expenses := scenario_even float_cents in
  exists debts,
    calculateBalances 1 expenses = Some debts
    /\ ~ (Z.of_nat (length debts)
          <= Z.of_nat (length (debtorsOf (netAmounts expenses)))
             + Z.of_nat (length (creditorsOf (netAmounts expenses))) - 1)%Z.
Proof.
  exists []. split; [vm_compute; reflexivity|].
  vm_compute. intros Hle. apply Hle. reflexivity.
Qed.

(** ** The map of net amounts *)

Section MapFacts.

Context {V : Type}.

Implicit Types (m : list (string * V)) (k : string) (v : V).


Lemma map_set_keys_In m k v k' :
  In k' (map fst (map_set m k v)) <-> k' = k \/ In k' (map fst m).
Proof.
  induction m as [|[k0 v0] m IH]; simpl; [intuition|].
  destruct (String.eqb_spec k0 k) as [->|Hne]; simpl; [intuition|].
  rewrite IH. intuition.
Qed.

Lemma map_set_keys_NoDup m k v :
  NoDup (map fst m) -> NoDup (map fst (map_set m k v)).
Proof.
  induction m as [|[k0 v0] m IH]; simpl; intros Hnd.
  - apply NoDup_cons_2; [apply not_elem_of_nil|done].
  - apply NoDup_cons in Hnd as [Hk0 Hnd].
    destruct (String.eqb_spec k0 k) as [->|Hne]; simpl.
    + by apply NoDup_cons_2.
    + apply NoDup_cons_2; [|by apply IH].
      rewrite list_elem_of_In, map_set_keys_In.
      rewrite list_elem_of_In in Hk0. intros [->|Hin]; done.
Qed.

Lemma map_get_None m k : ~ In k (map fst m) -> map_get m k = None.
Proof.
  induction m as [|[k0 v0] m IH]; simpl; [done|]. intros Hnot.
  destruct (String.eqb_spec k0 k) as [->|Hne]; [|apply IH]; tauto.
Qed.

End MapFacts.

Section NetAmountsKeys.

Context {N : Type} `{JSNumber N}.

Lemma creditPayer_fold_NoDup payers (m : list (string * N)) :
  NoDup (map fst m) -> NoDup (map fst (fold_left creditPayer payers m)).
Proof.
  revert m. induction payers as [|payer rest IH]; intros m Hnd; simpl; [done|].
  apply IH. by apply map_set_keys_NoDup.
Qed.

Lemma debitMember_fold_NoDup share members (m : list (string * N)) :
  NoDup (map fst m) -> NoDup (map fst (fold_left (debitMember share) members m)).
Proof.
  revert m. induction members as [|member rest IH]; intros m Hnd; simpl; [done|].
  apply IH. by apply map_set_keys_NoDup.
Qed.

(** Every participant has one entry in the map of net amounts. *)
Lemma netAmounts_NoDup (expenses : list (Expense.t N)) :
  NoDup (map fst (netAmounts expenses)).
Proof.
  unfold netAmounts.
  assert (forall es (m : list (string * N)),
             NoDup (map fst m) -> NoDup (map fst (fold_left applyExpense es m)))
    as Hfold.
  { induction es as [|e es IH]; intros m Hnd; simpl; [done|].
    apply IH. unfold applyExpense.
    by apply debitMember_fold_NoDup, creditPayer_fold_NoDup. }
  apply Hfold.
  generalize (allParticipants expenses). intros participants.
  assert (forall (m : list (string * N)),
             NoDup (map fst m) ->
             NoDup (map fst (fold_left (fun m p => map_set m p nzero) participants m)))
    as Hinit.
  { induction participants as [|p ps IH]; intros m Hnd; simpl; [done|].
    apply IH. by apply map_set_keys_NoDup. }
  apply Hinit. constructor.
Qed.

End NetAmountsKeys.

Section ExactNet.

Implicit Types (net m : list (string * Qc)) (k p : string).





(** In exact arithmetic [|| 0] changes nothing: the only falsy number is
    [0]. *)
Lemma get_or_zero_exact m k : get_or_zero m k = default 0%Qc (map_get m k).
Proof.
  unfold get_or_zero. destruct (map_get m k) as [v|]; simpl; [|done].
  destruct (Qc_eq_bool v 0) eqn:Hv; simpl; [|done].
  by apply exact_eq_true in Hv.
Qed.












End ExactNet.

Section ExactNetAmounts.

Implicit Types (net m : list (string * Qc)) (p : string).
Implicit Types (expense : Expense.t Qc) (expenses : list (Expense.t Qc)).








End ExactNetAmounts.

(** ** Debtors and creditors *)

Section ExactParties.

Implicit Types (net : list (string * Qc)) (p : string).
Implicit Types (d c : Payer.t Qc) (ds cs : list (Payer.t Qc)).

Lemma exact_abs_neg (v : Qc) : (v < 0)%Qc -> Exact.abs v = (- v)%Qc.
Proof. intros Hv. unfold Exact.abs. by rewrite (proj2 (exact_lt_true v 0) Hv). Qed.

Lemma debtorsOf_In net d :
  In d (debtorsOf net) ->
  exists v, In (Payer.name d, v) net /\ (v < 0)%Qc /\ Payer.amount d = (- v)%Qc.
Proof.
  induction net as [|[k v] net IH]; simpl; [done|].
  rewrite in_app_iff. intros [Hhere|Hrest].
  - destruct (Exact.lt v 0) eqn:Hlt; [|done].
    apply exact_lt_true in Hlt.
    destruct Hhere as [<-|[]]. simpl. exists v.
    split; [by left|]. split; [done|by apply exact_abs_neg].
  - destruct (IH Hrest) as (v' & Hin & Hneg & Hamt).
    exists v'. split; [by right|done].
Qed.

Lemma creditorsOf_In net c :
  In c (creditorsOf net) ->
  In (Payer.name c, Payer.amount c) net /\ (0 < Payer.amount c)%Qc.
Proof.
  induction net as [|[k v] net IH]; simpl; [done|].
  rewrite in_app_iff. intros [Hhere|Hrest].
  - destruct (Exact.lt v 0); [done|].
    destruct (Exact.lt 0 v) eqn:Hlt; [|done].
    apply exact_lt_true in Hlt.
    destruct Hhere as [<-|[]]. simpl. split; [by left|done].
  - destruct (IH Hrest) as [Hin Hpos]. split; [by right|done].
Qed.

Lemma debtorsOf_positive net : Forall positive (debtorsOf net).
Proof.
  apply List.Forall_forall. intros d (v & _ & Hneg & Hamt)%debtorsOf_In.
  unfold positive. rewrite Hamt. qc_lra.
Qed.

Lemma creditorsOf_positive net : Forall positive (creditorsOf net).
Proof.
  apply List.Forall_forall. by intros c [_ Hpos]%creditorsOf_In.
Qed.

Lemma NoDup_keys_value net p (v w : Qc) :
  NoDup (map fst net) -> In (p, v) net -> In (p, w) net -> v = w.
Proof.
  induction net as [|[k u] net IH]; simpl; [done|].
  intros [Hk Hnd]%NoDup_cons [Hv|Hv] [Hw|Hw].
  - congruence.
  - injection Hv as -> ->. exfalso. apply Hk.
    apply list_elem_of_In. by apply (in_map fst) in Hw.
  - injection Hw as -> ->. exfalso. apply Hk.
    apply list_elem_of_In. by apply (in_map fst) in Hv.
  - by apply IH.
Qed.

(** Nobody is both a debtor and a creditor: the guard of line 61 never
    fires on the arrays the function builds. *)
Lemma parties_disjoint net d c :
  NoDup (map fst net) ->
  In d (debtorsOf net) -> In c (creditorsOf net) ->
  Payer.name d <> Payer.name c.
Proof.
  intros Hnd (v & Hd & Hneg & _)%debtorsOf_In [Hc Hpos]%creditorsOf_In Heq.
  rewrite Heq in Hd.
  pose proof (NoDup_keys_value _ _ _ _ Hnd Hd Hc) as ->. qc_lra.
Qed.








End ExactParties.

(** ** What the loop emits *)

Section Emitted.

Context {N : Type} `{JSNumber N}.

(** The amounts are rounded when they are emitted and not before: the loop
    with [emit] is the loop on the full amounts, with [emit] applied to
    what comes out. *)
Lemma settleWith_emit (emit : N -> N) fuel ds cs :
  settleWith emit fuel ds cs
  = map (withAmount emit) <$> settleWith (fun amount => amount) fuel ds cs.
Proof.
  revert ds cs. induction fuel as [|fuel IH]; intros ds cs; [done|].
  simpl.
  destruct ds as [|d ds]; [done|]. destruct cs as [|c cs]; [done|].
  destruct (String.eqb (Payer.name d) (Payer.name c)); [apply IH|].
  rewrite IH.
  by destruct (settleWith (fun amount => amount) fuel _ _).
Qed.

(** Every balance is created unsettled, in any arithmetic. *)
Lemma settleWith_unsettled (emit : N -> N) fuel ds cs out :
  settleWith emit fuel ds cs = Some out ->
  Forall (fun balance =>
            Balance.isSettled balance = false
            /\ Balance.settledAt balance = None) out.
Proof.
  revert ds cs out. induction fuel as [|fuel IH]; intros ds cs out; [done|].
  simpl.
  destruct ds as [|d ds]; [by intros [= <-]|].
  destruct cs as [|c cs]; [by intros [= <-]|].
  destruct (String.eqb (Payer.name d) (Payer.name c)); [apply IH|].
  destruct (settleWith emit fuel _ _) as [rest|] eqn:Hrest; [|done].
  intros [= <-]. constructor; [done|]. by eapply IH.
Qed.

Lemma calculateBalances_unsettled fuel (expenses : list (Expense.t N)) debts :
  calculateBalances fuel expenses = Some debts ->
  Forall (fun balance =>
            Balance.isSettled balance = false
            /\ Balance.settledAt balance = None) debts.
Proof.
  destruct expenses as [|e es].
  - by intros [= <-].
  - rewrite calculateBalances_settle by done. apply settleWith_unsettled.
Qed.

End Emitted.

Section ExactReconcile.

Implicit Types (d c : Payer.t Qc) (ds cs : list (Payer.t Qc)) (p : string).
Implicit Types (raw out : list (Balance.t Qc)).






(** The loop on the full amounts, from debtors and creditors with positive
    amounts: it emits positive amounts only. *)
Lemma settle_positive fuel ds cs raw :
  Forall positive ds -> Forall positive cs ->
  settleWith (fun amount => amount) fuel ds cs = Some raw ->
  Forall (fun balance => (0 < Balance.amount balance)%Qc) raw.
Proof.
  revert ds cs raw.
  induction fuel as [|fuel IH]; intros ds cs raw Hds Hcs; [done|].
  destruct ds as [|d ds]; [by intros [= <-]|].
  destruct cs as [|c cs]; [by intros [= <-]|].
  destruct (String.eqb (Payer.name d) (Payer.name c)) eqn:Hname.
  - simpl. rewrite Hname. apply IH; [|done]. by inversion Hds.
  - rewrite settle_exact_step by done.
    inversion Hds as [|? ? Hd Hds']; subst. inversion Hcs as [|? ? Hc Hcs']; subst.
    unfold positive in Hd, Hc.
    set (ds2 := if bool_decide _ then ds else _ :: ds).
    set (cs2 := if bool_decide _ then cs else _ :: cs).
    assert (Forall positive ds2) as Hds2.
    { subst ds2. case_bool_decide as Hle; [done|].
      constructor; [|done]. unfold positive. simpl. qc_lra. }
    assert (Forall positive cs2) as Hcs2.
    { subst cs2. case_bool_decide as Hle; [done|].
      constructor; [|done]. unfold positive. simpl. qc_lra. }
    destruct (settleWith _ fuel ds2 cs2) as [rest|] eqn:Hrest; [|done].
    intros [= <-]. constructor; [|exact (IH ds2 cs2 rest Hds2 Hcs2 Hrest)].
    simpl.
    destruct (exact_min_cases (Payer.amount d) (Payer.amount c))
      as [[_ ->]|[_ ->]]; done.
Qed.


End ExactReconcile.

(** ** Rounding to two decimals, exactly *)

Lemma hundredth_scale (n : Z) : ((n # 100) * 100 == inject_Z n)%Q.
Proof. unfold Qeq, Qmult, inject_Z. simpl. lia. Qed.

(** [x.toFixed(2)] is within half a hundredth of [x], and is not negative
    when [x] is not. *)
Lemma round2_exact_bounds (x : Qc) :
  (0 <= x)%Qc ->
  (x - halfCent <= round2 x)%Qc /\ (round2 x <= x + halfCent)%Qc
  /\ (0 <= round2 x)%Qc.
Proof.
  intros Hx. simpl. unfold Exact.toFixed2.
  rewrite (proj2 (exact_lt_false x 0) Hx).
  unfold Exact.hundredths, halfCent.
  pose proof (Qfloor_le (100 * x + (1 # 2))) as Hlow.
  pose proof (Qlt_floor (100 * x + (1 # 2))) as Hhigh.
  set (n := Qfloor (100 * x + (1 # 2))) in *.
  rewrite inject_Z_plus in Hhigh.
  pose proof (hundredth_scale n) as Hscale.
  assert (0 <= inject_Z n)%Q as Hn.
  { change 0%Q with (inject_Z 0). rewrite <- Zle_Qle.
    change 0%Z with (Qfloor 0). apply Qfloor_resp_le. qc_prep. lra. }
  qc_prep. change (inject_Z 1) with 1%Q in Hhigh.
  set (r := (n # 100)%Q) in *. set (z := inject_Z n) in *.
  clearbody r z. split_and!; lra.
Qed.

Section ExactRounding.

Implicit Types (raw : list (Balance.t Qc)) (p : string).






End ExactRounding.

(** ** calculateBalances in exact arithmetic *)

Section ExactBalances.

Implicit Types (expenses : list (Expense.t Qc)) (p : string).


Lemma sorted_parties_ok expenses :
  Forall positive (sortDescending (debtorsOf (netAmounts expenses)))
  /\ Forall positive (sortDescending (creditorsOf (netAmounts expenses)))
  /\ disjointNames (sortDescending (debtorsOf (netAmounts expenses)))
       (sortDescending (creditorsOf (netAmounts expenses))).
Proof.
  split_and!.
  - rewrite sortDescending_perm. apply debtorsOf_positive.
  - rewrite sortDescending_perm. apply creditorsOf_positive.
  - intros d c Hd Hc.
    apply (parties_disjoint (netAmounts expenses)).
    + apply netAmounts_NoDup.
    + eapply Permutation_in; [apply sortDescending_perm|done].
    + eapply Permutation_in; [apply sortDescending_perm|done].
Qed.


End ExactBalances.

(** ** The loop on doubles

    What the arithmetic of doubles guarantees to the loop: [x - x] is zero,
    or NaN when [x] is infinite or NaN; the minimum is one of its arguments,
    or NaN; and NaN is absorbing. *)

Section FloatLoop.

Implicit Types (x y : PrimFloat.float).
Implicit Types (d c : Payer.t PrimFloat.float).
Implicit Types (ds cs : list (Payer.t PrimFloat.float)).

Lemma float_sub_nan_r x : PrimFloat.sub x PrimFloat.nan = PrimFloat.nan.
Proof.
  apply FloatAxioms.Prim2SF_inj. rewrite FloatAxioms.sub_spec.
  change (FloatOps.Prim2SF PrimFloat.nan) with SpecFloat.S754_nan.
  by destruct (FloatOps.Prim2SF x).
Qed.

Lemma float_sub_nan_l x : PrimFloat.sub PrimFloat.nan x = PrimFloat.nan.
Proof.
  apply FloatAxioms.Prim2SF_inj. rewrite FloatAxioms.sub_spec.
  change (FloatOps.Prim2SF PrimFloat.nan) with SpecFloat.S754_nan.
  by destruct (FloatOps.Prim2SF x).
Qed.

Lemma float_sub_self x :
  PrimFloat.eqb (PrimFloat.sub x x) PrimFloat.zero = true
  \/ PrimFloat.sub x x = PrimFloat.nan.
Proof.
  assert (FloatOps.Prim2SF (PrimFloat.sub x x) = SpecFloat.S754_zero false
          \/ FloatOps.Prim2SF (PrimFloat.sub x x) = SpecFloat.S754_nan) as [Hz|Hn].
  { rewrite FloatAxioms.sub_spec.
    destruct (FloatOps.Prim2SF x) as [s|s| |s m e].
    - left. by destruct s.
    - right. by destruct s.
    - by right.
    - left. unfold FloatAxioms.SF64sub, SpecFloat.SFsub.
      by rewrite Z.sub_diag. }
  - left. rewrite FloatAxioms.eqb_spec, Hz. reflexivity.
  - right. apply FloatAxioms.Prim2SF_inj. by rewrite Hn.
Qed.

Lemma float_min_cases x y :
  Float64.min x y = x \/ Float64.min x y = y \/ Float64.min x y = PrimFloat.nan.
Proof.
  unfold Float64.min.
  destruct (Float64.is_nan x || Float64.is_nan y); [auto|].
  destruct (PrimFloat.ltb x y); [auto|].
  destruct (PrimFloat.ltb y x); [auto|].
  destruct (Float64.is_neg_zero x); auto.
Qed.

Lemma float_min_nan_r x : Float64.min x PrimFloat.nan = PrimFloat.nan.
Proof.
  unfold Float64.min.
  change (Float64.is_nan PrimFloat.nan) with true.
  by rewrite orb_true_r.
Qed.

Lemma float_finite_not_nan x :
  Float64.is_finite x = true -> Float64.is_nan x = false.
Proof.
  unfold Float64.is_finite, Float64.is_nan. rewrite FloatAxioms.eqb_spec.
  destruct (FloatOps.Prim2SF x) as [s|s| |s m e]; try done. intros _.
  unfold SpecFloat.SFeqb, SpecFloat.SFcompare.
  rewrite Z.compare_refl, Pos.compare_cont_refl. by destruct s.
Qed.

Lemma float_sub_self_finite x :
  Float64.is_finite x = true ->
  PrimFloat.eqb (PrimFloat.sub x x) PrimFloat.zero = true.
Proof.
  unfold Float64.is_finite. intros Hfin.
  rewrite FloatAxioms.eqb_spec, FloatAxioms.sub_spec.
  destruct (FloatOps.Prim2SF x) as [s|s| |s m e]; try done.
  - by destruct s.
  - unfold FloatAxioms.SF64sub, SpecFloat.SFsub. by rewrite Z.sub_diag.
Qed.

Lemma float_min_finite x y :
  Float64.is_finite x = true -> Float64.is_finite y = true ->
  Float64.min x y = x \/ Float64.min x y = y.
Proof.
  intros Hx%float_finite_not_nan Hy%float_finite_not_nan.
  unfold Float64.min. rewrite Hx, Hy. simpl.
  destruct (PrimFloat.ltb x y); [auto|].
  destruct (PrimFloat.ltb y x); [auto|].
  destruct (Float64.is_neg_zero x); auto.
Qed.

(** X2.  On doubles, an iteration of the loop on a debtor and a creditor
    with different names and finite amounts pushes their balance and moves
    an index: the state it goes on from is the one written out here, and
    the two indices of it add up to more than before.  [Math.min] is one of
    the two amounts, and a finite amount less itself is zero. *)
Lemma finite_step_advances fuel (D C : list (Payer.t PrimFloat.float))
    (i j : nat) (out : list (Balance.t PrimFloat.float)) d c :
  D !! i = Some d -> C !! j = Some c ->
  String.eqb (Payer.name d) (Payer.name c) = false ->
  Float64.is_finite (Payer.amount d) = true ->
  Float64.is_finite (Payer.amount c) = true ->
  let amount := Float64.min (Payer.amount d) (Payer.amount c) in
  let debtor := Payer.mk (Payer.name d) (PrimFloat.sub (Payer.amount d) amount) in
  let creditor :=
    Payer.mk (Payer.name c) (PrimFloat.sub (Payer.amount c) amount) in
  let i' := if PrimFloat.eqb (Payer.amount debtor) PrimFloat.zero then S i else i in
  let j' :=
    if PrimFloat.eqb (Payer.amount creditor) PrimFloat.zero then S j else j in
  matchLoop (S fuel) (mkMatching D C i j out)
  = matchLoop fuel
      (mkMatching (<[i := debtor]> D) (<[j := creditor]> C) i' j'
         (out ++ [Balance.mk (Payer.name d) (Payer.name c)
                    (Float64.toFixed2 amount) false None]))
  /\ i + j < i' + j'.
Proof.
  intros HD HC Hname Hd Hc amount debtor creditor i' j'.
  split.
  - simpl. by rewrite HD, HC, Hname.
  - subst i' j' debtor creditor. cbn [Payer.amount].
    destruct (float_min_finite _ _ Hd Hc) as [Hmin|Hmin]; fold amount in Hmin;
      rewrite Hmin.
    + rewrite (float_sub_self_finite _ Hd).
      destruct (PrimFloat.eqb _ PrimFloat.zero); lia.
    + rewrite (float_sub_self_finite _ Hc).
      destruct (PrimFloat.eqb _ PrimFloat.zero); lia.
Qed.

(** With NaN for the amount of the current debtor, or creditor, no
    iteration moves an index: the loop does not return. *)
Lemma nan_debtor_stuck (emit : PrimFloat.float -> PrimFloat.float) fuel d c ds cs :
  String.eqb (Payer.name d) (Payer.name c) = false ->
  Payer.amount d = PrimFloat.nan ->
  settleWith emit fuel (d :: ds) (c :: cs) = None.
Proof.
  revert d c. induction fuel as [|fuel IH]; intros d c Hname Hd; [done|].
  simpl. rewrite Hname, Hd.
  change (Float64.min PrimFloat.nan (Payer.amount c)) with PrimFloat.nan.
  rewrite !float_sub_nan_r.
  change (PrimFloat.eqb PrimFloat.nan PrimFloat.zero) with false.
  cbv iota. by rewrite IH.
Qed.

Lemma nan_creditor_stuck (emit : PrimFloat.float -> PrimFloat.float) fuel d c ds cs :
  String.eqb (Payer.name d) (Payer.name c) = false ->
  Payer.amount c = PrimFloat.nan ->
  settleWith emit fuel (d :: ds) (c :: cs) = None.
Proof.
  intros Hname Hc. destruct fuel as [|fuel]; [done|].
  simpl. rewrite Hname, Hc, float_min_nan_r, !float_sub_nan_r.
  change (PrimFloat.eqb PrimFloat.nan PrimFloat.zero) with false.
  cbv iota. by rewrite nan_debtor_stuck.
Qed.

(** On doubles, an iteration that emits a balance either moves an index or
    leaves the loop running for ever.  So when the loop returns, it has
    emitted fewer balances than there were debtors and creditors. *)
Lemma settle_float_count (emit : PrimFloat.float -> PrimFloat.float)
    fuel ds cs out :
  settleWith emit fuel ds cs = Some out ->
  out = []
  \/ (ds <> [] /\ cs <> [] /\ length out + 1 <= length ds + length cs).
Proof.
  revert ds cs out. induction fuel as [|fuel IH]; intros ds cs out; [done|].
  destruct ds as [|d ds]; [intros [= <-]; by left|].
  destruct cs as [|c cs]; [intros [= <-]; by left|].
  simpl.
  destruct (String.eqb (Payer.name d) (Payer.name c)) eqn:Hname.
  { intros Hrun. destruct (IH _ _ _ Hrun) as [->|(_ & _ & Hlen)]; [by left|].
    right. split_and!; [done..|simpl in *; lia]. }
  set (amount := Float64.min (Payer.amount d) (Payer.amount c)).
  destruct (PrimFloat.eqb (PrimFloat.sub (Payer.amount d) amount) PrimFloat.zero)
    eqn:Hd;
    destruct (PrimFloat.eqb (PrimFloat.sub (Payer.amount c) amount) PrimFloat.zero)
      eqn:Hc.
  1-3: destruct (settleWith emit fuel _ _) as [rest|] eqn:Hrest; [|done];
       intros [= <-]; right; split_and!; [done..|];
       destruct (IH _ _ _ Hrest) as [->|(_ & _ & Hlen)]; simpl in *; lia.
  intros Hrun. exfalso. clear IH.
  assert (PrimFloat.sub (Payer.amount d) amount = PrimFloat.nan
          \/ PrimFloat.sub (Payer.amount c) amount = PrimFloat.nan) as [Hnan|Hnan].
  { subst amount.
    destruct (float_min_cases (Payer.amount d) (Payer.amount c))
      as [Hmin|[Hmin|Hmin]]; rewrite Hmin in *.
    - left. destruct (float_sub_self (Payer.amount d)); [congruence|done].
    - right. destruct (float_sub_self (Payer.amount c)); [congruence|done].
    - left. apply float_sub_nan_r. }
  - rewrite nan_debtor_stuck in Hrun; done.
  - rewrite nan_creditor_stuck in Hrun; done.
Qed.

End FloatLoop.

(** C4, as the code has it.  On doubles, whenever [calculateBalances]
    returns, and in exact arithmetic, where it always returns: with at
    least one debtor and one creditor it emits at most
    [debtors + creditors - 1] balances, and with no debtor or no creditor
    it emits none. *)
Theorem debts_count :
  (forall fuel (expenses : list (Expense.t PrimFloat.float)) debts,
      calculateBalances fuel expenses = Some debts ->
      let D := length (debtorsOf (netAmounts expenses)) in
      let C := length (creditorsOf (netAmounts expenses)) in
      (1 <= D -> 1 <= C ->
       (Z.of_nat (length debts) <= Z.of_nat D + Z.of_nat C - 1)%Z)
      /\ (D = 0 \/ C = 0 -> debts = []))
  /\ (forall (expenses : list (Expense.t Qc)),
      let D := length (debtorsOf (netAmounts expenses)) in
      let C := length (creditorsOf (netAmounts expenses)) in
      exists debts,
        (forall fuel, D + C < fuel -> calculateBalances fuel expenses = Some debts)
        /\ (1 <= D -> 1 <= C ->
            (Z.of_nat (length debts) <= Z.of_nat D + Z.of_nat C - 1)%Z)
        /\ (D = 0 \/ C = 0 -> debts = [])).
Proof.
  split; [|exact calculateBalances_exact_count].
  intros fuel expenses debts Hrun D C.
  destruct expenses as [|e es].
  { injection Hrun as <-. split; [simpl; lia|done]. }
  rewrite calculateBalances_settle in Hrun by done.
  apply settle_float_count in Hrun. rewrite !length_sortDescending in Hrun.
  fold D C in Hrun. split.
  - intros HD HC. destruct Hrun as [->|(_ & _ & Hlen)]; simpl; lia.
  - intros Hnone. destruct Hrun as [->|(Hd & Hc & _)]; [done|].
    exfalso. destruct Hnone as [H0|H0].
    + apply Hd. apply length_zero_iff_nil.
      by rewrite length_sortDescending.
    + apply Hc. apply length_zero_iff_nil.
      by rewrite length_sortDescending.
Qed.

(** ** Concrete runs *)

(** Validity of a concrete list: the shape by computation, the sums of the
    payers left to the caller. *)
Ltac valid_shape :=
  repeat (apply List.Forall_cons;
          [split; [discriminate
                  |split; [refine (bool_decide_unpack _ _); vm_compute; exact I|]]
          |]);
  try apply List.Forall_nil.

(** C6, on a store of two objects. *)
Lemma markBalanceAsSettled_frame_witness :
  exists h' now' addresses' values',
    markBalanceAsSettledIn noon store_two 0 [0; 1] "B" "A"
    = Some (h', now', addresses')
    /\ readAll h' addresses' = Some values'
    /\ h' !! 0 = Some (Balance.mk "B" "A" (float_cents 10000) false None)
    /\ values' !! 0
       = Some (Balance.mk "B" "A" (float_cents 10000) true (Some (noon 0))).
Proof.
  destruct (markBalanceAsSettled_frame noon store_two 0 [0; 1] "B" "A"
              store_two eq_refl)
    as (h' & now' & addresses' & values' & Hrun & Hread & Hval & _ & _ & Hframe & _).
  exists h', now', addresses', values'.
  split; [exact Hrun|]. split; [exact Hread|]. split.
  - apply Hframe. reflexivity.
  - vm_compute in Hval. injection Hval as <- _. reflexivity.
Defined.

(** [toFixed2] on doubles rounds the exact value of the double, not the
    decimal it was written as: 1.005 and 2.675 are doubles just below the
    tie and go down, 10.015 is just above and goes up; 0.005 goes up to
    0.01, and a third of a hundredth goes down to 0. *)
Lemma toFixed2_examples :
  Float64.toFixed2 (float_decimal 1005 1000) = float_cents 100
  /\ Float64.toFixed2 (float_decimal 2675 1000) = float_cents 267
  /\ Float64.toFixed2 (float_decimal 10015 1000) = float_cents 1002
  /\ Float64.toFixed2 (float_decimal 5 1000) = float_cents 1
  /\ Float64.toFixed2 (float_decimal 1 300) = PrimFloat.zero
  /\ Float64.toFixed2 (float_cents 123456) = float_cents 123456
  /\ Float64.toFixed2 PrimFloat.infinity = PrimFloat.infinity
  /\ Float64.toFixed2 PrimFloat.nan = PrimFloat.nan.
Proof. split_and!; vm_compute; reflexivity. Qed.

(** The first scenario of the specification, on doubles: B and C owe
    A 100 each. *)
Lemma scenario_trip_float :
  calculateBalances 3 (scenario_trip float_cents)
  = Some [Balance.mk "B" "A" (float_cents 10000) false None;
          Balance.mk "C" "A" (float_cents 10000) false None].
Proof. vm_compute. reflexivity. Qed.


(** C2, as stated, fails both on doubles and in exact arithmetic: a third
    of a hundredth is emitted as an amount of zero. *)
Lemma debts_positive_counterexample :
  (calculateBalances 3 (scenario_cent float_cents)
   = Some [Balance.mk "B" "A" PrimFloat.zero false None;
           Balance.mk "C" "A" PrimFloat.zero false None])
  /\ nlt nzero PrimFloat.zero = false
  /\ (exists debts,
         calculateBalances 3 (scenario_cent exact_cents) = Some debts
         /\ map (fun balance =>
                   (Balance.from balance, Balance.to balance,
                    this (Balance.amount balance))) debts
            = [("B", "A", 0%Q); ("C", "A", 0%Q)]
         /\ Forall (fun balance => nlt nzero (Balance.amount balance) = false)
              debts).
Proof.
  split; [vm_compute; reflexivity|]. split; [vm_compute; reflexivity|].
  eexists. split; [vm_compute; reflexivity|].
  split; [vm_compute; reflexivity|].
  repeat constructor.
Qed.

(** ** Overflow *)

Lemma scenario_overflow_parties :
  netAmounts scenario_overflow
  = [("A", PrimFloat.infinity); ("B", PrimFloat.neg_infinity)]
  /\ sortDescending (debtorsOf (netAmounts scenario_overflow))
     = [Payer.mk "B" PrimFloat.infinity]
  /\ sortDescending (creditorsOf (netAmounts scenario_overflow))
     = [Payer.mk "A" PrimFloat.infinity].
Proof. split_and!; vm_compute; reflexivity. Qed.

(** C3 fails on doubles.  The two expenses of 2^1023 are validly shaped
    and their amounts are finite, but the net amounts overflow to plus and
    minus infinity.  The first iteration subtracts infinity from infinity
    on both sides; from then on both amounts are NaN, NaN is not [=== 0],
    and no index moves.  Whatever the number of iterations allowed,
    [calculateBalances] has not returned. *)
Theorem calculateBalances_overflow_diverges :
  Forall validExpense scenario_overflow
  /\ Forall (fun expense => Float64.is_finite (Expense.amount expense) = true)
       scenario_overflow
  /\ forall fuel, calculateBalances fuel scenario_overflow = None.
Proof.
  split; [|split].
  - unfold scenario_overflow. valid_shape; vm_compute; reflexivity.
  - repeat constructor.
  - intros fuel. rewrite calculateBalances_settle by done.
    destruct scenario_overflow_parties as (_ & -> & ->).
    destruct fuel as [|fuel]; [done|].
    change (cons (Balance.mk "B" "A" PrimFloat.infinity false None)
              <$> settleWith round2 fuel
                    [Payer.mk "B" PrimFloat.nan] [Payer.mk "A" PrimFloat.nan]
            = None).
    by rewrite nan_debtor_stuck.
Qed.

(** ** Further properties *)

(** In exact arithmetic [calculateBalances] returns on every list of
    expenses, within one iteration of its loop for every debtor and
    creditor, and one more. *)
Theorem calculateBalances_terminates_exact (expenses : list (Expense.t Qc)) :
  exists debts,
    forall fuel,
      length (debtorsOf (netAmounts expenses))
      + length (creditorsOf (netAmounts expenses)) < fuel ->
      calculateBalances fuel expenses = Some debts.
Proof.
  destruct (calculateBalances_exact_total expenses) as (debts & Hrun & _).
  by exists debts.
Qed.

(** X2, for one iteration on doubles with B owing 100 and A owed 200: B
    leaves, A stays with 100, and the loop ends on the next test. *)
Lemma finite_step_advances_witness :
  matchLoop 2
    (mkMatching [Payer.mk "B" (float_cents 10000)]
       [Payer.mk "A" (float_cents 20000)] 0 0 [])
  = matchLoop 1
      (mkMatching [Payer.mk "B" PrimFloat.zero]
         [Payer.mk "A" (float_cents 10000)] 1 0
         [Balance.mk "B" "A" (float_cents 10000) false None])
  /\ 0 + 0 < 1 + 0.
Proof.
  apply (finite_step_advances 1
           [Payer.mk "B" (float_cents 10000)] [Payer.mk "A" (float_cents 20000)]
           0 0 [] (Payer.mk "B" (float_cents 10000))
           (Payer.mk "A" (float_cents 20000)));
    reflexivity.
Defined.

(** The second scenario of the specification, on doubles: every net
    amount is zero and no balance is emitted. *)
Lemma scenario_even_float :
  netAmounts (scenario_even float_cents)
  = [("A", PrimFloat.zero); ("B", PrimFloat.zero)]
  /\ calculateBalances 1 (scenario_even float_cents) = Some [].
Proof. split; vm_compute; reflexivity. Qed.

(** ** The participants *)

Section Participants.

Context {N : Type} `{JSNumber N}.

Implicit Types (expenses : list (Expense.t N)) (expense : Expense.t N).
Implicit Types (s all : list string) (m : list (string * N)).

Lemma set_add_In s x y : In y (set_add s x) <-> y = x \/ In y s.
Proof.
  induction s as [|z s IH]; simpl; [intuition|].
  destruct (String.eqb_spec z x) as [->|Hne]; simpl; [intuition|].
  rewrite IH. intuition.
Qed.

Lemma set_add_NoDup s x : NoDup s -> NoDup (set_add s x).
Proof.
  induction s as [|z s IH]; simpl; intros Hnd.
  - apply NoDup_cons_2; [apply not_elem_of_nil|done].
  - destruct (String.eqb_spec z x) as [->|Hne]; [done|].
    apply NoDup_cons in Hnd as [Hz Hnd].
    apply NoDup_cons_2; [|by apply IH].
    rewrite list_elem_of_In, set_add_In. rewrite list_elem_of_In in Hz.
    intros [->|Hin]; done.
Qed.

Lemma set_add_already s x : In x s -> set_add s x = s.
Proof.
  induction s as [|z s IH]; simpl; [done|].
  destruct (String.eqb_spec z x) as [->|Hne]; [done|].
  intros [->|Hin]; [done|]. by rewrite IH.
Qed.

Lemma set_add_fold_In names s y :
  In y (fold_left set_add names s) <-> In y s \/ In y names.
Proof.
  revert s. induction names as [|x names IH]; intros s; simpl; [intuition|].
  rewrite IH, set_add_In. intuition.
Qed.

Lemma set_add_fold_NoDup names s :
  NoDup s -> NoDup (fold_left set_add names s).
Proof.
  revert s. induction names as [|x names IH]; intros s Hnd; simpl; [done|].
  by apply IH, set_add_NoDup.
Qed.

Lemma addPayers_In (payers : list (Payer.t N)) s y :
  In y (fold_left (fun s payer => set_add s (Payer.name payer)) payers s)
  <-> In y s \/ In y (map Payer.name payers).
Proof.
  revert s. induction payers as [|payer payers IH]; intros s; simpl; [intuition|].
  rewrite IH, set_add_In. intuition.
Qed.

Lemma addPayers_NoDup (payers : list (Payer.t N)) s :
  NoDup s ->
  NoDup (fold_left (fun s payer => set_add s (Payer.name payer)) payers s).
Proof.
  revert s. induction payers as [|payer payers IH]; intros s Hnd; simpl; [done|].
  by apply IH, set_add_NoDup.
Qed.

Lemma addParticipants_In all expense y :
  In y (addParticipants all expense)
  <-> In y all
      \/ In y (map Payer.name (getPayers expense))
      \/ In y (Expense.splitBetween expense).
Proof.
  unfold addParticipants. rewrite set_add_fold_In, addPayers_In. intuition.
Qed.

Lemma allParticipants_fold_In expenses all y :
  In y (fold_left addParticipants expenses all)
  <-> In y all \/ appearsIn y expenses.
Proof.
  revert all. induction expenses as [|expense rest IH]; intros all; simpl.
  - split; [by left|]. intros [Hin|(e & [] & _)]. done.
  - rewrite IH, addParticipants_In. unfold appearsIn. split.
    + intros [[Hall|Hhere]|(e & He & Hor)].
      * by left.
      * right. exists expense. split; [by left|done].
      * right. exists e. split; [by right|done].
    + intros [Hall|(e & [<-|He] & Hor)].
      * left. by left.
      * left. by right.
      * right. by exists e.
Qed.

(** The set of participants holds the names that appear as a payer or as a
    split member, each once. *)
Lemma allParticipants_In expenses y :
  In y (allParticipants expenses) <-> appearsIn y expenses.
Proof.
  unfold allParticipants. rewrite allParticipants_fold_In. simpl. tauto.
Qed.

Lemma allParticipants_NoDup expenses : NoDup (allParticipants expenses).
Proof.
  unfold allParticipants.
  assert (forall all, NoDup all -> NoDup (fold_left addParticipants expenses all))
    as Hfold.
  { induction expenses as [|expense rest IH]; intros all Hnd; simpl; [done|].
    apply IH. unfold addParticipants.
    by apply set_add_fold_NoDup, addPayers_NoDup. }
  apply Hfold. constructor.
Qed.

Lemma map_set_keys m k (v : N) : map fst (map_set m k v) = set_add (map fst m) k.
Proof.
  induction m as [|[k0 v0] m IH]; simpl; [done|].
  destruct (String.eqb k0 k); simpl; [done|]. by rewrite IH.
Qed.

Lemma init_keys participants m :
  map fst (fold_left (fun m p => map_set m p nzero) participants m)
  = fold_left set_add participants (map fst m).
Proof.
  revert m. induction participants as [|p ps IH]; intros m; simpl; [done|].
  by rewrite IH, map_set_keys.
Qed.

Lemma set_add_fold_fresh names s :
  NoDup (s ++ names) -> fold_left set_add names s = s ++ names.
Proof.
  revert s. induction names as [|x names IH]; intros s Hnd; simpl.
  - by rewrite app_nil_r.
  - assert (set_add s x = s ++ [x]) as ->.
    { apply NoDup_app in Hnd as (_ & Hdis & _).
      assert (~ In x s) as Hx.
      { intros Hin. apply (Hdis x); [by apply list_elem_of_In|]. by left. }
      clear -Hx. induction s as [|z s IHs]; simpl; [done|].
      destruct (String.eqb_spec z x) as [->|_]; [exfalso; apply Hx; by left|].
      rewrite IHs; [done|]. intros Hin. apply Hx. by right. }
    rewrite IH; rewrite <- app_assoc; done.
Qed.

Lemma creditPayer_fold_keys (payers : list (Payer.t N)) m :
  (forall payer, In payer payers -> In (Payer.name payer) (map fst m)) ->
  map fst (fold_left creditPayer payers m) = map fst m.
Proof.
  revert m. induction payers as [|payer rest IH]; intros m Hin; simpl; [done|].
  assert (map fst (creditPayer m payer) = map fst m) as Hkeys.
  { unfold creditPayer. rewrite map_set_keys.
    apply set_add_already, Hin. by left. }
  rewrite IH; [done|]. intros q Hq. rewrite Hkeys. apply Hin. by right.
Qed.

Lemma debitMember_fold_keys share members m :
  (forall member, In member members -> In member (map fst m)) ->
  map fst (fold_left (debitMember share) members m) = map fst m.
Proof.
  revert m. induction members as [|member rest IH]; intros m Hin; simpl; [done|].
  assert (map fst (debitMember share m member) = map fst m) as Hkeys.
  { unfold debitMember. rewrite map_set_keys.
    apply set_add_already, Hin. by left. }
  rewrite IH; [done|]. intros q Hq. rewrite Hkeys. apply Hin. by right.
Qed.

Lemma applyExpense_fold_keys expenses m :
  (forall y, appearsIn y expenses -> In y (map fst m)) ->
  map fst (fold_left applyExpense expenses m) = map fst m.
Proof.
  revert m. induction expenses as [|expense rest IH]; intros m Hin; simpl; [done|].
  assert (map fst (applyExpense m expense) = map fst m) as Hkeys.
  { unfold applyExpense.
    rewrite debitMember_fold_keys; rewrite creditPayer_fold_keys; try done.
    - intros payer Hp. apply Hin. exists expense. split; [by left|].
      left. by apply in_map.
    - intros member Hm. apply Hin. exists expense. split; [by left|by right].
    - intros payer Hp. apply Hin. exists expense. split; [by left|].
      left. by apply in_map. }
  rewrite IH; [done|].
  intros y (e & He & Hor). rewrite Hkeys. apply Hin.
  exists e. split; [by right|done].
Qed.

(** The map of net amounts has one entry for every participant, in the
    order in which the participants first appear. *)
Lemma netAmounts_keys expenses :
  map fst (netAmounts expenses) = allParticipants expenses.
Proof.
  unfold netAmounts.
  assert (map fst (fold_left (fun m p => map_set m p nzero)
                     (allParticipants expenses) [])
          = allParticipants expenses) as Hinit.
  { rewrite init_keys. simpl.
    apply (set_add_fold_fresh _ []). simpl. apply allParticipants_NoDup. }
  rewrite applyExpense_fold_keys; [done|].
  intros y Hy. rewrite Hinit. by apply allParticipants_In.
Qed.

End Participants.

(** X4.  In any arithmetic, [participantCount] counts every name that
    appears as a payer or as a split member once: it is the length of a
    list without repeats that holds exactly these names.  The same names,
    in the same order, are the keys of the map of net amounts of
    [calculateBalances]. *)
Theorem participantCount_spec {N : Type} `{JSNumber N}
    (expenses : list (Expense.t N)) :
  exists participants,
    TripSummary.participantCount (calculateTripSummary expenses)
    = length participants
    /\ NoDup participants
    /\ (forall name, In name participants <-> appearsIn name expenses)
    /\ map fst (netAmounts expenses) = participants.
Proof.
  exists (allParticipants expenses). split_and!.
  - reflexivity.
  - apply allParticipants_NoDup.
  - apply allParticipants_In.
  - apply netAmounts_keys.
Qed.

(** ** Who owes whom *)

Section Parties.

Context {N : Type} `{JSNumber N}.

Implicit Types (net : list (string * N)) (ds cs : list (Payer.t N)).
Implicit Types (expenses : list (Expense.t N)) (out : list (Balance.t N)).

(** A balance goes from the current debtor to the current creditor, and the
    two are different people. *)
Lemma settleWith_names (emit : N -> N) fuel ds cs out :
  settleWith emit fuel ds cs = Some out ->
  Forall (fun balance =>
            Balance.from balance <> Balance.to balance
            /\ In (Balance.from balance) (map Payer.name ds)
            /\ In (Balance.to balance) (map Payer.name cs)) out.
Proof.
  revert ds cs out. induction fuel as [|fuel IH]; intros ds cs out; [done|].
  simpl.
  destruct ds as [|d ds]; [intros [= <-]; constructor|].
  destruct cs as [|c cs]; [intros [= <-]; constructor|].
  destruct (String.eqb_spec (Payer.name d) (Payer.name c)) as [Heq|Hne].
  - intros Hrun. eapply Forall_impl; [exact (IH _ _ _ Hrun)|].
    intros b (Hb & Hfrom & Hto). split_and!; [done| |done]. by right.
  - destruct (settleWith emit fuel _ _) as [rest|] eqn:Hrest; [|done].
    intros [= <-]. constructor.
    + simpl. split_and!; [done|by left|by left].
    + eapply Forall_impl; [exact (IH _ _ _ Hrest)|].
      intros b (Hb & Hfrom & Hto). split_and!; [done| |].
      * destruct (neq _ nzero) in Hfrom; [by right|exact Hfrom].
      * destruct (neq (nsub (Payer.amount c) _) nzero) in Hto;
          [by right|exact Hto].
Qed.

(** A debtor is a key of the map with a negative entry, a creditor a key
    with a positive one. *)
Lemma debtorsOf_entry net name :
  In name (map Payer.name (debtorsOf net)) ->
  exists amount, In (name, amount) net /\ nlt amount nzero = true.
Proof.
  induction net as [|[k v] net IH]; simpl; [done|].
  rewrite map_app, in_app_iff. intros [Hhere|Hrest].
  - destruct (nlt v nzero) eqn:Hlt; [|done].
    destruct Hhere as [<-|[]]. exists v. split; [by left|done].
  - destruct (IH Hrest) as (amount & Hin & Hlt).
    exists amount. split; [by right|done].
Qed.

Lemma creditorsOf_entry net name :
  In name (map Payer.name (creditorsOf net)) ->
  exists amount, In (name, amount) net /\ nlt nzero amount = true.
Proof.
  induction net as [|[k v] net IH]; simpl; [done|].
  rewrite map_app, in_app_iff. intros [Hhere|Hrest].
  - destruct (nlt v nzero); [done|].
    destruct (nlt nzero v) eqn:Hlt; [|done].
    destruct Hhere as [<-|[]]. exists v. split; [by left|done].
  - destruct (IH Hrest) as (amount & Hin & Hlt).
    exists amount. split; [by right|done].
Qed.

Lemma map_get_In {V} (m : list (string * V)) k v :
  NoDup (map fst m) -> In (k, v) m -> map_get m k = Some v.
Proof.
  induction m as [|[k0 v0] m IH]; simpl; [done|].
  intros [Hk0 Hnd]%NoDup_cons [Hhere|Hrest].
  - injection Hhere as -> ->. by rewrite String.eqb_refl.
  - destruct (String.eqb_spec k0 k) as [->|_]; [|by apply IH].
    exfalso. apply Hk0, list_elem_of_In. by apply (in_map fst) in Hrest.
Qed.

(** The names of the debtors, and of the creditors, are keys of the map,
    in the order of the map. *)
Lemma debtorsOf_names_sublist net :
  sublist (map Payer.name (debtorsOf net)) (map fst net).
Proof.
  induction net as [|[k v] net IH]; simpl; [constructor|].
  rewrite map_app. destruct (nlt v nzero); simpl.
  - by apply sublist_skip.
  - by apply sublist_cons.
Qed.

Lemma creditorsOf_names_sublist net :
  sublist (map Payer.name (creditorsOf net)) (map fst net).
Proof.
  induction net as [|[k v] net IH]; simpl; [constructor|].
  rewrite map_app. destruct (nlt v nzero); simpl; [by apply sublist_cons|].
  destruct (nlt nzero v); simpl.
  - by apply sublist_skip.
  - by apply sublist_cons.
Qed.

Lemma sorted_debtors_NoDup expenses :
  NoDup (map Payer.name (sortDescending (debtorsOf (netAmounts expenses)))).
Proof.
  rewrite sortDescending_perm.
  eapply sublist_NoDup; [apply netAmounts_NoDup|apply debtorsOf_names_sublist].
Qed.

Lemma sorted_creditors_NoDup expenses :
  NoDup (map Payer.name (sortDescending (creditorsOf (netAmounts expenses)))).
Proof.
  rewrite sortDescending_perm.
  eapply sublist_NoDup; [apply netAmounts_NoDup|apply creditorsOf_names_sublist].
Qed.

End Parties.

(** X5.  In any arithmetic, and so on doubles: whenever [calculateBalances]
    returns, every balance goes from one participant to a different one;
    [from] is a participant whose entry in the map of net amounts is
    negative and [to] one whose entry is positive. *)
Theorem calculateBalances_parties {N : Type} `{JSNumber N}
    (fuel : nat) (expenses : list (Expense.t N)) (debts : list (Balance.t N)) :
  calculateBalances fuel expenses = Some debts ->
  Forall (fun balance =>
            Balance.from balance <> Balance.to balance
            /\ appearsIn (Balance.from balance) expenses
            /\ appearsIn (Balance.to balance) expenses
            /\ (exists owed,
                   map_get (netAmounts expenses) (Balance.from balance) = Some owed
                   /\ nlt owed nzero = true)
            /\ (exists due,
                   map_get (netAmounts expenses) (Balance.to balance) = Some due
                   /\ nlt nzero due = true)) debts.
Proof.
  destruct expenses as [|e es]; [intros [= <-]; constructor|].
  set (expenses := e :: es).
  rewrite calculateBalances_settle by done. intros Hrun.
  eapply Forall_impl; [exact (settleWith_names _ _ _ _ _ Hrun)|].
  intros b (Hne & Hfrom & Hto).
  eapply Permutation_in in Hfrom;
    [|apply Permutation_map, sortDescending_perm].
  eapply Permutation_in in Hto;
    [|apply Permutation_map, sortDescending_perm].
  apply debtorsOf_entry in Hfrom as (owed & Hfrom & Howed).
  apply creditorsOf_entry in Hto as (due & Hto & Hdue).
  pose proof (netAmounts_NoDup expenses) as Hnd.
  split_and!.
  - done.
  - apply allParticipants_In. rewrite <- netAmounts_keys.
    by apply (in_map fst) in Hfrom.
  - apply allParticipants_In. rewrite <- netAmounts_keys.
    by apply (in_map fst) in Hto.
  - exists owed. split; [by apply map_get_In|done].
  - exists due. split; [by apply map_get_In|done].
Qed.

(** X5, on doubles, at the first scenario of the specification. *)
Lemma calculateBalances_parties_witness :
  Forall (fun balance =>
            Balance.from balance <> Balance.to balance
            /\ appearsIn (Balance.from balance) (scenario_trip float_cents)
            /\ appearsIn (Balance.to balance) (scenario_trip float_cents)
            /\ (exists owed,
                   map_get (netAmounts (scenario_trip float_cents))
                     (Balance.from balance) = Some owed
                   /\ nlt owed nzero = true)
            /\ (exists due,
                   map_get (netAmounts (scenario_trip float_cents))
                     (Balance.to balance) = Some due
                   /\ nlt nzero due = true))
    [Balance.mk "B" "A" (float_cents 10000) false None;
     Balance.mk "C" "A" (float_cents 10000) false None].
Proof.
  apply (calculateBalances_parties 3 (scenario_trip float_cents)).
  vm_compute. reflexivity.
Defined.

(** ** One balance for each pair *)

Section Pairs.

Context {N : Type} `{JSNumber N}.

Variable emit : N -> N.

Implicit Types (d c : Payer.t N) (ds cs : list (Payer.t N)).
Implicit Types (out : list (Balance.t N)).

(** The arithmetic lets no iteration return without moving an index. *)
Hypothesis progress : forall fuel d c ds cs out,
  String.eqb (Payer.name d) (Payer.name c) = false ->
  settleWith emit (S fuel) (d :: ds) (c :: cs) = Some out ->
  neq (nsub (Payer.amount d) (nmin (Payer.amount d) (Payer.amount c))) nzero
  = true
  \/ neq (nsub (Payer.amount c) (nmin (Payer.amount d) (Payer.amount c))) nzero
     = true.

Lemma settleWith_pairs fuel ds cs out :
  NoDup (map Payer.name ds) -> NoDup (map Payer.name cs) ->
  settleWith emit fuel ds cs = Some out ->
  NoDup (map pairOf out).
Proof using progress.
  revert ds cs out. induction fuel as [|fuel IH]; intros ds cs out; [done|].
  intros Hds Hcs Hrun.
  destruct ds as [|d ds]; [injection Hrun as <-; constructor|].
  destruct cs as [|c cs]; [injection Hrun as <-; constructor|].
  destruct (String.eqb (Payer.name d) (Payer.name c)) eqn:Hname.
  { simpl in Hrun. rewrite Hname in Hrun.
    apply (IH ds (c :: cs)); [|done..]. simpl in Hds.
    by apply NoDup_cons in Hds as [_ Hds]. }
  pose proof (progress _ _ _ _ _ _ Hname Hrun) as Hmoves.
  simpl in Hrun. rewrite Hname in Hrun.
  set (amount := nmin (Payer.amount d) (Payer.amount c)) in *.
  simpl in Hds, Hcs.
  apply NoDup_cons in Hds as [Hd Hds]. apply NoDup_cons in Hcs as [Hc Hcs].
  rewrite list_elem_of_In in Hd, Hc.
  destruct (settleWith emit fuel _ _) as [rest|] eqn:Hrest; [|done].
  injection Hrun as <-.
  pose proof (settleWith_names _ _ _ _ _ Hrest) as Hnames.
  simpl. apply NoDup_cons_2.
  - rewrite list_elem_of_In, in_map_iff. intros (b & Hpair & Hb).
    rewrite List.Forall_forall in Hnames.
    destruct (Hnames b Hb) as (_ & Hfrom & Hto).
    unfold pairOf in Hpair. simpl in Hpair. injection Hpair as Hf Ht.
    rewrite Hf in Hfrom. rewrite Ht in Hto.
    destruct Hmoves as [Hmove|Hmove]; rewrite Hmove in *; done.
  - apply (IH _ _ _) in Hrest; [done| |].
    + destruct (neq (nsub (Payer.amount d) amount) nzero); [done|].
      simpl. apply NoDup_cons_2; [by rewrite list_elem_of_In|done].
    + destruct (neq (nsub (Payer.amount c) amount) nzero); [done|].
      simpl. apply NoDup_cons_2; [by rewrite list_elem_of_In|done].
Qed.

End Pairs.

Lemma exact_progress (emit : Qc -> Qc) fuel (d c : Payer.t Qc) ds cs out :
  String.eqb (Payer.name d) (Payer.name c) = false ->
  settleWith emit (S fuel) (d :: ds) (c :: cs) = Some out ->
  neq (nsub (Payer.amount d) (nmin (Payer.amount d) (Payer.amount c))) nzero
  = true
  \/ neq (nsub (Payer.amount c) (nmin (Payer.amount d) (Payer.amount c))) nzero
     = true.
Proof.
  intros _ _. simpl.
  destruct (exact_min_cases (Payer.amount d) (Payer.amount c))
    as [[_ ->]|[_ ->]]; [right|left]; apply exact_eq_true; ring.
Qed.

Lemma float_progress (emit : PrimFloat.float -> PrimFloat.float)
    fuel (d c : Payer.t PrimFloat.float) ds cs out :
  String.eqb (Payer.name d) (Payer.name c) = false ->
  settleWith emit (S fuel) (d :: ds) (c :: cs) = Some out ->
  neq (nsub (Payer.amount d) (nmin (Payer.amount d) (Payer.amount c))) nzero
  = true
  \/ neq (nsub (Payer.amount c) (nmin (Payer.amount d) (Payer.amount c))) nzero
     = true.
Proof.
  intros Hname Hrun. simpl in *. rewrite Hname in Hrun.
  set (amount := Float64.min (Payer.amount d) (Payer.amount c)) in *.
  destruct (PrimFloat.eqb (PrimFloat.sub (Payer.amount d) amount) PrimFloat.zero)
    eqn:Hd; [by left|].
  destruct (PrimFloat.eqb (PrimFloat.sub (Payer.amount c) amount) PrimFloat.zero)
    eqn:Hc; [by right|].
  exfalso.
  assert (PrimFloat.sub (Payer.amount d) amount = PrimFloat.nan
          \/ PrimFloat.sub (Payer.amount c) amount = PrimFloat.nan) as [Hnan|Hnan].
  { subst amount.
    destruct (float_min_cases (Payer.amount d) (Payer.amount c))
      as [Hmin|[Hmin|Hmin]]; rewrite Hmin in *.
    - left. destruct (float_sub_self (Payer.amount d)); [congruence|done].
    - right. destruct (float_sub_self (Payer.amount c)); [congruence|done].
    - left. apply float_sub_nan_r. }
  - rewrite nan_debtor_stuck in Hrun; done.
  - rewrite nan_creditor_stuck in Hrun; done.
Qed.

(** X6.  [calculateBalances] emits at most one balance for a pair of
    participants: no two balances have the same [from] and the same [to].
    On doubles, whenever the function returns; in exact arithmetic, where
    it always returns. *)
Theorem calculateBalances_pairs :
  (forall fuel (expenses : list (Expense.t PrimFloat.float)) debts,
      calculateBalances fuel expenses = Some debts ->
      NoDup (map pairOf debts))
  /\ (forall (expenses : list (Expense.t Qc)),
      exists debts,
        (forall fuel,
            length (debtorsOf (netAmounts expenses))
            + length (creditorsOf (netAmounts expenses)) < fuel ->
            calculateBalances fuel expenses = Some debts)
        /\ NoDup (map pairOf debts)).
Proof.
  split.
  - intros fuel expenses debts.
    destruct expenses as [|e es]; [intros [= <-]; constructor|].
    rewrite calculateBalances_settle by done.
    apply settleWith_pairs.
    + apply float_progress.
    + apply sorted_debtors_NoDup.
    + apply sorted_creditors_NoDup.
  - intros expenses.
    destruct (calculateBalances_exact_total expenses) as (debts & Hrun & _ & Hsettle).
    exists debts. split; [exact Hrun|].
    destruct expenses as [|e es].
    { specialize (Hrun 1 (Nat.lt_0_succ _)). injection Hrun as <-. constructor. }
    specialize (Hsettle ltac:(done) _ (Nat.lt_succ_diag_r _)).
    revert Hsettle. apply settleWith_pairs.
    + apply exact_progress.
    + apply sorted_debtors_NoDup.
    + apply sorted_creditors_NoDup.
Qed.

(** ** Settling a balance that the calculator produced *)

Section SettleOne.

Context {N : Type}.
Variable clock : nat -> string.

Implicit Types (balances : list (Balance.t N)) (balance : Balance.t N).

Lemma matchesUnsettled_samePair from to balance :
  matchesUnsettled from to balance
  = samePair from to balance && negb (Balance.isSettled balance).
Proof. reflexivity. Qed.

Lemma samePair_pairOf from to balance :
  samePair from to balance = true <-> pairOf balance = (from, to).
Proof.
  unfold samePair, pairOf. rewrite andb_true_iff, !String.eqb_eq.
  split; [by intros [-> ->]|by intros [= -> ->]].
Qed.

(** With one entry for each pair, settling the pair of an unsettled entry
    replaces that entry and no other, and reads the clock once. *)
Lemma markBalanceAsSettled_unique now balances i balance :
  NoDup (map pairOf balances) ->
  balances !! i = Some balance ->
  Balance.isSettled balance = false ->
  markBalanceAsSettled clock now balances
    (Balance.from balance) (Balance.to balance)
  = (<[i := settledCopy balance (clock now)]> balances, S now).
Proof.
  revert i now. induction balances as [|b rest IH]; intros i now; [done|].
  simpl. intros [Hb Hnd]%NoDup_cons Hi Hopen.
  destruct i as [|i]; simpl in Hi.
  - injection Hi as ->.
    unfold matchesUnsettled. rewrite !String.eqb_refl, Hopen. simpl.
    rewrite markBalanceAsSettled_nothing; [done|].
    apply List.Forall_forall. intros b' Hb'.
    rewrite matchesUnsettled_samePair.
    destruct (samePair _ _ b') eqn:Hsame; [|done].
    apply samePair_pairOf in Hsame. exfalso. apply Hb.
    apply list_elem_of_In, in_map_iff. by exists b'.
  - assert (matchesUnsettled (Balance.from balance) (Balance.to balance) b = false)
      as ->.
    { rewrite matchesUnsettled_samePair.
      destruct (samePair _ _ b) eqn:Hsame; [|done].
      apply samePair_pairOf in Hsame. exfalso. apply Hb.
      apply list_elem_of_In, in_map_iff. exists balance.
      split; [done|]. by eapply list_elem_of_lookup_2, list_elem_of_In in Hi. }
    by rewrite (IH i now Hnd Hi Hopen).
Qed.

Lemma getUnsettledBalances_all balances :
  Forall (fun balance => Balance.isSettled balance = false) balances ->
  getUnsettledBalances balances = balances
  /\ getSettledBalances balances = [].
Proof.
  unfold getUnsettledBalances, getSettledBalances.
  induction 1 as [|b rest Hb _ [IHu IHs]]; simpl; [done|].
  by rewrite Hb, IHu, IHs.
Qed.

Lemma settle_one_lists balances i balance stamp :
  Forall (fun balance => Balance.isSettled balance = false) balances ->
  balances !! i = Some balance ->
  getSettledBalances (<[i := settledCopy balance stamp]> balances)
  = [settledCopy balance stamp]
  /\ getUnsettledBalances (<[i := settledCopy balance stamp]> balances)
     = delete i balances.
Proof.
  intros Hall. revert i.
  induction Hall as [|b rest Hb Hrest IH]; intros i Hi; [done|].
  destruct i as [|i]; simpl in *.
  - destruct (getUnsettledBalances_all rest Hrest) as [Hu Hs].
    unfold getSettledBalances, getUnsettledBalances in *. simpl.
    by rewrite Hu, Hs.
  - destruct (IH i Hi) as [IHs IHu].
    unfold getSettledBalances, getUnsettledBalances in *. simpl.
    by rewrite Hb, IHs, IHu.
Qed.

End SettleOne.

(** X7.  Settling a balance that [calculateBalances] returned, on doubles:
    [markBalanceAsSettled] with its [from] and [to] replaces this balance
    by its settled copy, stamped with one reading of the clock, and leaves
    every other balance in place.  After it, the settled balances are this
    one, the unsettled ones are all the others, and the settled total is
    its amount. *)
Theorem settle_calculated_balance (clock : nat -> string) (now fuel : nat)
    (expenses : list (Expense.t PrimFloat.float)) debts i balance :
  calculateBalances fuel expenses = Some debts ->
  debts !! i = Some balance ->
  let settled := settledCopy balance (clock now) in
  let after :=
    (markBalanceAsSettled clock now debts
       (Balance.from balance) (Balance.to balance)).1 in
  markBalanceAsSettled clock now debts
    (Balance.from balance) (Balance.to balance)
  = (<[i := settled]> debts, S now)
  /\ getSettledBalances after = [settled]
  /\ getUnsettledBalances after = delete i debts
  /\ getTotalSettledAmount after = nadd nzero (Balance.amount balance).
Proof.
  intros Hrun Hi settled after.
  pose proof (calculateBalances_unsettled _ _ _ Hrun) as Hopen.
  assert (Forall (fun balance => Balance.isSettled balance = false) debts)
    as Hall.
  { eapply Forall_impl; [exact Hopen|]. by intros b [Hb _]. }
  assert (NoDup (map pairOf debts)) as Hnd.
  { destruct expenses as [|e es]; [injection Hrun as <-; constructor|].
    rewrite calculateBalances_settle in Hrun by done.
    revert Hrun. apply settleWith_pairs.
    - apply float_progress.
    - apply sorted_debtors_NoDup.
    - apply sorted_creditors_NoDup. }
  assert (Balance.isSettled balance = false) as Hb.
  { rewrite List.Forall_forall in Hall. apply Hall.
    by eapply list_elem_of_lookup_2, list_elem_of_In in Hi. }
  pose proof (markBalanceAsSettled_unique clock now debts i balance Hnd Hi Hb)
    as Hmark.
  subst after. rewrite Hmark. simpl fst.
  destruct (settle_one_lists debts i balance (clock now) Hall Hi) as [Hs Hu].
  split_and!; [done..|].
  unfold getTotalSettledAmount. rewrite Hs. reflexivity.
Qed.

(** X7, at the first scenario of the specification: C pays A back. *)
Lemma settle_calculated_balance_witness :
  markBalanceAsSettled noon 0
    [Balance.mk "B" "A" (float_cents 10000) false None;
     Balance.mk "C" "A" (float_cents 10000) false None] "C" "A"
  = ([Balance.mk "B" "A" (float_cents 10000) false None;
      Balance.mk "C" "A" (float_cents 10000) true (Some (noon 0))], 1).
Proof.
  apply (settle_calculated_balance noon 0 3 (scenario_trip float_cents)
           [Balance.mk "B" "A" (float_cents 10000) false None;
            Balance.mk "C" "A" (float_cents 10000) false None]
           1 (Balance.mk "C" "A" (float_cents 10000) false None)).
  - vm_compute. reflexivity.
  - reflexivity.
Defined.

(** ** The trip summary *)





(** ** The ledger after a settlement *)

Section LedgerAfter.

Context {N : Type}.
Variable clock : nat -> string.

Implicit Types (balances : list (Balance.t N)) (balance : Balance.t N).
Implicit Types (from to : string) (now : nat).

Lemma markBalanceAsSettled_cons now balance balances from to :
  markBalanceAsSettled clock now (balance :: balances) from to
  = if matchesUnsettled from to balance
    then (settledCopy balance (clock now)
            :: (markBalanceAsSettled clock (S now) balances from to).1,
          (markBalanceAsSettled clock (S now) balances from to).2)
    else (balance :: (markBalanceAsSettled clock now balances from to).1,
          (markBalanceAsSettled clock now balances from to).2).
Proof.
  simpl. destruct (matchesUnsettled from to balance).
  - by destruct (markBalanceAsSettled clock (S now) balances from to).
  - by destruct (markBalanceAsSettled clock now balances from to).
Qed.

(** The clock is read once for every entry that is settled. *)
Lemma markBalanceAsSettled_readings now balances from to :
  (markBalanceAsSettled clock now balances from to).2
  = now + length (List.filter (matchesUnsettled from to) balances).
Proof.
  revert now. induction balances as [|b rest IH]; intros now.
  - simpl. lia.
  - rewrite markBalanceAsSettled_cons. simpl List.filter.
    destruct (matchesUnsettled from to b); simpl; rewrite IH; lia.
Qed.

(** The entry at a position, and the reading of the clock it is stamped
    with: as many readings were taken before as entries were settled
    before. *)
Lemma markBalanceAsSettled_stamp now balances from to i balance :
  balances !! i = Some balance ->
  (markBalanceAsSettled clock now balances from to).1 !! i
  = Some (if matchesUnsettled from to balance
          then settledCopy balance
                 (clock (now + length (List.filter (matchesUnsettled from to)
                                         (take i balances))))
          else balance).
Proof.
  revert now i. induction balances as [|b rest IH]; intros now i Hi; [done|].
  rewrite markBalanceAsSettled_cons.
  destruct i as [|i]; simpl in Hi.
  - injection Hi as ->. simpl take. simpl List.filter. simpl length.
    rewrite Nat.add_0_r. by destruct (matchesUnsettled from to balance).
  - simpl take. simpl List.filter.
    destruct (matchesUnsettled from to b).
    + change (((markBalanceAsSettled clock (S now) rest from to).1 !! i)
              = Some (if matchesUnsettled from to balance
                      then settledCopy balance
                             (clock (now + S (length (List.filter
                                                        (matchesUnsettled from to)
                                                        (take i rest)))))
                      else balance)).
      rewrite (IH (S now) i Hi).
      destruct (matchesUnsettled from to balance); [|done].
      do 3 f_equal. lia.
    + exact (IH now i Hi).
Qed.

Lemma markBalanceAsSettled_unsettled now balances from to :
  getUnsettledBalances (markBalanceAsSettled clock now balances from to).1
  = List.filter (fun balance => negb (samePair from to balance))
      (getUnsettledBalances balances).
Proof.
  unfold getUnsettledBalances.
  revert now. induction balances as [|b rest IH]; intros now; [done|].
  rewrite markBalanceAsSettled_cons, matchesUnsettled_samePair.
  simpl List.filter.
  destruct (samePair from to b) eqn:Hsame;
    destruct (Balance.isSettled b) eqn:Hb; simpl;
    rewrite ?Hb, ?Hsame; simpl; by rewrite IH.
Qed.

Lemma markBalanceAsSettled_settled_count now balances from to :
  length (getSettledBalances (markBalanceAsSettled clock now balances from to).1)
  = length (getSettledBalances balances)
    + length (List.filter (matchesUnsettled from to) balances).
Proof.
  unfold getSettledBalances.
  revert now. induction balances as [|b rest IH]; intros now; [done|].
  rewrite markBalanceAsSettled_cons. simpl List.filter.
  destruct (matchesUnsettled from to b) eqn:Hm; simpl.
  - rewrite IH.
    rewrite matchesUnsettled_samePair in Hm.
    apply andb_true_iff in Hm as [_ ->%negb_true_iff]. simpl. lia.
  - destruct (Balance.isSettled b); simpl; rewrite IH; lia.
Qed.

Lemma markBalanceAsSettled_amounts now balances from to :
  map Balance.amount (markBalanceAsSettled clock now balances from to).1
  = map Balance.amount balances
  /\ map pairOf (markBalanceAsSettled clock now balances from to).1
     = map pairOf balances.
Proof.
  revert now. induction balances as [|b rest IH]; intros now; [done|].
  rewrite markBalanceAsSettled_cons.
  destruct (matchesUnsettled from to b); simpl.
  - destruct (IH (S now)) as [-> ->]. done.
  - destruct (IH now) as [-> ->]. done.
Qed.

End LedgerAfter.

(** X11.  [markBalanceAsSettled] reads the clock once for every entry it
    settles, in the order of the array: the entry at a position is stamped
    with the reading that comes after as many readings as entries were
    settled before it.  The number of settled entries grows by the number
    of entries that matched, and the unsettled entries are the unsettled
    entries of before without those of the pair. *)
Theorem markBalanceAsSettled_stamps {N : Type} (clock : nat -> string)
    (now : nat) (balances : list (Balance.t N)) (from to : string) :
  let after := (markBalanceAsSettled clock now balances from to).1 in
  let matching := List.filter (matchesUnsettled from to) in
  (markBalanceAsSettled clock now balances from to).2
  = now + length (matching balances)
  /\ (forall i balance,
         balances !! i = Some balance ->
         after !! i
         = Some (if matchesUnsettled from to balance
                 then settledCopy balance
                        (clock (now + length (matching (take i balances))))
                 else balance))
  /\ length (getSettledBalances after)
     = length (getSettledBalances balances) + length (matching balances)
  /\ getUnsettledBalances after
     = List.filter (fun balance => negb (samePair from to balance))
         (getUnsettledBalances balances).
Proof.
  intros after matching. split_and!.
  - apply markBalanceAsSettled_readings.
  - intros i balance. apply markBalanceAsSettled_stamp.
  - apply markBalanceAsSettled_settled_count.
  - apply markBalanceAsSettled_unsettled.
Qed.

(** ** Creditor, debtor or settled *)

(** A double is above zero, below zero or equal to zero, and only one of
    these; NaN is none of them. *)
Lemma float_sign_cases (x : PrimFloat.float) :
  if Float64.is_nan x
  then (PrimFloat.ltb PrimFloat.zero x, PrimFloat.ltb x PrimFloat.zero,
        PrimFloat.eqb x PrimFloat.zero) = (false, false, false)
  else In (PrimFloat.ltb PrimFloat.zero x, PrimFloat.ltb x PrimFloat.zero,
           PrimFloat.eqb x PrimFloat.zero)
         [(true, false, false); (false, true, false); (false, false, true)].
Proof.
  unfold Float64.is_nan.
  rewrite !FloatAxioms.ltb_spec, !FloatAxioms.eqb_spec.
  change (FloatOps.Prim2SF PrimFloat.zero) with (SpecFloat.S754_zero false).
  destruct (FloatOps.Prim2SF x) as [s|s| |s m e].
  - destruct s; simpl; auto.
  - destruct s; simpl; auto.
  - simpl. auto.
  - unfold SpecFloat.SFeqb, SpecFloat.SFltb, SpecFloat.SFcompare.
    rewrite Z.compare_refl, Pos.compare_cont_refl.
    destruct s; simpl; auto.
Qed.

Lemma exact_sign_cases (x : Qc) :
  In (Exact.lt 0 x, Exact.lt x 0, Qc_eq_bool x 0)
    [(true, false, false); (false, true, false); (false, false, true)].
Proof.
  destruct (Qcanon.Qc_eq_dec x 0) as [->|Hne].
  { right. right. left. reflexivity. }
  rewrite (proj2 (exact_eq_false x 0) Hne).
  destruct (Exact.lt 0 x) eqn:Hpos; destruct (Exact.lt x 0) eqn:Hneg;
    simpl; auto; exfalso;
    rewrite ?exact_lt_true, ?exact_lt_false in Hpos, Hneg.
  - qc_lra.
  - apply Hne. qc_lra.
Qed.

(** X13.  The three flags of [calculateParticipantSummary].  In exact
    arithmetic a participant is exactly one of creditor, debtor and
    settled.  On doubles this holds whenever [netAmount] is a number; when
    it is NaN the participant is none of the three.  This happens: when A
    pays and owes two expenses of 2^1023 alone, which are validly shaped
    and of finite amounts, A paid infinity and owes infinity. *)
Theorem participant_roles :
  (forall (expenses : list (Expense.t Qc)) (name : string),
      In (roles (calculateParticipantSummary expenses name))
        [(true, false, false); (false, true, false); (false, false, true)])
  /\ (forall (expenses : list (Expense.t PrimFloat.float)) (name : string),
      let summary := calculateParticipantSummary expenses name in
      if Float64.is_nan (Summary.netAmount summary)
      then roles summary = (false, false, false)
      else In (roles summary)
             [(true, false, false); (false, true, false); (false, false, true)])
  /\ (Forall validExpense scenario_alone
      /\ Forall (fun expense => Float64.is_finite (Expense.amount expense) = true)
           scenario_alone
      /\ roles (calculateParticipantSummary scenario_alone "A")
         = (false, false, false)).
Proof.
  split_and!.
  - intros expenses name.
    destruct (calculateParticipantSummary_sums expenses name)
      as (_ & _ & _ & _ & Hcred & Hdeb & Hset).
    unfold roles. rewrite Hcred, Hdeb, Hset. apply exact_sign_cases.
  - intros expenses name summary.
    destruct (calculateParticipantSummary_sums expenses name)
      as (_ & _ & _ & _ & Hcred & Hdeb & Hset).
    fold summary in Hcred, Hdeb, Hset.
    unfold roles. rewrite Hcred, Hdeb, Hset. apply float_sign_cases.
  - unfold scenario_alone. valid_shape; vm_compute; reflexivity.
  - repeat constructor.
  - vm_compute. reflexivity.
Qed.

(** ** The two forms of [paidBy] *)

Section PaidByForms.

Context {N : Type} `{JSNumber N}.

Implicit Types (expenses : list (Expense.t N)) (expense : Expense.t N).

Lemma fold_left_normalizePaidBy {A} (f : A -> Expense.t N -> A) expenses init :
  (forall a expense, f a (normalizePaidBy expense) = f a expense) ->
  fold_left f (map normalizePaidBy expenses) init = fold_left f expenses init.
Proof.
  intros Hf. revert init.
  induction expenses as [|expense rest IH]; intros init; simpl; [done|].
  by rewrite Hf, IH.
Qed.

Lemma getPayers_normalizePaidBy expense :
  getPayers (normalizePaidBy expense) = getPayers expense.
Proof. unfold getPayers, normalizePaidBy. simpl. by destruct (Expense.paidBy expense). Qed.

Lemma allParticipants_normalizePaidBy expenses :
  allParticipants (map normalizePaidBy expenses) = allParticipants expenses.
Proof.
  unfold allParticipants. apply fold_left_normalizePaidBy.
  intros all expense. unfold addParticipants.
  by rewrite getPayers_normalizePaidBy.
Qed.

Lemma netAmounts_normalizePaidBy expenses :
  netAmounts (map normalizePaidBy expenses) = netAmounts expenses.
Proof.
  unfold netAmounts. rewrite allParticipants_normalizePaidBy.
  apply fold_left_normalizePaidBy.
  intros net expense. unfold applyExpense.
  by rewrite getPayers_normalizePaidBy.
Qed.

End PaidByForms.

(** X14.  The two forms of [paidBy], in any arithmetic.  Writing a
    [paidBy] that is a single name as the array of one payer who paid the
    whole amount of the expense, and one that is neither an array nor a
    string as the empty array, changes no result of [calculateBalances],
    [calculateParticipantSummary] or [calculateTripSummary]: this is how
    [getPayers] reads the two forms. *)
Theorem paidBy_forms_agree {N : Type} `{JSNumber N}
    (expenses : list (Expense.t N)) :
  (forall (expense : Expense.t N) payer,
      Expense.paidBy expense = PaidByString payer ->
      normalizePaidBy expense
      = Expense.mk (Expense.amount expense)
          (PaidByArray [Payer.mk payer (Expense.amount expense)])
          (Expense.splitBetween expense))
  /\ (forall (expense : Expense.t N) payers,
         Expense.paidBy expense = PaidByArray payers ->
         normalizePaidBy expense = expense)
  /\ (forall fuel,
         calculateBalances fuel (map normalizePaidBy expenses)
         = calculateBalances fuel expenses)
  /\ (forall name,
         calculateParticipantSummary (map normalizePaidBy expenses) name
         = calculateParticipantSummary expenses name)
  /\ calculateTripSummary (map normalizePaidBy expenses)
     = calculateTripSummary expenses.
Proof.
  split_and!.
  - intros expense payer Hpaid. unfold normalizePaidBy. by rewrite Hpaid.
  - intros [amount paidBy members] payers Hpaid. simpl in Hpaid. subst paidBy.
    reflexivity.
  - intros fuel. unfold calculateBalances.
    rewrite netAmounts_normalizePaidBy. by destruct expenses.
  - intros name. unfold calculateParticipantSummary.
    rewrite fold_left_normalizePaidBy; [done|].
    intros [[paid owed] count] expense. unfold summaryStep.
    by rewrite getPayers_normalizePaidBy.
  - unfold calculateTripSummary.
    rewrite allParticipants_normalizePaidBy, length_map.
    by rewrite fold_left_normalizePaidBy.
Qed.

(** ** The name check of the loop *)

Section NameGuard.

Context {N : Type} `{JSNumber N}.

Implicit Types (net : list (string * N)).

Lemma creditorsOf_not_negative net name :
  In name (map Payer.name (creditorsOf net)) ->
  exists amount, In (name, amount) net /\ nlt amount nzero = false.
Proof.
  induction net as [|[k v] net IH]; simpl; [done|].
  rewrite map_app, in_app_iff. intros [Hhere|Hrest].
  - destruct (nlt v nzero) eqn:Hneg; [done|].
    destruct (nlt nzero v); [|done].
    destruct Hhere as [<-|[]]. exists v. split; [by left|done].
  - destruct (IH Hrest) as (amount & Hin & Hneg).
    exists amount. split; [by right|done].
Qed.

(** Nobody is both a debtor and a creditor, in any arithmetic: a
    participant has one entry in the map, and it is tested once. *)
Lemma parties_disjoint_any net (d c : Payer.t N) :
  NoDup (map fst net) ->
  In d (debtorsOf net) -> In c (creditorsOf net) ->
  Payer.name d <> Payer.name c.
Proof.
  intros Hnd Hd Hc Heq.
  apply (in_map Payer.name) in Hd, Hc.
  apply debtorsOf_entry in Hd as (owed & Hd & Hneg).
  apply creditorsOf_not_negative in Hc as (due & Hc & Hnot).
  rewrite Heq in Hd.
  pose proof (map_get_In _ _ _ Hnd Hd) as Hget.
  rewrite (map_get_In _ _ _ Hnd Hc) in Hget. injection Hget as ->.
  congruence.
Qed.

End NameGuard.

(** X17.  The test [debtor.name === creditor.name] of the matching loop is
    never true, in any arithmetic: no name is both in the array of debtors
    and in the array of creditors that [calculateBalances] builds, and the
    loop changes the amounts in these arrays but not the names. *)
Theorem name_guard_never_fires {N : Type} `{JSNumber N}
    (expenses : list (Expense.t N)) (debtor creditor : Payer.t N) :
  In debtor (sortDescending (debtorsOf (netAmounts expenses))) ->
  In creditor (sortDescending (creditorsOf (netAmounts expenses))) ->
  String.eqb (Payer.name debtor) (Payer.name creditor) = false.
Proof.
  intros Hd Hc. apply String.eqb_neq.
  apply (parties_disjoint_any (netAmounts expenses)).
  - apply netAmounts_NoDup.
  - eapply Permutation_in; [apply sortDescending_perm|done].
  - eapply Permutation_in; [apply sortDescending_perm|done].
Qed.

(** X17, on doubles, at the first scenario of the specification. *)
Lemma name_guard_never_fires_witness :
  let expenses := scenario_trip float_cents in
  In (Payer.mk "B" (float_cents 10000))
    (sortDescending (debtorsOf (netAmounts expenses)))
  /\ In (Payer.mk "A" (float_cents 20000))
       (sortDescending (creditorsOf (netAmounts expenses)))
  /\ String.eqb "B" "A" = false.
Proof.
  intros expenses.
  assert (In (Payer.mk "B" (float_cents 10000))
            (sortDescending (debtorsOf (netAmounts expenses)))) as Hd.
  { vm_compute. left. reflexivity. }
  assert (In (Payer.mk "A" (float_cents 20000))
            (sortDescending (creditorsOf (netAmounts expenses)))) as Hc.
  { vm_compute. left. reflexivity. }
  split_and!; [exact Hd|exact Hc|].
  exact (name_guard_never_fires expenses _ _ Hd Hc).
Defined.

(** * The program on doubles *)

(** ** The sign of what the arithmetic returns *)

Lemma sign_clear_lt x :
  Float64.sign_clear x = true -> PrimFloat.ltb x PrimFloat.zero = false.
Proof.
  unfold Float64.sign_clear. rewrite FloatAxioms.ltb_spec.
  change (FloatOps.Prim2SF PrimFloat.zero) with (SpecFloat.S754_zero false).
  by destruct (FloatOps.Prim2SF x) as [s|s| |s m e]; try destruct s.
Qed.

Lemma binary_round_aux_sign s m e l :
  match SpecFloat.binary_round_aux FloatOps.prec FloatOps.emax s m e l with
  | SpecFloat.S754_zero s' | SpecFloat.S754_infinity s'
  | SpecFloat.S754_finite s' _ _ => s' = s
  | SpecFloat.S754_nan => True
  end.
Proof.
  unfold SpecFloat.binary_round_aux.
  destruct (SpecFloat.shr_fexp _ _ m e l) as [mrs e'].
  destruct (SpecFloat.shr_fexp _ _ _ e' SpecFloat.loc_Exact) as [mrs' e''].
  destruct (SpecFloat.shr_m mrs'); [done| |done].
  by destruct (Z.leb _ _).
Qed.

Lemma binary_round_aux_sign_clear m e l :
  Float64.sf_sign_clear (SpecFloat.binary_round_aux FloatOps.prec FloatOps.emax false m e l)
  = true.
Proof.
  pose proof (binary_round_aux_sign false m e l) as Hs.
  destruct (SpecFloat.binary_round_aux _ _ _ _ _ _); simpl; by subst.
Qed.

Lemma binary_normalize_sign_clear m e :
  (0 <= m)%Z ->
  Float64.sf_sign_clear (SpecFloat.binary_normalize FloatOps.prec FloatOps.emax m e false)
  = true.
Proof.
  intros Hm. destruct m as [|p|p]; [done| |lia].
  unfold SpecFloat.binary_normalize, SpecFloat.binary_round.
  destruct (SpecFloat.shl_align _ _ _) as [mz ez].
  apply binary_round_aux_sign_clear.
Qed.

Lemma sign_clear_abs x : Float64.sign_clear (PrimFloat.abs x) = true.
Proof.
  unfold Float64.sign_clear. rewrite FloatAxioms.abs_spec.
  by destruct (FloatOps.Prim2SF x).
Qed.


Lemma sign_clear_div x y :
  Float64.sign_clear x = true -> Float64.sign_clear y = true ->
  Float64.sign_clear (PrimFloat.div x y) = true.
Proof.
  unfold Float64.sign_clear. rewrite FloatAxioms.div_spec.
  destruct (FloatOps.Prim2SF x) as [sx|sx| |sx mx ex];
    destruct (FloatOps.Prim2SF y) as [sy|sy| |sy my ey];
    try destruct sx; try destruct sy; try done.
  intros _ _. unfold FloatAxioms.SF64div, SpecFloat.SFdiv.
  destruct (SpecFloat.SFdiv_core_binary _ _ _ _ _ _) as [[mz ez] lz].
  apply binary_round_aux_sign_clear.
Qed.

Lemma sign_clear_of_Z z : Float64.sign_clear (Float64.of_Z z) = true.
Proof.
  unfold Float64.sign_clear, Float64.of_Z. rewrite FloatAxioms.of_uint63_spec.
  apply binary_normalize_sign_clear.
  apply Uint63.to_Z_bounded.
Qed.

Lemma sign_clear_nan : Float64.sign_clear PrimFloat.nan = true.
Proof. reflexivity. Qed.

Lemma sign_clear_zero : Float64.sign_clear PrimFloat.zero = true.
Proof. reflexivity. Qed.

Lemma sign_clear_sub_self x : Float64.sign_clear (PrimFloat.sub x x) = true.
Proof.
  unfold Float64.sign_clear. rewrite FloatAxioms.sub_spec.
  destruct (FloatOps.Prim2SF x) as [s|s| |s m e].
  - by destruct s.
  - by destruct s.
  - done.
  - unfold FloatAxioms.SF64sub, SpecFloat.SFsub. by rewrite Z.sub_diag.
Qed.

Lemma sign_clear_min x y :
  Float64.sign_clear x = true -> Float64.sign_clear y = true ->
  Float64.sign_clear (Float64.min x y) = true.
Proof.
  intros Hx Hy.
  destruct (float_min_cases x y) as [-> | [-> | ->]]; done.
Qed.

(** The digits of a mantissa. *)
Lemma digits2_pos_bounds (m : BinNums.positive) :
  (2 ^ (Z.pos (SpecFloat.digits2_pos m) - 1) <= Z.pos m
   < 2 ^ Z.pos (SpecFloat.digits2_pos m))%Z.
Proof.
  induction m as [m IH|m IH|]; simpl SpecFloat.digits2_pos.
  - rewrite Pos2Z.inj_succ. replace (Z.succ _ - 1)%Z with (Z.pos (SpecFloat.digits2_pos m)) by lia.
    rewrite Z.pow_succ_r by lia.
    replace (Z.pos (SpecFloat.digits2_pos m)) with (Z.succ (Z.pos (SpecFloat.digits2_pos m) - 1)) at 1 by lia.
    rewrite Z.pow_succ_r by lia. lia.
  - rewrite Pos2Z.inj_succ. replace (Z.succ _ - 1)%Z with (Z.pos (SpecFloat.digits2_pos m)) by lia.
    rewrite Z.pow_succ_r by lia.
    replace (Z.pos (SpecFloat.digits2_pos m)) with (Z.succ (Z.pos (SpecFloat.digits2_pos m) - 1)) at 1 by lia.
    rewrite Z.pow_succ_r by lia. lia.
  - simpl. lia.
Qed.

Lemma iter_xO_value (m d : BinNums.positive) :
  Z.pos (Pos.iter xO m d) = (Z.pos m * 2 ^ Z.pos d)%Z.
Proof.
  induction d as [|d IH] using Pos.peano_ind.
  - simpl. lia.
  - rewrite Pos.iter_succ, Pos2Z.inj_succ, Z.pow_succ_r by lia.
    rewrite Pos2Z.inj_xO, IH. lia.
Qed.

Lemma canonical_digits m e :
  SpecFloat.bounded FloatOps.prec FloatOps.emax m e = true ->
  (Z.pos (SpecFloat.digits2_pos m) <= 53)%Z
  /\ (-1074 <= e)%Z
  /\ ((-1074 < e)%Z -> Z.pos (SpecFloat.digits2_pos m) = 53%Z).
Proof.
  unfold SpecFloat.bounded, SpecFloat.canonical_mantissa, SpecFloat.fexp,
    SpecFloat.emin, FloatOps.prec, FloatOps.emax.
  intros [Hc _]%andb_true_iff. apply Z.eqb_eq in Hc. lia.
Qed.

(** A larger exponent means a larger value, for the mantissas of doubles. *)
Lemma canonical_exponent_order mx ex my ey (d : BinNums.positive) :
  SpecFloat.bounded FloatOps.prec FloatOps.emax mx ex = true ->
  SpecFloat.bounded FloatOps.prec FloatOps.emax my ey = true ->
  (ey - ex)%Z = Z.neg d ->
  (Z.pos my < Z.pos (Pos.iter xO mx d))%Z.
Proof.
  intros (Hdx & Hex & Hnormal)%canonical_digits (Hdy & Hey & _)%canonical_digits Hd.
  rewrite iter_xO_value.
  pose proof (digits2_pos_bounds mx) as [Hmx _].
  pose proof (digits2_pos_bounds my) as [_ Hmy].
  rewrite Hnormal in Hmx by lia.
  assert (Z.pos my < 2 ^ 53)%Z as Hsmall.
  { eapply Z.lt_le_trans; [exact Hmy|]. apply Z.pow_le_mono_r; lia. }
  assert (2 ^ 1 <= 2 ^ Z.pos d)%Z as Hshift by (apply Z.pow_le_mono_r; lia).
  change (2 ^ (53 - 1))%Z with 4503599627370496%Z in Hmx.
  change (2 ^ 53)%Z with 9007199254740992%Z in Hsmall.
  change (2 ^ 1)%Z with 2%Z in Hshift.
  nia.
Qed.

Lemma SFsub_sign_clear (x y : SpecFloat.spec_float) :
  SpecFloat.valid_binary FloatOps.prec FloatOps.emax x = true ->
  SpecFloat.valid_binary FloatOps.prec FloatOps.emax y = true ->
  Float64.sf_sign_clear x = true -> Float64.sf_sign_clear y = true ->
  SpecFloat.SFltb x y = false ->
  Float64.sf_sign_clear (SpecFloat.SFsub FloatOps.prec FloatOps.emax x y) = true.
Proof.
  destruct x as [sx|sx| |sx mx ex]; destruct y as [sy|sy| |sy my ey];
    try destruct sx; try destruct sy; try done.
  simpl SpecFloat.valid_binary. intros Hx Hy _ _.
  unfold SpecFloat.SFltb, SpecFloat.SFcompare, SpecFloat.SFsub.
  cbn [SpecFloat.cond_Zopp].
  destruct (Z.compare_spec ex ey) as [->|Hlt|Hgt]; [|done|].
  - rewrite Z.min_id. unfold SpecFloat.shl_align. rewrite Z.sub_diag.
    cbn [fst]. change (Pos.compare_cont Eq mx my) with (Pos.compare mx my).
    destruct (Pos.compare_spec mx my) as [->|Hm|Hm]; [|done|]; intros _;
      apply binary_normalize_sign_clear; lia.
  - intros _. rewrite Z.min_r by lia. unfold SpecFloat.shl_align.
    rewrite Z.sub_diag.
    destruct (ey - ex)%Z as [|d|d] eqn:Hd; [lia|lia|]. cbn [fst].
    apply binary_normalize_sign_clear.
    pose proof (canonical_exponent_order mx ex my ey d Hx Hy Hd). lia.
Qed.

Lemma sign_clear_sub x y :
  Float64.sign_clear x = true -> Float64.sign_clear y = true ->
  PrimFloat.ltb x y = false ->
  Float64.sign_clear (PrimFloat.sub x y) = true.
Proof.
  unfold Float64.sign_clear. rewrite FloatAxioms.ltb_spec, FloatAxioms.sub_spec.
  apply SFsub_sign_clear; apply FloatAxioms.Prim2SF_valid.
Qed.

Lemma SFltb_antisym (x y : SpecFloat.spec_float) :
  SpecFloat.SFltb x y = true -> SpecFloat.SFltb y x = false.
Proof.
  unfold SpecFloat.SFltb, SpecFloat.SFcompare.
  destruct x as [sx|sx| |sx mx ex]; destruct y as [sy|sy| |sy my ey];
    try destruct sx; try destruct sy; try done;
    change (Pos.compare_cont Eq mx my) with (Pos.compare mx my);
    change (Pos.compare_cont Eq my mx) with (Pos.compare my mx);
    destruct (Z.compare_spec ex ey) as [He|He|He];
    destruct (Z.compare_spec ey ex) as [He'|He'|He']; try done; try lia;
    destruct (Pos.compare_spec mx my) as [Hm|Hm|Hm];
    destruct (Pos.compare_spec my mx) as [Hm'|Hm'|Hm']; try done; lia.
Qed.

Lemma float_ltb_antisym x y :
  PrimFloat.ltb x y = true -> PrimFloat.ltb y x = false.
Proof. rewrite !FloatAxioms.ltb_spec. apply SFltb_antisym. Qed.

(** What is left on either side after [Math.min] is taken off has its sign
    bit clear. *)
Lemma sign_clear_after_min x y :
  Float64.sign_clear x = true -> Float64.sign_clear y = true ->
  Float64.sign_clear (PrimFloat.sub x (Float64.min x y)) = true
  /\ Float64.sign_clear (PrimFloat.sub y (Float64.min x y)) = true.
Proof.
  intros Hx Hy. unfold Float64.min.
  destruct (Float64.is_nan x || Float64.is_nan y).
  { by rewrite !float_sub_nan_r. }
  destruct (PrimFloat.ltb x y) eqn:Hxy.
  { split; [apply sign_clear_sub_self|].
    apply sign_clear_sub; [done..|]. by apply float_ltb_antisym. }
  destruct (PrimFloat.ltb y x) eqn:Hyx.
  { split; [by apply sign_clear_sub|apply sign_clear_sub_self]. }
  destruct (Float64.is_neg_zero x).
  - split; [apply sign_clear_sub_self|by apply sign_clear_sub].
  - split; [by apply sign_clear_sub|apply sign_clear_sub_self].
Qed.

Lemma sign_clear_toFixed2 x :
  Float64.sign_clear x = true -> Float64.sign_clear (Float64.toFixed2 x) = true.
Proof.
  intros Hx. unfold Float64.toFixed2.
  pose proof Hx as Hsign. unfold Float64.sign_clear in Hsign.
  destruct (FloatOps.Prim2SF x) as [s|s| |s m e]; try done.
  destruct (-6 <=? e)%Z; [done|].
  destruct s; [done|].
  apply sign_clear_div; apply sign_clear_of_Z.
Qed.

(** ** The run without the rounding *)

Section Unrounded.

Context {N : Type} (number : JSNumber N).

Lemma netAmounts_withoutRounding (expenses : list (Expense.t N)) :
  @netAmounts N (withoutRounding number) expenses = @netAmounts N number expenses.
Proof. reflexivity. Qed.

Lemma settleWith_withoutRounding (emit : N -> N) fuel ds cs :
  @settleWith N (withoutRounding number) emit fuel ds cs
  = @settleWith N number emit fuel ds cs.
Proof. reflexivity. Qed.

Lemma sortDescending_withoutRounding (l : list (Payer.t N)) :
  @sortDescending N (withoutRounding number) l = @sortDescending N number l.
Proof. reflexivity. Qed.

Lemma calculateBalances_withoutRounding fuel (expenses : list (Expense.t N)) :
  @calculateBalances N number fuel expenses
  = map (withAmount (@round2 N number))
      <$> @calculateBalances N (withoutRounding number) fuel expenses.
Proof.
  destruct expenses as [|e es]; [done|].
  rewrite !calculateBalances_settle by done.
  rewrite settleWith_emit. reflexivity.
Qed.

End Unrounded.

(** ** What the transfers leave *)

Section Remainders.

Context {N : Type} `{JSNumber N}.

Implicit Types (d c : Payer.t N) (ds cs : list (Payer.t N)).
Implicit Types (raw : list (Balance.t N)) (p : string).






End Remainders.

Section RemaindersOfRun.

Context {N : Type} `{JSNumber N}.

Implicit Types (net : list (string * N)).



Lemma sorted_parties_disjoint (expenses : list (Expense.t N)) d c :
  In d (sortDescending (debtorsOf (netAmounts expenses))) ->
  In c (sortDescending (creditorsOf (netAmounts expenses))) ->
  Payer.name d <> Payer.name c.
Proof.
  intros Hd Hc. apply (parties_disjoint_any (netAmounts expenses)).
  - apply netAmounts_NoDup.
  - eapply Permutation_in; [apply sortDescending_perm|done].
  - eapply Permutation_in; [apply sortDescending_perm|done].
Qed.


End RemaindersOfRun.

(** ** The transfers on doubles *)

Section FloatTransfers.

Implicit Types (x y : PrimFloat.float).
Implicit Types (d c : Payer.t PrimFloat.float).
Implicit Types (ds cs : list (Payer.t PrimFloat.float)).

Lemma is_nan_eq x : Float64.is_nan x = true -> x = PrimFloat.nan.
Proof.
  unfold Float64.is_nan. rewrite FloatAxioms.eqb_spec. intros Hnan.
  apply FloatAxioms.Prim2SF_inj.
  change (FloatOps.Prim2SF PrimFloat.nan) with SpecFloat.S754_nan.
  destruct (FloatOps.Prim2SF x) as [s|s| |s m e]; try done.
  - by destruct s; vm_compute in Hnan.
  - exfalso. revert Hnan.
    unfold SpecFloat.SFeqb, SpecFloat.SFcompare.
    rewrite Z.compare_refl, Pos.compare_cont_refl. by destruct s.
Qed.

Lemma owing_positive x :
  Float64.owing x = true -> Float64.is_nan x = false ->
  PrimFloat.ltb PrimFloat.zero x = true.
Proof.
  unfold Float64.owing, Float64.sign_clear, Float64.is_nan.
  rewrite !FloatAxioms.eqb_spec, FloatAxioms.ltb_spec.
  change (FloatOps.Prim2SF PrimFloat.zero) with (SpecFloat.S754_zero false).
  destruct (FloatOps.Prim2SF x) as [s|s| |s m e]; try destruct s; done.
Qed.

Lemma positive_owing x :
  PrimFloat.ltb PrimFloat.zero x = true -> Float64.owing x = true.
Proof.
  unfold Float64.owing, Float64.sign_clear.
  rewrite !FloatAxioms.eqb_spec, FloatAxioms.ltb_spec.
  change (FloatOps.Prim2SF PrimFloat.zero) with (SpecFloat.S754_zero false).
  destruct (FloatOps.Prim2SF x) as [s|s| |s m e]; try destruct s; done.
Qed.

Lemma positive_not_nan x :
  PrimFloat.ltb PrimFloat.zero x = true -> Float64.is_nan x = false.
Proof.
  unfold Float64.is_nan.
  rewrite !FloatAxioms.eqb_spec, FloatAxioms.ltb_spec.
  change (FloatOps.Prim2SF PrimFloat.zero) with (SpecFloat.S754_zero false).
  destruct (FloatOps.Prim2SF x) as [s|s| |s m e]; try destruct s; try done.
  intros _. unfold SpecFloat.SFeqb, SpecFloat.SFcompare.
  by rewrite Z.compare_refl, Pos.compare_cont_refl.
Qed.

Lemma negative_abs_owing x :
  PrimFloat.ltb x PrimFloat.zero = true -> Float64.owing (PrimFloat.abs x) = true.
Proof.
  unfold Float64.owing, Float64.sign_clear.
  rewrite !FloatAxioms.eqb_spec, FloatAxioms.ltb_spec, FloatAxioms.abs_spec.
  change (FloatOps.Prim2SF PrimFloat.zero) with (SpecFloat.S754_zero false).
  destruct (FloatOps.Prim2SF x) as [s|s| |s m e]; try destruct s; done.
Qed.

Lemma positive_min x y :
  PrimFloat.ltb PrimFloat.zero x = true -> PrimFloat.ltb PrimFloat.zero y = true ->
  PrimFloat.ltb PrimFloat.zero (Float64.min x y) = true.
Proof.
  intros Hx Hy. unfold Float64.min.
  rewrite (positive_not_nan x Hx), (positive_not_nan y Hy). simpl.
  destruct (PrimFloat.ltb x y); [done|].
  destruct (PrimFloat.ltb y x); [done|].
  by destruct (Float64.is_neg_zero x).
Qed.

Lemma owing_sign_clear x : Float64.owing x = true -> Float64.sign_clear x = true.
Proof. unfold Float64.owing. by intros [? _]%andb_true_iff. Qed.

(** On doubles, in a run that returns, every transfer is strictly
    positive. *)
Lemma settle_float_transfers fuel ds cs transfers :
  Forall (fun d => Float64.owing (Payer.amount d) = true) ds ->
  Forall (fun c => Float64.owing (Payer.amount c) = true) cs ->
  (forall d c, In d ds -> In c cs -> Payer.name d <> Payer.name c) ->
  settleWith (fun amount => amount) fuel ds cs = Some transfers ->
  Forall (fun transfer =>
            PrimFloat.ltb PrimFloat.zero (Balance.amount transfer) = true)
    transfers.
Proof.
  revert ds cs transfers.
  induction fuel as [|fuel IH]; intros ds cs transfers; [done|].
  intros Hds Hcs Hdis Hrun.
  destruct ds as [|d ds]; [injection Hrun as <-; constructor|].
  destruct cs as [|c cs]; [injection Hrun as <-; constructor|].
  assert (String.eqb (Payer.name d) (Payer.name c) = false) as Hname.
  { apply String.eqb_neq, Hdis; by left. }
  inversion Hds as [|? ? Hd Hds']; subst.
  inversion Hcs as [|? ? Hc Hcs']; subst.
  destruct (Float64.is_nan (Payer.amount d)) eqn:Hdnan.
  { rewrite nan_debtor_stuck in Hrun; [done|done|by apply is_nan_eq]. }
  destruct (Float64.is_nan (Payer.amount c)) eqn:Hcnan.
  { rewrite nan_creditor_stuck in Hrun; [done|done|by apply is_nan_eq]. }
  pose proof (owing_positive _ Hd Hdnan) as Hdpos.
  pose proof (owing_positive _ Hc Hcnan) as Hcpos.
  simpl in Hrun. rewrite Hname in Hrun.
  destruct (sign_clear_after_min (Payer.amount d) (Payer.amount c))
    as [Hd' Hc']; [by apply owing_sign_clear..|].
  set (amount := Float64.min (Payer.amount d) (Payer.amount c)) in *.
  destruct (settleWith _ fuel _ _) as [rest|] eqn:Hrest; [|done].
  injection Hrun as <-. constructor.
  { simpl. by apply positive_min. }
  revert Hrest. apply IH.
  - destruct (PrimFloat.eqb (PrimFloat.sub (Payer.amount d) amount) PrimFloat.zero)
      eqn:Hgone; [done|].
    constructor; [|done]. simpl. unfold Float64.owing. by rewrite Hd', Hgone.
  - destruct (PrimFloat.eqb (PrimFloat.sub (Payer.amount c) amount) PrimFloat.zero)
      eqn:Hgone; [done|].
    constructor; [|done]. simpl. unfold Float64.owing. by rewrite Hc', Hgone.
  - intros x y Hx Hy.
    assert (Payer.name x = Payer.name d \/ In x ds) as [Hxn|Hxn].
    { destruct (PrimFloat.eqb (PrimFloat.sub (Payer.amount d) amount) PrimFloat.zero);
        [by right|]. destruct Hx as [<-|Hx]; [by left|by right]. }
    all: assert (Payer.name y = Payer.name c \/ In y cs) as [Hyn|Hyn]
      by (destruct (PrimFloat.eqb (PrimFloat.sub (Payer.amount c) amount)
                      PrimFloat.zero);
          [by right|destruct Hy as [<-|Hy]; [by left|by right]]).
    + rewrite Hxn, Hyn. apply Hdis; by left.
    + rewrite Hxn. apply Hdis; [by left|by right].
    + rewrite Hyn. apply Hdis; [by right|by left].
    + apply Hdis; by right.
Qed.

Lemma debtorsOf_owing (net : list (string * PrimFloat.float)) :
  Forall (fun d => Float64.owing (Payer.amount d) = true) (debtorsOf net).
Proof.
  induction net as [|[k v] net IH]; simpl; [constructor|].
  apply Forall_app. split; [|done].
  destruct (PrimFloat.ltb v PrimFloat.zero) eqn:Hneg; [|constructor].
  constructor; [|constructor]. by apply negative_abs_owing.
Qed.

Lemma creditorsOf_owing (net : list (string * PrimFloat.float)) :
  Forall (fun c => Float64.owing (Payer.amount c) = true) (creditorsOf net).
Proof.
  induction net as [|[k v] net IH]; simpl; [constructor|].
  apply Forall_app. split; [|done].
  destruct (PrimFloat.ltb v PrimFloat.zero); [constructor|].
  destruct (PrimFloat.ltb PrimFloat.zero v) eqn:Hpos; [|constructor].
  constructor; [|constructor]. by apply positive_owing.
Qed.

End FloatTransfers.

(** ** The rounding of a transfer *)



(** ** Rounding never yields NaN *)

Lemma shr_1_nonneg mrs :
  (0 <= SpecFloat.shr_m mrs)%Z -> (0 <= SpecFloat.shr_m (SpecFloat.shr_1 mrs))%Z.
Proof. destruct mrs as [[|[p|p|]|p] r s]; simpl; lia. Qed.

Lemma iter_pos_shr_1_nonneg p mrs :
  (0 <= SpecFloat.shr_m mrs)%Z ->
  (0 <= SpecFloat.shr_m (SpecFloat.iter_pos SpecFloat.shr_1 p mrs))%Z.
Proof.
  revert mrs. induction p as [p IH|p IH|]; intros mrs Hm; simpl.
  - by apply IH, IH, shr_1_nonneg.
  - by apply IH, IH.
  - by apply shr_1_nonneg.
Qed.

Lemma shr_fexp_nonneg m e l :
  (0 <= m)%Z ->
  (0 <= SpecFloat.shr_m (SpecFloat.shr_fexp FloatOps.prec FloatOps.emax m e l).1)%Z.
Proof.
  intros Hm. unfold SpecFloat.shr_fexp, SpecFloat.shr.
  assert (0 <= SpecFloat.shr_m (SpecFloat.shr_record_of_loc m l))%Z as Hrec
    by (by destruct l as [|[]]).
  destruct (_ - e)%Z; simpl; [done| |done].
  by apply iter_pos_shr_1_nonneg.
Qed.

Lemma binary_round_aux_number s m e l :
  (0 <= m)%Z ->
  SpecFloat.binary_round_aux FloatOps.prec FloatOps.emax s m e l
  <> SpecFloat.S754_nan.
Proof.
  intros Hm. unfold SpecFloat.binary_round_aux.
  pose proof (shr_fexp_nonneg m e l Hm) as Hfirst.
  destruct (SpecFloat.shr_fexp _ _ m e l) as [mrs e']. simpl in Hfirst.
  assert (0 <= SpecFloat.round_nearest_even (SpecFloat.shr_m mrs)
                 (SpecFloat.loc_of_shr_record mrs))%Z as Hround.
  { unfold SpecFloat.round_nearest_even.
    destruct (SpecFloat.loc_of_shr_record mrs) as [|[]]; try lia.
    destruct (Z.even _); lia. }
  pose proof (shr_fexp_nonneg _ e' SpecFloat.loc_Exact Hround) as Hsecond.
  destruct (SpecFloat.shr_fexp _ _ _ e' SpecFloat.loc_Exact) as [mrs' e''].
  simpl in Hsecond.
  destruct (SpecFloat.shr_m mrs'); [done| |lia].
  by destruct (Z.leb _ _).
Qed.

Lemma binary_normalize_number m e :
  (0 <= m)%Z ->
  SpecFloat.SFleb (SpecFloat.S754_zero false)
    (SpecFloat.binary_normalize FloatOps.prec FloatOps.emax m e false) = true.
Proof.
  intros Hm. destruct m as [|p|p]; [done| |lia].
  unfold SpecFloat.binary_normalize, SpecFloat.binary_round.
  destruct (SpecFloat.shl_align _ _ _) as [mz ez].
  pose proof (binary_round_aux_sign false (Z.pos mz) ez SpecFloat.loc_Exact) as Hs.
  pose proof (binary_round_aux_number false (Z.pos mz) ez SpecFloat.loc_Exact) as Hn.
  destruct (SpecFloat.binary_round_aux _ _ _ _ _ _); [done| | |]; subst; try done.
  by exfalso; apply Hn.
Qed.

Lemma SFdiv_number x my ey :
  SpecFloat.SFleb (SpecFloat.S754_zero false) x = true ->
  Float64.sf_sign_clear x = true ->
  SpecFloat.SFleb (SpecFloat.S754_zero false)
    (SpecFloat.SFdiv FloatOps.prec FloatOps.emax x
       (SpecFloat.S754_finite false my ey)) = true.
Proof.
  intros Hx Hs. destruct x as [[]|[]| |[] m e]; try done.
  unfold SpecFloat.SFdiv.
  destruct (SpecFloat.SFdiv_core_binary _ _ _ _ _ _) as [[mz ez] lz] eqn:Hcore.
  assert (0 <= mz)%Z as Hmz.
  { unfold SpecFloat.SFdiv_core_binary in Hcore.
    set (s := (e - ey - _)%Z) in Hcore.
    set (m' := match s with Z.pos _ => Z.shiftl (Z.pos m) s | 0%Z => Z.pos m
                       | Z.neg _ => 0%Z end) in Hcore.
    assert (0 <= m')%Z as Hm'.
    { subst m'. destruct s; try lia. by apply Z.shiftl_nonneg. }
    pose proof (Z.div_pos m' (Z.pos my) Hm' ltac:(lia)) as Hq.
    unfold Z.div in Hq.
    destruct (Z.div_eucl m' (Z.pos my)) as [q r]. simpl in Hq.
    by injection Hcore as <- _ _. }
  pose proof (binary_round_aux_sign false mz ez lz) as Hsign.
  pose proof (binary_round_aux_number false mz ez lz Hmz) as Hn.
  simpl xorb.
  destruct (SpecFloat.binary_round_aux _ _ _ _ _ _); subst; done.
Qed.

Lemma toFixed2_not_negative x :
  PrimFloat.ltb PrimFloat.zero x = true ->
  PrimFloat.leb PrimFloat.zero (Float64.toFixed2 x) = true.
Proof.
  intros Hx. rewrite FloatAxioms.ltb_spec in Hx.
  change (FloatOps.Prim2SF PrimFloat.zero) with (SpecFloat.S754_zero false) in Hx.
  rewrite FloatAxioms.leb_spec.
  change (FloatOps.Prim2SF PrimFloat.zero) with (SpecFloat.S754_zero false).
  unfold Float64.toFixed2.
  destruct (FloatOps.Prim2SF x) as [s|s| |s m e] eqn:Hsf; try done.
  - rewrite Hsf. by destruct s.
  - destruct s; [done|].
    destruct (-6 <=? e)%Z; [by rewrite Hsf|].
    cbv zeta. rewrite FloatAxioms.div_spec.
    change (FloatOps.Prim2SF (Float64.of_Z 100))
      with (SpecFloat.S754_finite false 7036874417766400 (-46)).
    set (n := ((200 * Z.pos m + 2 ^ (- e)) / 2 ^ (- e + 1))%Z).
    apply SFdiv_number.
    + unfold Float64.of_Z. rewrite FloatAxioms.of_uint63_spec.
      apply binary_normalize_number. apply Uint63.to_Z_bounded.
    + apply sign_clear_of_Z.
Qed.

(** ** The balances of a run *)

Section RunFacts.

Context {N : Type} `{JSNumber N}.

Implicit Types (expenses : list (Expense.t N)) (debts : list (Balance.t N)).

Lemma withoutRounding_settle fuel expenses transfers :
  expenses <> [] ->
  @calculateBalances N (withoutRounding _) fuel expenses = Some transfers ->
  settleWith (fun amount => amount) fuel
    (sortDescending (debtorsOf (netAmounts expenses)))
    (sortDescending (creditorsOf (netAmounts expenses)))
  = Some transfers.
Proof.
  intros Hne Hrun.
  rewrite (@calculateBalances_settle N (withoutRounding _)) in Hrun by done.
  exact Hrun.
Qed.



End RunFacts.

Section FloatRun.

Implicit Types (expenses : list (Expense.t PrimFloat.float)).
Implicit Types (debts transfers : list (Balance.t PrimFloat.float)).

(** On doubles, the transfers of a run that returns are strictly
    positive. *)
Lemma float_transfers_positive fuel expenses transfers :
  @calculateBalances _ (withoutRounding Float64.number) fuel expenses
  = Some transfers ->
  Forall (fun transfer =>
            PrimFloat.ltb PrimFloat.zero (Balance.amount transfer) = true)
    transfers.
Proof.
  destruct expenses as [|e es]; [intros [= <-]; constructor|].
  intros Hrun%withoutRounding_settle; [|done].
  revert Hrun. apply settle_float_transfers.
  - rewrite sortDescending_perm. apply debtorsOf_owing.
  - rewrite sortDescending_perm. apply creditorsOf_owing.
  - apply sorted_parties_disjoint.
Qed.

Lemma positive_sign_clear (x : PrimFloat.float) :
  PrimFloat.ltb PrimFloat.zero x = true -> Float64.sign_clear x = true.
Proof. intros Hx. by apply owing_sign_clear, positive_owing. Qed.

End FloatRun.

(** ** Finite amounts stay finite *)

Lemma shr_1_value mrs :
  (0 <= SpecFloat.shr_m mrs)%Z ->
  SpecFloat.shr_m (SpecFloat.shr_1 mrs) = (SpecFloat.shr_m mrs / 2)%Z.
Proof.
  destruct mrs as [[|[p|p|]|p] r s];
    cbn [SpecFloat.shr_1 SpecFloat.shr_m]; intros Hm; try lia;
    by rewrite <- Z.div2_div.
Qed.

Lemma iter_pos_shr_1_value p mrs :
  (0 <= SpecFloat.shr_m mrs)%Z ->
  SpecFloat.shr_m (SpecFloat.iter_pos SpecFloat.shr_1 p mrs)
  = (SpecFloat.shr_m mrs / 2 ^ Z.pos p)%Z.
Proof.
  revert mrs. induction p as [p IH|p IH|]; intros mrs Hm; simpl SpecFloat.iter_pos.
  - rewrite IH, IH, shr_1_value by
      (try apply iter_pos_shr_1_nonneg; by apply shr_1_nonneg || done).
    rewrite !Z.div_div by lia.
    f_equal. rewrite Pos2Z.inj_xI, Z.pow_add_r, Z.pow_mul_r by lia.
    change (2 ^ 2)%Z with 4%Z. change (2 ^ 1)%Z with 2%Z.
    replace (4 ^ Z.pos p)%Z with (2 ^ Z.pos p * 2 ^ Z.pos p)%Z; [lia|].
    rewrite <- Z.pow_add_r by lia. replace 4%Z with (2 ^ 2)%Z by done.
    rewrite <- Z.pow_mul_r by lia. f_equal. lia.
  - rewrite IH, IH by (try apply iter_pos_shr_1_nonneg; done).
    rewrite !Z.div_div by lia.
    f_equal. rewrite Pos2Z.inj_xO, <- Z.pow_add_r by lia. f_equal. lia.
  - by rewrite shr_1_value.
Qed.

Lemma Zdigits2_upper (r k : Z) :
  (0 <= r)%Z -> (0 <= k)%Z -> (r < 2 ^ k)%Z -> (SpecFloat.Zdigits2 r <= k)%Z.
Proof.
  intros Hr Hk Hlt. destruct r as [|p|p]; [done| |lia]. simpl.
  pose proof (digits2_pos_bounds p) as [Hlow _].
  assert (2 ^ (Z.pos (SpecFloat.digits2_pos p) - 1) < 2 ^ k)%Z as Hpow by lia.
  apply Z.pow_lt_mono_r_iff in Hpow; lia.
Qed.

Lemma fexp_le_top (d : Z) :
  (d <= 1024)%Z -> (SpecFloat.fexp FloatOps.prec FloatOps.emax d <= 971)%Z.
Proof.
  unfold SpecFloat.fexp, SpecFloat.emin, FloatOps.prec, FloatOps.emax. lia.
Qed.

Lemma shr_fexp_case m e l :
  (0 <= m)%Z ->
  let n := (SpecFloat.fexp FloatOps.prec FloatOps.emax (SpecFloat.Zdigits2 m + e) - e)%Z in
  let result := SpecFloat.shr_fexp FloatOps.prec FloatOps.emax m e l in
  ((n <= 0)%Z
   /\ result = (SpecFloat.shr_record_of_loc m l, e))
  \/ ((0 < n)%Z
      /\ SpecFloat.shr_m result.1 = (m / 2 ^ n)%Z
      /\ result.2 = (e + n)%Z).
Proof.
  intros Hm n result. subst result. unfold SpecFloat.shr_fexp, SpecFloat.shr.
  fold n. destruct n as [|p|p] eqn:Hn.
  - left. split; [lia|done].
  - right. split; [lia|]. split; [|done]. cbn [fst].
    rewrite iter_pos_shr_1_value; by destruct l as [|[]].
  - left. split; [lia|done].
Qed.

Lemma round_nearest_even_bounds m l :
  (m <= SpecFloat.round_nearest_even m l <= m + 1)%Z.
Proof.
  unfold SpecFloat.round_nearest_even.
  destruct l as [|[]]; try lia. destruct (Z.even m); lia.
Qed.

(** Rounding a whole multiple [m * 2^e] that lies under the largest double
    gives a double, not an infinity. *)
Lemma binary_round_aux_finite m e :
  (0 <= m)%Z -> (e <= 971)%Z ->
  (m < (2 ^ 53 - 1) * 2 ^ (971 - e))%Z ->
  match SpecFloat.binary_round_aux FloatOps.prec FloatOps.emax false m e
          SpecFloat.loc_Exact with
  | SpecFloat.S754_zero _ | SpecFloat.S754_finite _ _ _ => True
  | _ => False
  end.
Proof.
  intros Hm He Hlt. unfold SpecFloat.binary_round_aux.
  destruct (shr_fexp_case m e SpecFloat.loc_Exact Hm) as [[Hn Hfirst]|(Hn & Hvalue & Hexp)].
  - rewrite Hfirst. cbn [SpecFloat.shr_record_of_loc SpecFloat.shr_m
                          SpecFloat.loc_of_shr_record SpecFloat.round_nearest_even].
    rewrite Hfirst. cbn [SpecFloat.shr_record_of_loc SpecFloat.shr_m].
    destruct m as [|p|p]; [done| |lia].
    replace (e <=? FloatOps.emax - FloatOps.prec)%Z with true; [done|].
    symmetry. apply Z.leb_le. unfold FloatOps.emax, FloatOps.prec. lia.
  - destruct (SpecFloat.shr_fexp _ _ m e _) as [mrs e'].
    cbn [fst snd] in Hvalue, Hexp.
    set (n := (SpecFloat.fexp FloatOps.prec FloatOps.emax
                 (SpecFloat.Zdigits2 m + e) - e)%Z) in *.
    assert (SpecFloat.Zdigits2 m + e <= 1024)%Z as Hdigits.
    { assert (SpecFloat.Zdigits2 m <= 1024 - e)%Z; [|lia].
      apply Zdigits2_upper; [done|lia|].
      eapply Z.lt_le_trans; [exact Hlt|].
      replace (1024 - e)%Z with (53 + (971 - e))%Z by lia.
      rewrite Z.pow_add_r by lia.
      apply Z.mul_le_mono_nonneg_r; [apply Z.pow_nonneg|]; lia. }
    assert (e' <= 971)%Z as He'.
    { subst e' n. pose proof (fexp_le_top _ Hdigits). lia. }
    set (r := SpecFloat.round_nearest_even (SpecFloat.shr_m mrs)
                (SpecFloat.loc_of_shr_record mrs)).
    assert (0 <= r < 2 ^ (1024 - e'))%Z as Hr.
    { pose proof (round_nearest_even_bounds (SpecFloat.shr_m mrs)
                    (SpecFloat.loc_of_shr_record mrs)) as Hb. fold r in Hb.
      rewrite Hvalue in Hb.
      assert (0 <= m / 2 ^ n)%Z by (apply Z.div_pos; [lia|apply Z.pow_pos_nonneg; lia]).
      assert (m / 2 ^ n < (2 ^ 53 - 1) * 2 ^ (971 - e'))%Z as Hdiv.
      { apply Z.div_lt_upper_bound; [apply Z.pow_pos_nonneg; lia|].
        replace (2 ^ n * ((2 ^ 53 - 1) * 2 ^ (971 - e')))%Z
          with ((2 ^ 53 - 1) * (2 ^ (971 - e') * 2 ^ n))%Z by lia.
        rewrite <- Z.pow_add_r by lia.
        replace (971 - e' + n)%Z with (971 - e)%Z by lia. exact Hlt. }
      replace (1024 - e')%Z with (53 + (971 - e'))%Z by lia.
      rewrite Z.pow_add_r by lia.
      assert (0 < 2 ^ (971 - e'))%Z by (apply Z.pow_pos_nonneg; lia).
      nia. }
    destruct (shr_fexp_case r e' SpecFloat.loc_Exact ltac:(lia))
      as [[Hn2 Hsecond]|(Hn2 & Hvalue2 & Hexp2)].
    + rewrite Hsecond. cbn [SpecFloat.shr_record_of_loc SpecFloat.shr_m].
      destruct r as [|p|p]; [done| |lia].
      replace (e' <=? FloatOps.emax - FloatOps.prec)%Z with true; [done|].
      symmetry. apply Z.leb_le. unfold FloatOps.emax, FloatOps.prec. lia.
    + destruct (SpecFloat.shr_fexp _ _ r e' _) as [mrs2 e2].
      cbn [fst snd] in Hvalue2, Hexp2.
      assert (SpecFloat.Zdigits2 r <= 1024 - e')%Z as Hd2
        by (apply Zdigits2_upper; lia).
      assert (e2 <= 971)%Z as He2.
      { rewrite Hexp2.
        pose proof (fexp_le_top (SpecFloat.Zdigits2 r + e') ltac:(lia)). lia. }
      destruct (SpecFloat.shr_m mrs2) as [|p|p] eqn:Hm2; [done| |].
      * replace (e2 <=? FloatOps.emax - FloatOps.prec)%Z with true; [done|].
        symmetry. apply Z.leb_le. unfold FloatOps.emax, FloatOps.prec. lia.
      * assert (0 <= r / 2 ^ (SpecFloat.fexp FloatOps.prec FloatOps.emax
                                (SpecFloat.Zdigits2 r + e') - e'))%Z
          by (apply Z.div_pos; [lia|apply Z.pow_pos_nonneg; lia]).
        lia.
Qed.

Lemma binary_normalize_finite m e :
  (0 <= m)%Z -> (e <= 971)%Z ->
  (m < (2 ^ 53 - 1) * 2 ^ (971 - e))%Z ->
  match SpecFloat.binary_normalize FloatOps.prec FloatOps.emax m e false with
  | SpecFloat.S754_zero _ | SpecFloat.S754_finite _ _ _ => True
  | _ => False
  end.
Proof.
  intros Hm He Hlt. destruct m as [|p|p]; [done| |lia].
  unfold SpecFloat.binary_normalize, SpecFloat.binary_round, SpecFloat.shl_align.
  set (target := SpecFloat.fexp FloatOps.prec FloatOps.emax
                   (Z.pos (SpecFloat.digits2_pos p) + e)).
  destruct (target - e)%Z as [|d|d] eqn:Hd.
  - by apply binary_round_aux_finite.
  - by apply binary_round_aux_finite.
  - apply binary_round_aux_finite; [lia|lia|].
    rewrite iter_xO_value.
    replace (971 - target)%Z with (971 - e + Z.pos d)%Z by lia.
    rewrite Z.pow_add_r by lia.
    assert (0 < 2 ^ Z.pos d)%Z by (apply Z.pow_pos_nonneg; lia).
    nia.
Qed.

Lemma bounded_exponent m e :
  SpecFloat.bounded FloatOps.prec FloatOps.emax m e = true ->
  (e <= 971)%Z /\ (Z.pos m <= 2 ^ 53 - 1)%Z.
Proof.
  intros Hb. pose proof (canonical_digits m e Hb) as (Hd & _ & _).
  unfold SpecFloat.bounded in Hb. apply andb_true_iff in Hb as [_ He].
  apply Z.leb_le in He. unfold FloatOps.emax, FloatOps.prec in He.
  split; [lia|].
  pose proof (digits2_pos_bounds m) as [_ Hm].
  assert (2 ^ Z.pos (SpecFloat.digits2_pos m) <= 2 ^ 53)%Z
    by (apply Z.pow_le_mono_r; lia).
  lia.
Qed.

(** The difference of two finite doubles that are not negative, the larger
    first, is finite. *)
Lemma SFsub_finite (x y : SpecFloat.spec_float) :
  SpecFloat.valid_binary FloatOps.prec FloatOps.emax x = true ->
  SpecFloat.valid_binary FloatOps.prec FloatOps.emax y = true ->
  Float64.sf_sign_clear x = true -> Float64.sf_sign_clear y = true ->
  SpecFloat.SFltb x y = false ->
  match x with SpecFloat.S754_zero _ | SpecFloat.S754_finite _ _ _ => True
          | _ => False end ->
  match y with SpecFloat.S754_zero _ | SpecFloat.S754_finite _ _ _ => True
          | _ => False end ->
  match SpecFloat.SFsub FloatOps.prec FloatOps.emax x y with
  | SpecFloat.S754_zero _ | SpecFloat.S754_finite _ _ _ => True
  | _ => False
  end.
Proof.
  destruct x as [sx|sx| |sx mx ex]; destruct y as [sy|sy| |sy my ey];
    try destruct sx; try destruct sy; try done.
  simpl SpecFloat.valid_binary. intros Hx Hy _ _.
  destruct (bounded_exponent _ _ Hx) as [Hex Hmx].
  destruct (bounded_exponent _ _ Hy) as [Hey Hmy].
  unfold SpecFloat.SFltb, SpecFloat.SFcompare, SpecFloat.SFsub.
  cbn [SpecFloat.cond_Zopp].
  destruct (Z.compare_spec ex ey) as [->|Hlt|Hgt]; [|done|].
  - rewrite Z.min_id. unfold SpecFloat.shl_align. rewrite Z.sub_diag.
    cbn [fst]. change (Pos.compare_cont Eq mx my) with (Pos.compare mx my).
    assert (1 <= 2 ^ (971 - ey))%Z
      by (pose proof (Z.pow_pos_nonneg 2 (971 - ey)); lia).
    destruct (Pos.compare_spec mx my) as [->|Hm|Hm]; [|done|]; intros _ _ _;
      apply binary_normalize_finite; try lia; nia.
  - intros _ _ _. rewrite Z.min_r by lia. unfold SpecFloat.shl_align.
    rewrite Z.sub_diag.
    destruct (ey - ex)%Z as [|d|d] eqn:Hd; [lia|lia|]. cbn [fst].
    pose proof (canonical_exponent_order mx ex my ey d Hx Hy Hd) as Horder.
    apply binary_normalize_finite; [lia|lia|].
    rewrite iter_xO_value in *.
    replace (971 - ey)%Z with (971 - ex + Z.pos d)%Z by lia.
    rewrite Z.pow_add_r by lia.
    assert (0 < 2 ^ Z.pos d)%Z by (apply Z.pow_pos_nonneg; lia).
    assert (1 <= 2 ^ (971 - ex))%Z
      by (pose proof (Z.pow_pos_nonneg 2 (971 - ex)); lia).
    nia.
Qed.

Lemma finite_sub x y :
  Float64.is_finite x = true -> Float64.is_finite y = true ->
  Float64.sign_clear x = true -> Float64.sign_clear y = true ->
  PrimFloat.ltb x y = false ->
  Float64.is_finite (PrimFloat.sub x y) = true.
Proof.
  unfold Float64.is_finite, Float64.sign_clear.
  rewrite FloatAxioms.ltb_spec, FloatAxioms.sub_spec.
  intros Hfx Hfy Hsx Hsy Hlt.
  assert (match SpecFloat.SFsub FloatOps.prec FloatOps.emax
                  (FloatOps.Prim2SF x) (FloatOps.Prim2SF y) with
          | SpecFloat.S754_zero _ | SpecFloat.S754_finite _ _ _ => True
          | _ => False
          end) as Hres.
  { apply SFsub_finite; try done; try apply FloatAxioms.Prim2SF_valid.
    - by destruct (FloatOps.Prim2SF x).
    - by destruct (FloatOps.Prim2SF y). }
  unfold FloatAxioms.SF64sub.
  by destruct (SpecFloat.SFsub _ _ _ _).
Qed.

Lemma finite_sub_self x :
  Float64.is_finite x = true ->
  Float64.is_finite (PrimFloat.sub x x) = true.
Proof.
  unfold Float64.is_finite. intros Hfin. rewrite FloatAxioms.sub_spec.
  destruct (FloatOps.Prim2SF x) as [s|s| |s m e]; try done.
  - by destruct s.
  - unfold FloatAxioms.SF64sub, SpecFloat.SFsub. by rewrite Z.sub_diag.
Qed.

(** What is left on either side after [Math.min] is taken off two finite
    amounts that are not negative is finite, and zero on one side. *)
Lemma finite_after_min x y :
  Float64.is_finite x = true -> Float64.is_finite y = true ->
  Float64.sign_clear x = true -> Float64.sign_clear y = true ->
  Float64.is_finite (PrimFloat.sub x (Float64.min x y)) = true
  /\ Float64.is_finite (PrimFloat.sub y (Float64.min x y)) = true
  /\ (PrimFloat.eqb (PrimFloat.sub x (Float64.min x y)) PrimFloat.zero = true
      \/ PrimFloat.eqb (PrimFloat.sub y (Float64.min x y)) PrimFloat.zero = true).
Proof.
  intros Hfx Hfy Hx Hy. unfold Float64.min.
  rewrite (float_finite_not_nan x Hfx), (float_finite_not_nan y Hfy).
  cbn [orb].
  destruct (PrimFloat.ltb x y) eqn:Hxy.
  { split_and!; [by apply finite_sub_self| |left; by apply float_sub_self_finite].
    apply finite_sub; [done..|]. by apply float_ltb_antisym. }
  destruct (PrimFloat.ltb y x) eqn:Hyx.
  { split_and!; [by apply finite_sub|by apply finite_sub_self|].
    right. by apply float_sub_self_finite. }
  destruct (Float64.is_neg_zero x).
  - split_and!; [by apply finite_sub_self|by apply finite_sub|].
    left. by apply float_sub_self_finite.
  - split_and!; [by apply finite_sub|by apply finite_sub_self|].
    right. by apply float_sub_self_finite.
Qed.

Section FloatTermination.

Implicit Types (ds cs : list (Payer.t PrimFloat.float)).

(** On doubles the loop returns when the amounts it starts from are finite:
    every iteration takes a party off one of the two lists. *)
Lemma settle_float_returns (emit : PrimFloat.float -> PrimFloat.float)
    fuel ds cs :
  Forall (fun d => Float64.sign_clear (Payer.amount d) = true
                   /\ Float64.is_finite (Payer.amount d) = true) ds ->
  Forall (fun c => Float64.sign_clear (Payer.amount c) = true
                   /\ Float64.is_finite (Payer.amount c) = true) cs ->
  length ds + length cs < fuel ->
  exists out, settleWith emit fuel ds cs = Some out.
Proof.
  revert ds cs.
  induction fuel as [|fuel IH]; intros ds cs Hds Hcs Hfuel; [lia|].
  destruct ds as [|d ds]; [by exists []|].
  destruct cs as [|c cs]; [by exists []|].
  inversion Hds as [|? ? [Hd Hdf] Hds']; subst.
  inversion Hcs as [|? ? [Hc Hcf] Hcs']; subst.
  simpl in Hfuel. cbn [settleWith].
  destruct (String.eqb (Payer.name d) (Payer.name c)).
  { apply IH; [done|done|simpl; lia]. }
  destruct (sign_clear_after_min (Payer.amount d) (Payer.amount c) Hd Hc)
    as [Hd' Hc'].
  destruct (finite_after_min (Payer.amount d) (Payer.amount c) Hdf Hcf Hd Hc)
    as (Hdf' & Hcf' & Hgone).
  cbn [nmin nsub neq nzero Float64.number Payer.amount].
  set (amount := Float64.min (Payer.amount d) (Payer.amount c)) in *.
  set (ds2 := if PrimFloat.eqb (PrimFloat.sub (Payer.amount d) amount) PrimFloat.zero
              then ds else _).
  set (cs2 := if PrimFloat.eqb (PrimFloat.sub (Payer.amount c) amount) PrimFloat.zero
              then cs else _).
  destruct (IH ds2 cs2) as [out Hout].
  - subst ds2.
    destruct (PrimFloat.eqb (PrimFloat.sub (Payer.amount d) amount) PrimFloat.zero);
      [exact Hds'|].
    constructor; [by split|exact Hds'].
  - subst cs2.
    destruct (PrimFloat.eqb (PrimFloat.sub (Payer.amount c) amount) PrimFloat.zero);
      [exact Hcs'|].
    constructor; [by split|exact Hcs'].
  - subst ds2 cs2.
    destruct Hgone as [-> | ->];
      [destruct (PrimFloat.eqb (PrimFloat.sub (Payer.amount c) amount)
                   PrimFloat.zero)
      |destruct (PrimFloat.eqb (PrimFloat.sub (Payer.amount d) amount)
                   PrimFloat.zero)];
      simpl; lia.
  - rewrite Hout. by eexists.
Qed.

Lemma finite_abs x :
  Float64.is_finite x = true -> Float64.is_finite (PrimFloat.abs x) = true.
Proof.
  unfold Float64.is_finite. rewrite FloatAxioms.abs_spec.
  by destruct (FloatOps.Prim2SF x).
Qed.

Lemma debtorsOf_finite (net : list (string * PrimFloat.float)) :
  Forall (fun entry => Float64.is_finite entry.2 = true) net ->
  Forall (fun d => Float64.sign_clear (Payer.amount d) = true
                   /\ Float64.is_finite (Payer.amount d) = true)
    (debtorsOf net).
Proof.
  induction 1 as [|[k v] net Hv _ IH]; simpl; [constructor|].
  apply Forall_app. split; [|done].
  destruct (PrimFloat.ltb v PrimFloat.zero); [|constructor].
  constructor; [|constructor]. simpl.
  split; [apply sign_clear_abs|by apply finite_abs].
Qed.

Lemma creditorsOf_finite (net : list (string * PrimFloat.float)) :
  Forall (fun entry => Float64.is_finite entry.2 = true) net ->
  Forall (fun c => Float64.sign_clear (Payer.amount c) = true
                   /\ Float64.is_finite (Payer.amount c) = true)
    (creditorsOf net).
Proof.
  induction 1 as [|[k v] net Hv _ IH]; simpl; [constructor|].
  apply Forall_app. split; [|done].
  destruct (PrimFloat.ltb v PrimFloat.zero); [constructor|].
  destruct (PrimFloat.ltb PrimFloat.zero v) eqn:Hpos; [|constructor].
  constructor; [|constructor]. simpl.
  split; [by apply positive_sign_clear|done].
Qed.

Lemma calculateBalances_float_returns (expenses : list (Expense.t PrimFloat.float)) :
  Forall (fun entry => Float64.is_finite entry.2 = true) (netAmounts expenses) ->
  exists debts,
    forall fuel,
      length (debtorsOf (netAmounts expenses))
      + length (creditorsOf (netAmounts expenses)) < fuel ->
      calculateBalances fuel expenses = Some debts.
Proof.
  intros Hfinite.
  destruct expenses as [|e es]; [by exists []|].
  set (expenses := e :: es) in *.
  destruct (settle_float_returns round2
              (S (length (debtorsOf (netAmounts expenses))
                  + length (creditorsOf (netAmounts expenses))))
              (sortDescending (debtorsOf (netAmounts expenses)))
              (sortDescending (creditorsOf (netAmounts expenses))))
    as [debts Hrun].
  - rewrite sortDescending_perm. by apply debtorsOf_finite.
  - rewrite sortDescending_perm. by apply creditorsOf_finite.
  - rewrite !length_sortDescending. lia.
  - exists debts. intros fuel Hfuel.
    rewrite calculateBalances_settle by done.
    eapply settleWith_fuel_mono; [exact Hrun|lia].
Qed.

End FloatTermination.

Section ExactRun.

Implicit Types (expenses : list (Expense.t Qc)).

(** In exact arithmetic the run without the rounding returns when the run
    returns, and its transfers are strictly positive. *)
Lemma exact_transfers expenses :
  exists transfers,
    (forall fuel,
        length (debtorsOf (netAmounts expenses))
        + length (creditorsOf (netAmounts expenses)) < fuel ->
        @calculateBalances _ (withoutRounding Exact.number) fuel expenses
        = Some transfers
        /\ calculateBalances fuel expenses
           = Some (map (withAmount round2) transfers))
    /\ Forall (fun transfer => (0 < Balance.amount transfer)%Qc) transfers.
Proof.
  destruct expenses as [|e es].
  { exists []. split; [done|constructor]. }
  set (expenses := e :: es).
  destruct (settle_exact_total (fun amount => amount)
              (S (length (debtorsOf (netAmounts expenses))
                  + length (creditorsOf (netAmounts expenses))))
              (sortDescending (debtorsOf (netAmounts expenses)))
              (sortDescending (creditorsOf (netAmounts expenses))))
    as (transfers & Hrun & _).
  { rewrite !length_sortDescending. lia. }
  exists transfers. split.
  - intros fuel Hfuel.
    assert (@calculateBalances _ (withoutRounding Exact.number) fuel expenses
            = Some transfers) as Hraw.
    { rewrite (@calculateBalances_settle _ (withoutRounding Exact.number))
        by done.
      change (settleWith (fun amount => amount) fuel
                (sortDescending (debtorsOf (netAmounts expenses)))
                (sortDescending (creditorsOf (netAmounts expenses)))
              = Some transfers).
      eapply (settleWith_fuel_mono (fun amount => amount)); [exact Hrun|lia]. }
    split; [exact Hraw|].
    by rewrite calculateBalances_withoutRounding, Hraw.
  - destruct (sorted_parties_ok expenses) as (Hds & Hcs & _).
    exact (settle_positive _ _ _ _ Hds Hcs Hrun).
Qed.

End ExactRun.



(** C2, as the code has it.  On doubles [calculateBalances] returns when
    every entry of the map of net amounts is finite.  Whenever it
    returns, every balance is unsettled, has no [settledAt], and has an
    amount that is not negative: [0 <= amount] holds, so the amount is not
    NaN either.  The amount is the two-decimal rounding of the transfer
    that the loop computed with [Math.min] (the balances are, one for one
    and in order, those of the run without the rounding of line 71), and
    every transfer is strictly positive.  In exact arithmetic the same
    holds, and the function always returns. *)
Theorem debts_unsettled_nonnegative :
  (forall expenses : list (Expense.t PrimFloat.float),
      Forall (fun entry => Float64.is_finite entry.2 = true)
        (netAmounts expenses) ->
      exists debts,
        forall fuel,
          length (debtorsOf (netAmounts expenses))
          + length (creditorsOf (netAmounts expenses)) < fuel ->
          calculateBalances fuel expenses = Some debts)
  /\ (forall fuel (expenses : list (Expense.t PrimFloat.float)) debts,
      calculateBalances fuel expenses = Some debts ->
      Forall (fun balance =>
                PrimFloat.leb PrimFloat.zero (Balance.amount balance) = true
                /\ nlt (Balance.amount balance) nzero = false
                /\ Balance.isSettled balance = false
                /\ Balance.settledAt balance = None) debts
      /\ exists transfers,
          @calculateBalances _ (withoutRounding Float64.number) fuel expenses
          = Some transfers
          /\ debts = map (withAmount round2) transfers
          /\ Forall (fun transfer =>
                       nlt nzero (Balance.amount transfer) = true) transfers)
  /\ (forall (expenses : list (Expense.t Qc)),
      exists debts transfers,
        (forall fuel,
            length (debtorsOf (netAmounts expenses))
            + length (creditorsOf (netAmounts expenses)) < fuel ->
            calculateBalances fuel expenses = Some debts
            /\ @calculateBalances _ (withoutRounding Exact.number) fuel expenses
               = Some transfers)
        /\ debts = map (withAmount round2) transfers
        /\ Forall (fun transfer => (0 < Balance.amount transfer)%Qc) transfers
        /\ Forall (fun balance =>
                     (0 <= Balance.amount balance)%Qc
                     /\ Balance.isSettled balance = false
                     /\ Balance.settledAt balance = None) debts).
Proof.
  split; [exact calculateBalances_float_returns|].
  split.
  - intros fuel expenses debts Hrun.
    pose proof (calculateBalances_unsettled _ _ _ Hrun) as Hopen.
    pose proof Hrun as Hrounded.
    rewrite calculateBalances_withoutRounding in Hrounded.
    destruct (@calculateBalances _ (withoutRounding Float64.number) fuel expenses)
      as [transfers|] eqn:Hraw; [|done].
    injection Hrounded as Hdebts.
    pose proof (float_transfers_positive _ _ _ Hraw) as Hpos.
    split; [|by exists transfers].
    apply List.Forall_forall. intros b Hb.
    rewrite List.Forall_forall in Hopen.
    split; [|split; [|by apply Hopen]];
      rewrite <- Hdebts in Hb; apply in_map_iff in Hb as (t & <- & Ht);
      rewrite List.Forall_forall in Hpos.
    + apply toFixed2_not_negative. by apply Hpos.
    + apply sign_clear_lt, sign_clear_toFixed2, positive_sign_clear.
      by apply Hpos.
  - intros expenses.
    destruct (exact_transfers expenses) as (transfers & Hrun & Hpos).
    exists (map (withAmount round2) transfers), transfers. split_and!.
    + intros fuel Hfuel. destruct (Hrun fuel Hfuel) as [Hraw Hdebts]. done.
    + done.
    + done.
    + apply List.Forall_forall. intros b (t & <- & Ht)%in_map_iff.
      rewrite List.Forall_forall in Hpos. specialize (Hpos t Ht).
      destruct (round2_exact_bounds (Balance.amount t)) as (_ & _ & Hnn);
        [qc_lra|].
      split; [exact Hnn|].
      assert (length (debtorsOf (netAmounts expenses))
              + length (creditorsOf (netAmounts expenses))
              < S (length (debtorsOf (netAmounts expenses))
                   + length (creditorsOf (netAmounts expenses)))) as Hfuel by lia.
      destruct (Hrun _ Hfuel) as [_ Hdebts].
      pose proof (calculateBalances_unsettled _ _ _ Hdebts) as Hopen.
      rewrite List.Forall_forall in Hopen.
      apply (Hopen (withAmount round2 t)). by apply in_map.
Qed.

(** C2, on doubles, where A pays one hundredth for A, B and C: the two
    transfers are of a third of a hundredth, and the balances carry 0. *)
Lemma debts_unsettled_nonnegative_witness :
  Forall (fun balance =>
            PrimFloat.leb PrimFloat.zero (Balance.amount balance) = true
            /\ nlt (Balance.amount balance) nzero = false
            /\ Balance.isSettled balance = false
            /\ Balance.settledAt balance = None)
    [Balance.mk "B" "A" PrimFloat.zero false None;
     Balance.mk "C" "A" PrimFloat.zero false None].
Proof.
  apply (proj1 (proj2 debts_unsettled_nonnegative) 3
           (scenario_cent float_cents)).
  vm_compute. reflexivity.
Defined.

(** ** The totals of the ledger, on doubles *)


Lemma SF64add_zero_l (y : SpecFloat.spec_float) :
  FloatAxioms.SF64add (SpecFloat.S754_zero false) y
  = match y with SpecFloat.S754_zero _ => SpecFloat.S754_zero false | _ => y end.
Proof. by destruct y as [[]| | |]. Qed.








(** ** The trip summary, on doubles *)



(** ** Termination *)

(** X1.  When [calculateBalances] returns.  On doubles it returns whenever
    every entry of the map of net amounts is finite, within one iteration
    of the matching loop for every debtor and creditor and one more: the
    amounts that the loop writes back stay finite, and a finite amount
    less itself is zero, so every iteration takes a party off one of the
    two arrays.  The run that does not return (C3) has infinite entries.
    In exact arithmetic it always returns, within the same bound. *)
Theorem calculateBalances_terminates :
  (forall expenses : list (Expense.t PrimFloat.float),
      Forall (fun entry => Float64.is_finite entry.2 = true)
        (netAmounts expenses) ->
      exists debts,
        forall fuel,
          length (debtorsOf (netAmounts expenses))
          + length (creditorsOf (netAmounts expenses)) < fuel ->
          calculateBalances fuel expenses = Some debts)
  /\ (Forall (fun entry => Float64.is_finite entry.2 = false)
        (netAmounts scenario_overflow)
      /\ forall fuel, calculateBalances fuel scenario_overflow = None)
  /\ (forall expenses : list (Expense.t Qc),
      exists debts,
        forall fuel,
          length (debtorsOf (netAmounts expenses))
          + length (creditorsOf (netAmounts expenses)) < fuel ->
          calculateBalances fuel expenses = Some debts).
Proof.
  split_and!.
  - exact calculateBalances_float_returns.
  - vm_compute. repeat constructor.
  - intros fuel. rewrite calculateBalances_settle by done.
    destruct scenario_overflow_parties as (_ & -> & ->).
    destruct fuel as [|fuel]; [done|].
    change (cons (Balance.mk "B" "A" PrimFloat.infinity false None)
              <$> settleWith round2 fuel
                    [Payer.mk "B" PrimFloat.nan] [Payer.mk "A" PrimFloat.nan]
            = None).
    by rewrite nan_debtor_stuck.
  - exact calculateBalances_terminates_exact.
Qed.

(** X1, on the first scenario of the specification, on doubles. *)
Lemma calculateBalances_terminates_witness :
  exists debts,
    forall fuel,
      length (debtorsOf (netAmounts (scenario_trip float_cents)))
      + length (creditorsOf (netAmounts (scenario_trip float_cents))) < fuel ->
      calculateBalances fuel (scenario_trip float_cents) = Some debts.
Proof.
  apply (proj1 calculateBalances_terminates).
  vm_compute. repeat constructor.
Defined.

(** ** An expense that its payer owes alone *)

Lemma div_eucl_exact (a b q : Z) :
  (0 < b)%Z -> a = (b * q)%Z -> Z.div_eucl a b = (q, 0%Z).
Proof.
  intros Hb ->.
  pose proof (Z.div_eucl_eq (b * q) b ltac:(lia)) as Heq.
  pose proof (Z.mod_pos_bound (b * q) b Hb) as Hmod.
  unfold Z.modulo in Hmod.
  destruct (Z.div_eucl (b * q) b) as [q' r]. simpl in *.
  assert (q' = q) by nia. subst. f_equal. lia.
Qed.

(** Division by one is exact. *)
Lemma SFdiv_one (x : SpecFloat.spec_float) :
  SpecFloat.valid_binary FloatOps.prec FloatOps.emax x = true ->
  SpecFloat.SFdiv FloatOps.prec FloatOps.emax x
    (SpecFloat.S754_finite false 4503599627370496 (-52)) = x.
Proof.
  destruct x as [[]|[]| |s m e]; try done.
  simpl SpecFloat.valid_binary. intros Hb.
  pose proof (canonical_digits m e Hb) as (Hd & He & Hnormal).
  destruct (bounded_exponent m e Hb) as [Htop _].
  unfold SpecFloat.SFdiv, SpecFloat.SFdiv_core_binary.
  change (SpecFloat.Zdigits2 4503599627370496) with 53%Z.
  cbn [SpecFloat.Zdigits2]. rewrite xorb_false_r.
  set (d := Z.pos (SpecFloat.digits2_pos m)) in *.
  destruct (Z.eq_dec e (-1074)%Z) as [->|Hne].
  - (* subnormal, or the lowest binade *)
    replace (SpecFloat.fexp FloatOps.prec FloatOps.emax (d + -1074 - (53 + -52)))
      with (-1074)%Z
      by (unfold SpecFloat.fexp, SpecFloat.emin, FloatOps.prec, FloatOps.emax; lia).
    change (Z.min (-1074) (-1074 - -52))%Z with (-1074)%Z.
    change (-1074 - -52 - -1074)%Z with 52%Z.
    rewrite Z.shiftl_mul_pow2 by lia.
    rewrite (div_eucl_exact _ _ (Z.pos m)) by lia.
    change (SpecFloat.new_location 4503599627370496 0) with SpecFloat.loc_Exact.
    unfold SpecFloat.binary_round_aux, SpecFloat.shr_fexp.
    cbn [SpecFloat.Zdigits2]. fold d.
    replace (SpecFloat.fexp FloatOps.prec FloatOps.emax (d + -1074) - -1074)%Z
      with 0%Z
      by (unfold SpecFloat.fexp, SpecFloat.emin, FloatOps.prec, FloatOps.emax; lia).
    cbn [SpecFloat.shr SpecFloat.shr_record_of_loc SpecFloat.shr_m
         SpecFloat.loc_of_shr_record SpecFloat.round_nearest_even
         SpecFloat.Zdigits2].
    fold d.
    replace (SpecFloat.fexp FloatOps.prec FloatOps.emax (d + -1074) - -1074)%Z
      with 0%Z
      by (unfold SpecFloat.fexp, SpecFloat.emin, FloatOps.prec, FloatOps.emax; lia).
    reflexivity.
  - assert (d = 53%Z) as Hd53 by (apply Hnormal; lia).
    rewrite Hd53.
    replace (SpecFloat.fexp FloatOps.prec FloatOps.emax (53 + e - (53 + -52)))
      with (e - 1)%Z
      by (unfold SpecFloat.fexp, SpecFloat.emin, FloatOps.prec, FloatOps.emax; lia).
    rewrite Z.min_l by lia.
    replace (e - -52 - (e - 1))%Z with 53%Z by lia.
    rewrite Z.shiftl_mul_pow2 by lia.
    rewrite (div_eucl_exact _ _ (Z.pos m~0)) by lia.
    change (SpecFloat.new_location 4503599627370496 0) with SpecFloat.loc_Exact.
    unfold SpecFloat.binary_round_aux, SpecFloat.shr_fexp.
    cbn [SpecFloat.Zdigits2 SpecFloat.digits2_pos].
    rewrite Pos2Z.inj_succ. fold d. rewrite Hd53.
    replace (SpecFloat.fexp FloatOps.prec FloatOps.emax (Z.succ 53 + (e - 1))
             - (e - 1))%Z with 1%Z
      by (unfold SpecFloat.fexp, SpecFloat.emin, FloatOps.prec, FloatOps.emax; lia).
    cbn [SpecFloat.shr SpecFloat.shr_record_of_loc SpecFloat.shr_m
         SpecFloat.loc_of_shr_record SpecFloat.round_nearest_even
         SpecFloat.iter_pos SpecFloat.shr_1 SpecFloat.shr_r SpecFloat.shr_s
         orb SpecFloat.Zdigits2].
    fold d. rewrite Hd53.
    replace (e - 1 + 1)%Z with e by lia.
    replace (SpecFloat.fexp FloatOps.prec FloatOps.emax (53 + e) - e)%Z with 0%Z
      by (unfold SpecFloat.fexp, SpecFloat.emin, FloatOps.prec, FloatOps.emax; lia).
    cbn [SpecFloat.shr SpecFloat.shr_record_of_loc SpecFloat.shr_m].
    replace (e <=? FloatOps.emax - FloatOps.prec)%Z with true; [done|].
    symmetry. apply Z.leb_le. unfold FloatOps.emax, FloatOps.prec. lia.
Qed.

Lemma float_div_one x : PrimFloat.div x (Float64.of_nat 1) = x.
Proof.
  apply FloatAxioms.Prim2SF_inj. rewrite FloatAxioms.div_spec.
  change (FloatOps.Prim2SF (Float64.of_nat 1))
    with (SpecFloat.S754_finite false 4503599627370496 (-52)).
  apply SFdiv_one, FloatAxioms.Prim2SF_valid.
Qed.

(** What the map of net amounts holds for somebody who pays [x] and owes
    all of it: zero, or NaN when [x] is not finite. *)
Lemma float_paid_and_owed x :
  let credited := PrimFloat.add PrimFloat.zero x in
  let kept := if Float64.truthy credited then credited else PrimFloat.zero in
  PrimFloat.sub kept x
  = if Float64.is_finite x then PrimFloat.zero else PrimFloat.nan.
Proof.
  intros credited kept.
  assert (FloatOps.Prim2SF credited
          = match FloatOps.Prim2SF x with
            | SpecFloat.S754_zero _ => SpecFloat.S754_zero false
            | other => other
            end) as Hcredited.
  { subst credited. rewrite FloatAxioms.add_spec.
    change (FloatOps.Prim2SF PrimFloat.zero) with (SpecFloat.S754_zero false).
    rewrite SF64add_zero_l. by destruct (FloatOps.Prim2SF x). }
  assert (forall y, Float64.truthy y
                    = match FloatOps.Prim2SF y with
                      | SpecFloat.S754_zero _ | SpecFloat.S754_nan => false
                      | _ => true
                      end) as Htruthy.
  { intros y. unfold Float64.truthy, Float64.is_nan.
    rewrite !FloatAxioms.eqb_spec.
    change (FloatOps.Prim2SF PrimFloat.zero) with (SpecFloat.S754_zero false).
    destruct (FloatOps.Prim2SF y) as [[]|[]| |[] m e]; try done;
      unfold SpecFloat.SFeqb, SpecFloat.SFcompare;
      by rewrite Z.compare_refl, Pos.compare_cont_refl. }
  apply FloatAxioms.Prim2SF_inj. rewrite FloatAxioms.sub_spec.
  subst kept. rewrite Htruthy, Hcredited. unfold Float64.is_finite.
  destruct (FloatOps.Prim2SF x) as [s|s| |s m e] eqn:Hx.
  - change (FloatOps.Prim2SF PrimFloat.zero) with (SpecFloat.S754_zero false).
    by destruct s.
  - rewrite Hcredited. by destruct s.
  - change (FloatOps.Prim2SF PrimFloat.zero) with (SpecFloat.S754_zero false).
    reflexivity.
  - rewrite Hcredited.
    change (FloatOps.Prim2SF PrimFloat.zero) with (SpecFloat.S754_zero false).
    unfold FloatAxioms.SF64sub, SpecFloat.SFsub. rewrite Z.min_id.
    unfold SpecFloat.shl_align. rewrite Z.sub_diag. cbn [fst].
    destruct s; cbn [SpecFloat.cond_Zopp]; by rewrite ?Z.sub_diag, ?Z.add_opp_diag_r.
Qed.

Lemma float_sub_self_zero x :
  Float64.is_finite x = true -> PrimFloat.sub x x = PrimFloat.zero.
Proof.
  unfold Float64.is_finite. intros Hfin.
  apply FloatAxioms.Prim2SF_inj. rewrite FloatAxioms.sub_spec.
  change (FloatOps.Prim2SF PrimFloat.zero) with (SpecFloat.S754_zero false).
  destruct (FloatOps.Prim2SF x) as [s|s| |s m e]; try done.
  - by destruct s.
  - unfold FloatAxioms.SF64sub, SpecFloat.SFsub. rewrite Z.min_id.
    unfold SpecFloat.shl_align. rewrite Z.sub_diag. cbn [fst].
    destruct s; cbn [SpecFloat.cond_Zopp];
      by rewrite ?Z.sub_diag, ?Z.add_opp_diag_r.
Qed.

Lemma finite_add_zero x :
  Float64.is_finite x = true ->
  Float64.is_finite (PrimFloat.add PrimFloat.zero x) = true.
Proof.
  unfold Float64.is_finite. rewrite FloatAxioms.add_spec.
  change (FloatOps.Prim2SF PrimFloat.zero) with (SpecFloat.S754_zero false).
  rewrite SF64add_zero_l. by destruct (FloatOps.Prim2SF x).
Qed.

Section SolePayer.

Variable name : string.

Lemma sole_payer_net (amount : PrimFloat.float) :
  netAmounts [Expense.mk amount (PaidByArray [Payer.mk name amount]) [name]]
  = [(name, if Float64.is_finite amount then PrimFloat.zero else PrimFloat.nan)].
Proof.
  unfold netAmounts, allParticipants, addParticipants, applyExpense,
    creditPayer, debitMember.
  cbn -[PrimFloat.add PrimFloat.sub PrimFloat.div Float64.truthy Float64.of_nat
        String.eqb get_or_zero].
  rewrite !String.eqb_refl.
  cbn -[PrimFloat.add PrimFloat.sub PrimFloat.div Float64.truthy Float64.of_nat
        String.eqb get_or_zero].
  rewrite !String.eqb_refl.
  unfold get_or_zero.
  cbn -[PrimFloat.add PrimFloat.sub PrimFloat.div Float64.truthy Float64.of_nat
        String.eqb].
  rewrite !String.eqb_refl.
  cbn -[PrimFloat.add PrimFloat.sub PrimFloat.div Float64.truthy Float64.of_nat
        String.eqb].
  change (Float64.truthy PrimFloat.zero) with false. cbv iota.
  rewrite float_div_one. do 2 f_equal. apply float_paid_and_owed.
Qed.

Lemma sole_payer_summary (amount : PrimFloat.float) :
  Float64.is_finite amount = true ->
  calculateParticipantSummary
    [Expense.mk amount (PaidByArray [Payer.mk name amount]) [name]] name
  = Summary.mk (PrimFloat.add PrimFloat.zero amount)
      (PrimFloat.add PrimFloat.zero amount) PrimFloat.zero 1 false false true.
Proof.
  intros Hfin. unfold calculateParticipantSummary, summaryStep, countPayer,
    includes.
  cbn -[PrimFloat.add PrimFloat.sub PrimFloat.div PrimFloat.ltb PrimFloat.eqb
        Float64.of_nat String.eqb].
  rewrite !String.eqb_refl.
  cbn -[PrimFloat.add PrimFloat.sub PrimFloat.div PrimFloat.ltb PrimFloat.eqb
        Float64.of_nat String.eqb].
  rewrite float_div_one, float_sub_self_zero by (by apply finite_add_zero).
  reflexivity.
Qed.

Lemma sole_payer_exact_net (amount : Qc) :
  netAmounts [Expense.mk amount (PaidByArray [Payer.mk name amount]) [name]]
  = [(name, 0%Qc)].
Proof.
  unfold netAmounts, allParticipants, addParticipants, applyExpense,
    creditPayer, debitMember.
  cbn -[Qcplus Qcminus Qcdiv Qc_eq_bool Exact.of_nat String.eqb get_or_zero].
  rewrite !String.eqb_refl.
  cbn -[Qcplus Qcminus Qcdiv Qc_eq_bool Exact.of_nat String.eqb get_or_zero].
  rewrite !String.eqb_refl.
  rewrite !get_or_zero_exact.
  cbn -[Qcplus Qcminus Qcdiv Qc_eq_bool Exact.of_nat String.eqb].
  rewrite !String.eqb_refl.
  cbn -[Qcplus Qcminus Qcdiv Qc_eq_bool Exact.of_nat String.eqb].
  do 2 f_equal.
  assert (Exact.of_nat 1 = 1%Qc) as -> by (by apply Qc_is_canon).
  field. discriminate.
Qed.

End SolePayer.

(** X3.  An expense that its only payer owes alone.  On doubles, for every
    amount: the payer's entry in the map of net amounts is 0 when the
    amount is finite and NaN when it is not, and [calculateBalances]
    returns no balance; for a finite amount [calculateParticipantSummary]
    has [netAmount] 0 and [isSettled] true.  Division by the one split
    member is exact.  In exact arithmetic the entry is 0 and there is no
    balance. *)
Theorem sole_payer_settled (name : string) (fuel : nat) :
  (forall amount : PrimFloat.float,
      let expenses :=
        [Expense.mk amount (PaidByArray [Payer.mk name amount]) [name]] in
      netAmounts expenses
      = [(name, if Float64.is_finite amount then PrimFloat.zero
                else PrimFloat.nan)]
      /\ calculateBalances (S fuel) expenses = Some []
      /\ (Float64.is_finite amount = true ->
          Summary.netAmount (calculateParticipantSummary expenses name)
          = PrimFloat.zero
          /\ Summary.isSettled (calculateParticipantSummary expenses name)
             = true
          /\ Summary.isCreditor (calculateParticipantSummary expenses name)
             = false
          /\ Summary.isDebtor (calculateParticipantSummary expenses name)
             = false))
  /\ (forall amount : Qc,
      let expenses :=
        [Expense.mk amount (PaidByArray [Payer.mk name amount]) [name]] in
      netAmounts expenses = [(name, 0%Qc)]
      /\ calculateBalances (S fuel) expenses = Some []).
Proof.
  split.
  - intros amount expenses. subst expenses. split_and!.
    + apply sole_payer_net.
    + unfold calculateBalances. rewrite sole_payer_net.
      by destruct (Float64.is_finite amount).
    + intros Hfin. by rewrite sole_payer_summary.
  - intros amount expenses. subst expenses. split; [apply sole_payer_exact_net|].
    unfold calculateBalances. by rewrite sole_payer_exact_net.
Qed.
